(** * Qitmeer consensus core: UTXO viewpoint and block DAG

    A shallow embedding of [core/blockchain/utxo.go] (the UTXO viewpoint:
    [AddTxOuts], [connectTransaction], [disconnectTransactions], [commit],
    [fetchUtxosMain], [GetSpentTxOut]) and of the block DAG engine
    ([AddBlock] and the functions it drives), together with the properties
    of the specification that are stated about them.

    Conventions.
    - A [hash.Hash] is modelled by the natural number its hexadecimal
      [String()] denotes; hash equality is equality of numbers and the
      string comparison used by the DAG sort is [N.ltb].
    - Go pointers to entries are modelled by [option]: [None] is [nil].
      A Go map from hashes to entry pointers is a
      [gmap N (option UtxoEntry)], so that a key bound to [nil]
      ([Some None]) is distinguished from a missing key ([None]).
    - Fixed-width conversions are written out ([uint32]). *)

From Stdlib Require Import ZArith NArith Lia List Bool.
From stdpp Require Import gmap list fin_maps sorting.

Local Open Scope N_scope.

(** ** Fixed-width integers *)

(** Go's conversion [uint32(x)] of an integer [x]. *)
Definition uint32 (z : Z) : N := Z.to_N (z mod 2 ^ 32).

(** Go's conversion [int64(x)] of an unsigned 64-bit [x]. *)
Definition int64 (n : N) : Z :=
  let z := (Z.of_N n mod 2 ^ 64)%Z in
  if (z <? 2 ^ 63)%Z then z else (z - 2 ^ 64)%Z.

(** ** Transactions and blocks (types of the [types] package) *)

Abbreviation bytes := (list Byte.byte).

Inductive TxType := TxTypeRegular | TxTypeOther (n : N).

Record TxOutPoint := mkTxOutPoint { opHash : N; OutIndex : N }.

Record TxInput := mkTxInput { PreviousOut : TxOutPoint; AmountIn : N }.

Record TxOutput := mkTxOutput { Amount : N; PkScript : bytes }.

Record Transaction := mkTransaction {
  Version : N;
  TxIn : list TxInput;
  TxOut : list TxOutput;
  Expire : N
}.

(** [types.Tx]: a transaction with its cached hash. *)
Record Tx := mkTx { txHash : N; msgTx : Transaction }.

(** [types.SerializedBlock], as far as the viewpoint reads it. *)
Record SerializedBlock := mkBlock {
  blockHash : N;
  blockParents : list N;
  blockOrder : N;
  blockTransactions : list Tx
}.

(** ** The UTXO data model *)

Record utxoOutput := mkUtxoOutput {
  scriptVersion : N;
  pkScript : bytes;
  amount : N;
  spent : bool
}.

Record UtxoEntry := mkUtxoEntry {
  sparseOutputs : gmap N utxoOutput;
  txVersion : N;
  order : N;
  index : N;
  isCoinBase : bool;
  hasExpiry : bool;
  txType : TxType;
  modified : bool
}.

Record UtxoViewpoint := mkUtxoViewpoint {
  entries : gmap N (option UtxoEntry);
  bestHash : N
}.

(** The spend journal record. *)
Record SpentTxOut := mkSpentTxOut {
  stxoAmount : N;
  stxoScriptVersion : N;
  stxoPkScript : bytes;
  stxoTxIndex : N;
  stxoInIndex : N;
  stxoTxVersion : N;
  stxoOrder : N;
  stxoIsCoinBase : bool;
  stxoHasExpiry : bool;
  stxoTxType : TxType;
  stxoTxFullySpent : bool
}.

(** Go's zero value of [SpentTxOut]. *)
Definition zeroSpentTxOut : SpentTxOut :=
  mkSpentTxOut 0 0 [] 0 0 0 0 false false TxTypeRegular false.

Inductive Error :=
  | ErrViewMissingInput (op : TxOutPoint)
  | ErrReviveNotFullySpent (h : N)
  | ErrFullySpentInDb (h : N)
  | ErrCorruptUtxo (h : N)
  | ErrDeserialize
  | ErrOther.

Definition NewUtxoViewpoint : UtxoViewpoint := mkUtxoViewpoint ∅ 0.

Definition newUtxoEntry (txVersion order index : N) (isCoinBase hasExpiry : bool)
    (tt : TxType) : UtxoEntry :=
  mkUtxoEntry ∅ txVersion order index isCoinBase hasExpiry tt false.

Definition setModified (m : bool) (e : UtxoEntry) : UtxoEntry :=
  mkUtxoEntry (sparseOutputs e) (txVersion e) (order e) (index e)
    (isCoinBase e) (hasExpiry e) (txType e) m.

Definition setOutputs (o : gmap N utxoOutput) (e : UtxoEntry) : UtxoEntry :=
  mkUtxoEntry o (txVersion e) (order e) (index e)
    (isCoinBase e) (hasExpiry e) (txType e) (modified e).

Definition setOrderIndex (ord idx : N) (e : UtxoEntry) : UtxoEntry :=
  mkUtxoEntry (sparseOutputs e) (txVersion e) ord idx
    (isCoinBase e) (hasExpiry e) (txType e) (modified e).

Definition setSpent (s : bool) (o : utxoOutput) : utxoOutput :=
  mkUtxoOutput (scriptVersion o) (pkScript o) (amount o) s.

(** [view.entries[h]]: the pointer stored under [h], [nil] when the key is
    missing. *)
Definition entryAt (view : UtxoViewpoint) (h : N) : option UtxoEntry :=
  match entries view !! h with
  | Some p => p
  | None => None
  end.

Definition setEntry (h : N) (e : UtxoEntry) (view : UtxoViewpoint) : UtxoViewpoint :=
  mkUtxoViewpoint (<[h := Some e]> (entries view)) (bestHash view).

Definition LookupEntry (view : UtxoViewpoint) (txHash : N) : option UtxoEntry :=
  match entries view !! txHash with
  | None => None
  | Some entry => entry
  end.

Definition BestHash (view : UtxoViewpoint) : N := bestHash view.

Definition SetBestHash (view : UtxoViewpoint) (h : N) : UtxoViewpoint :=
  mkUtxoViewpoint (entries view) h.

(** *** Entry accessors

    The methods of [UtxoEntry] live in a file of the repository that is not
    part of the sources at hand. *)

(** Modelled from the spec: [UtxoEntry.SpendOutput] is missing.
    "Mark the referenced output spent"; an index without an output is left
    alone, and the entry is flagged modified when an output changes. *)
Definition SpendOutput (e : UtxoEntry) (outputIndex : N) : UtxoEntry :=
  match sparseOutputs e !! outputIndex with
  | None => e
  | Some o =>
      if spent o then e
      else setModified true (setOutputs (<[outputIndex := setSpent true o]> (sparseOutputs e)) e)
  end.

(** Modelled from the spec: [UtxoEntry.IsFullySpent] is missing.
    An entry is fully spent when none of its outputs is unspent. *)
Definition IsFullySpent (e : UtxoEntry) : bool :=
  bool_decide (map_Forall (λ _ o, spent o = true) (sparseOutputs e)).

(** Modelled from the spec: [UtxoEntry.AmountByIndex] is missing.
    The amount of the output, zero when there is none. *)
Definition AmountByIndex (e : UtxoEntry) (i : N) : N :=
  match sparseOutputs e !! i with Some o => amount o | None => 0 end.

(** Modelled from the spec: [UtxoEntry.ScriptVersionByIndex] is missing. *)
Definition ScriptVersionByIndex (e : UtxoEntry) (i : N) : N :=
  match sparseOutputs e !! i with Some o => scriptVersion o | None => 0 end.

(** Modelled from the spec: [UtxoEntry.PkScriptByIndex] is missing. *)
Definition PkScriptByIndex (e : UtxoEntry) (i : N) : bytes :=
  match sparseOutputs e !! i with Some o => pkScript o | None => [] end.

(** ** The journal lookup *)

(** The [for ... range stxos] loop of [GetSpentTxOut]: [result] is overwritten
    by the first matching record and the loop stops. *)
Fixpoint scanSpentTxOut (txIndex inIndex : N) (stxos : list SpentTxOut)
    (result : SpentTxOut) : SpentTxOut :=
  match stxos with
  | [] => result
  | stxo :: rest =>
      if (stxoTxIndex stxo =? uint32 (Z.of_N txIndex))
         && (stxoInIndex stxo =? uint32 (Z.of_N inIndex))
      then stxo
      else scanSpentTxOut txIndex inIndex rest result
  end.

(** [GetSpentTxOut]: [None] is the [nil] pointer. *)
Definition GetSpentTxOut (txIndex inIndex : N) (stxos : list SpentTxOut)
    : option SpentTxOut :=
  if (length stxos =? 0)%nat then None
  else Some (scanSpentTxOut txIndex inIndex stxos zeroSpentTxOut).

(** ** Operations that depend on the script and transaction libraries *)

Section Viewpoint.

(** [txscript.IsUnspendable], [Transaction.IsCoinBaseTx] and
    [types.DetermineTxType] belong to the library packages. *)
Variable IsUnspendable : N -> bytes -> bool.
Variable IsCoinBaseTx : Transaction -> bool.
Variable DetermineTxType : Transaction -> TxType.

(** The loop of [AddTxOuts] over [TxOut], from output index [txOutIdx] on. *)
Fixpoint addOutputs (outs : list TxOutput) (txOutIdx : nat)
    (m : gmap N utxoOutput) : gmap N utxoOutput :=
  match outs with
  | [] => m
  | txOut :: rest =>
      if IsUnspendable (Amount txOut) (PkScript txOut)
      then addOutputs rest (S txOutIdx) m
      else
        let k := uint32 (Z.of_nat txOutIdx) in
        match m !! k with
        | Some output =>
            addOutputs rest (S txOutIdx)
              (<[k := mkUtxoOutput (scriptVersion output) (PkScript txOut)
                        (Amount txOut) false]> m)
        | None =>
            addOutputs rest (S txOutIdx)
              (<[k := mkUtxoOutput 0 (PkScript txOut) (Amount txOut) false]> m)
        end
  end.

(** [AddTxOuts]: the Go method has no result and cannot fail. *)
Definition AddTxOuts (view : UtxoViewpoint) (theTx : Tx) (blockOrder : Z)
    (blockIndex : N) : UtxoViewpoint :=
  let tx := msgTx theTx in
  let entry :=
    match LookupEntry view (txHash theTx) with
    | None =>
        newUtxoEntry (Version tx) (uint32 blockOrder) blockIndex
          (IsCoinBaseTx tx) (negb (Expire tx =? 0)) (DetermineTxType tx)
    | Some entry => setOrderIndex (uint32 blockOrder) blockIndex entry
    end in
  let entry := setModified true entry in
  setEntry (txHash theTx)
    (setOutputs (addOutputs (TxOut tx) 0 (sparseOutputs entry)) entry) view.

(** The loop of [connectTransaction] over [TxIn], from input [inIndex] on.
    [stxos] is the optional journal ([None] is a [nil] pointer). The view is
    returned together with the error, as the Go code leaves it. *)
Fixpoint connectInputs (view : UtxoViewpoint) (ins : list TxInput)
    (inIndex : nat) (blockIndex : N) (stxos : option (list SpentTxOut))
    : UtxoViewpoint * option (list SpentTxOut) * option Error :=
  match ins with
  | [] => (view, stxos, None)
  | txIn :: rest =>
      let originIndex := OutIndex (PreviousOut txIn) in
      match entryAt view (opHash (PreviousOut txIn)) with
      | None => (view, stxos, Some (ErrViewMissingInput (PreviousOut txIn)))
      | Some entry0 =>
          let entry := SpendOutput entry0 originIndex in
          let view := setEntry (opHash (PreviousOut txIn)) entry view in
          match stxos with
          | None => connectInputs view rest (S inIndex) blockIndex None
          | Some l =>
              let stxo :=
                mkSpentTxOut (AmountByIndex entry originIndex)
                  (ScriptVersionByIndex entry originIndex)
                  (PkScriptByIndex entry originIndex)
                  blockIndex (uint32 (Z.of_nat inIndex))
                  (txVersion entry) (uint32 (Z.of_N (order entry)))
                  (isCoinBase entry) (hasExpiry entry) (txType entry)
                  (IsFullySpent entry) in
              connectInputs view rest (S inIndex) blockIndex (Some (l ++ [stxo]))
          end
      end
  end.

Definition connectTransaction (view : UtxoViewpoint) (tx : Tx) (blockOrder : N)
    (blockIndex : N) (stxos : option (list SpentTxOut))
    : UtxoViewpoint * option (list SpentTxOut) * option Error :=
  if IsCoinBaseTx (msgTx tx)
  then (AddTxOuts view tx (int64 blockOrder) blockIndex, stxos, None)
  else
    match connectInputs view (TxIn (msgTx tx)) 0 blockIndex stxos with
    | (view, stxos, Some err) => (view, stxos, Some err)
    | (view, stxos, None) =>
        (AddTxOuts view tx (int64 blockOrder) blockIndex, stxos, None)
    end.

(** The loop [for i, tx := range block.Transactions()] that drives
    [connectTransaction], as [connectTransactions] has it: transaction [i] is
    connected with block index [uint32(i)]. [txIdx] is the position of the
    first transaction of [txs]. *)
Fixpoint connectTxs (view : UtxoViewpoint) (blockOrd : N) (txs : list Tx)
    (txIdx : nat) (stxos : option (list SpentTxOut))
    : UtxoViewpoint * option (list SpentTxOut) * option Error :=
  match txs with
  | [] => (view, stxos, None)
  | tx :: rest =>
      match connectTransaction view tx blockOrd (uint32 (Z.of_nat txIdx)) stxos with
      | (view, stxos, Some err) => (view, stxos, Some err)
      | (view, stxos, None) => connectTxs view blockOrd rest (S txIdx) stxos
      end
  end.

(** Every transaction of the block connected in order, the spent outputs
    recorded in a fresh journal. *)
Definition connectBlock (view : UtxoViewpoint) (block : SerializedBlock)
    : UtxoViewpoint * option (list SpentTxOut) * option Error :=
  connectTxs view (blockOrder block) (blockTransactions block) 0 (Some []).

(** Positions paired with elements, as [for i, x := range l] sees them. *)
Fixpoint indexFrom {A} (i : nat) (l : list A) : list (nat * A) :=
  match l with
  | [] => []
  | x :: rest => (i, x) :: indexFrom (S i) rest
  end.

(** The inner loop of [disconnectTransactions]: the inputs of [tx], last
    input first. *)
Fixpoint disconnectInputs (view : UtxoViewpoint) (tx : Tx) (txIdx : nat)
    (insRev : list (nat * TxInput)) (stxos : list SpentTxOut)
    : UtxoViewpoint * option Error :=
  match insRev with
  | [] => (view, None)
  | (txInIdx, txIn) :: rest =>
      match GetSpentTxOut (N.of_nat txIdx) (N.of_nat txInIdx) stxos with
      | None => disconnectInputs view tx txIdx rest stxos
      | Some stxo =>
          let originHash := opHash (PreviousOut txIn) in
          let originIndex := OutIndex (PreviousOut txIn) in
          let resurrected :=
            match entryAt view originHash with
            | Some entry => inr entry
            | None =>
                if negb (stxoTxFullySpent stxo)
                then inl (ErrReviveNotFullySpent originHash)
                else inr (newUtxoEntry (Version (msgTx tx)) (stxoOrder stxo)
                            (stxoTxIndex stxo) (stxoIsCoinBase stxo)
                            (stxoHasExpiry stxo) (stxoTxType stxo))
            end in
          match resurrected with
          | inl err => (view, Some err)
          | inr entry =>
              let entry := setModified true entry in
              let entry :=
                match sparseOutputs entry !! originIndex with
                | None =>
                    setOutputs
                      (<[originIndex :=
                           mkUtxoOutput (stxoScriptVersion stxo) (stxoPkScript stxo)
                             (stxoAmount stxo) false]> (sparseOutputs entry)) entry
                | Some output =>
                    setOutputs
                      (<[originIndex := setSpent false output]> (sparseOutputs entry))
                      entry
                end in
              disconnectInputs (setEntry originHash entry view) tx txIdx rest stxos
          end
      end
  end.

(** The outer loop of [disconnectTransactions]: the transactions of the block,
    last transaction first. *)
Fixpoint disconnectTxs (view : UtxoViewpoint) (blockOrd : N)
    (txsRev : list (nat * Tx)) (stxos : list SpentTxOut)
    : UtxoViewpoint * option Error :=
  match txsRev with
  | [] => (view, None)
  | (txIdx, tx) :: rest =>
      let isCoinbase := (txIdx =? 0)%nat in
      let entry :=
        match entryAt view (txHash tx) with
        | None =>
            newUtxoEntry (Version (msgTx tx)) (uint32 (Z.of_N blockOrd))
              (uint32 (Z.of_nat txIdx)) isCoinbase
              (negb (Expire (msgTx tx) =? 0)) TxTypeRegular
        | Some entry => entry
        end in
      let entry := setOutputs ∅ (setModified true entry) in
      let view := setEntry (txHash tx) entry view in
      if isCoinbase then disconnectTxs view blockOrd rest stxos
      else
        match disconnectInputs view tx txIdx
                (rev (indexFrom 0 (TxIn (msgTx tx)))) stxos with
        | (view, Some err) => (view, Some err)
        | (view, None) => disconnectTxs view blockOrd rest stxos
        end
  end.

Definition disconnectTransactions (view : UtxoViewpoint) (block : SerializedBlock)
    (stxos : list SpentTxOut) : UtxoViewpoint * option Error :=
  match disconnectTxs view (blockOrder block)
          (rev (indexFrom 0 (blockTransactions block))) stxos with
  | (view, Some err) => (view, Some err)
  | (view, None) => (SetBestHash view (blockHash block), None)
  end.

End Viewpoint.

(** [commit]: one pass over the map; a key is deleted when it is bound to
    [nil] or to a modified, fully spent entry, and every entry that stays is
    marked unmodified. *)
Definition commitEntry (p : option UtxoEntry) : option (option UtxoEntry) :=
  match p with
  | None => None
  | Some entry =>
      if modified entry && IsFullySpent entry then None
      else Some (Some (setModified false entry))
  end.

Definition commit (view : UtxoViewpoint) : UtxoViewpoint :=
  mkUtxoViewpoint (omap commitEntry (entries view)) (bestHash view).

(** ** Loading from the store *)

Section Store.

(** [deserializeUtxoEntry] and [isDeserializeErr] are defined with the
    on-disk codec. *)
Variable deserializeUtxoEntry : bytes -> Error + UtxoEntry.
Variable isDeserializeErr : Error -> bool.

(** [dbFetchUtxoEntry] on the utxo bucket of the store: the entry pointer
    ([None] is [nil]) or an error. *)
Definition dbFetchUtxoEntry (utxoBucket : gmap N bytes) (h : N)
    : Error + option UtxoEntry :=
  match utxoBucket !! h with
  | None => inr None
  | Some serializedUtxo =>
      if (length serializedUtxo =? 0)%nat then inl (ErrFullySpentInDb h)
      else
        match deserializeUtxoEntry serializedUtxo with
        | inl err => if isDeserializeErr err then inl (ErrCorruptUtxo h) else inl err
        | inr entry => inr (Some entry)
        end
  end.

(** The loop of [fetchUtxosMain]; [txSet] lists the requested hashes in the
    order in which the Go map yields them. *)
Fixpoint fetchUtxosLoop (view : UtxoViewpoint) (utxoBucket : gmap N bytes)
    (txSet : list N) : UtxoViewpoint * option Error :=
  match txSet with
  | [] => (view, None)
  | h :: rest =>
      match entries view !! h with
      | Some _ => fetchUtxosLoop view utxoBucket rest
      | None =>
          match dbFetchUtxoEntry utxoBucket h with
          | inl err => (view, Some err)
          | inr entry =>
              fetchUtxosLoop
                (mkUtxoViewpoint (<[h := entry]> (entries view)) (bestHash view))
                utxoBucket rest
          end
      end
  end.

Definition fetchUtxosMain (view : UtxoViewpoint) (utxoBucket : gmap N bytes)
    (txSet : list N) : UtxoViewpoint * option Error :=
  if (length txSet =? 0)%nat then (view, None)
  else fetchUtxosLoop view utxoBucket txSet.

End Store.


(** ** Observations and sample data for the viewpoint *)

Definition stxoMatches (txIndex inIndex : N) (stxo : SpentTxOut) : bool :=
  (stxoTxIndex stxo =? uint32 (Z.of_N txIndex))
  && (stxoInIndex stxo =? uint32 (Z.of_N inIndex)).

(** A coinbase-only block [2] whose parent is block [1]. *)
Definition coinbaseIn : TxInput := mkTxInput (mkTxOutPoint 0 4294967295) 0.

Definition blockTwo : SerializedBlock :=
  mkBlock 2 [1] 1 [mkTx 10 (mkTransaction 1 [coinbaseIn] [] 0)].

(** What a caller of [AddTxOuts] can observe. The Go method has no error
    result: every call returns, so the outcome is always [Returns]. *)
Inductive RuleError := DuplicateLiveTx.

Inductive Outcome :=
  | Returns (view : UtxoViewpoint)
  | Fails (e : RuleError).

(** A call of [AddTxOuts] as its caller observes it. *)
Definition callAddTxOuts (IsUnspendable : N -> bytes -> bool)
    (IsCoinBaseTx : Transaction -> bool) (DetermineTxType : Transaction -> TxType)
    (view : UtxoViewpoint) (theTx : Tx) (blockOrder : Z) (blockIndex : N) : Outcome :=
  Returns (AddTxOuts IsUnspendable IsCoinBaseTx DetermineTxType view theTx
             blockOrder blockIndex).

(** Sample instances of the library predicates: an output is unspendable when
    it pays nothing, and a coinbase has the single null input. *)
Definition sampleIsUnspendable (amt : N) (_ : bytes) : bool := amt =? 0.

Definition sampleIsCoinBaseTx (tx : Transaction) : bool :=
  match TxIn tx with
  | [txIn] =>
      (OutIndex (PreviousOut txIn) =? 4294967295)
      && (opHash (PreviousOut txIn) =? 0)
  | _ => false
  end.

Definition sampleDetermineTxType (_ : Transaction) : TxType := TxTypeRegular.

(** A view that holds a live entry for hash [7]: output [0] pays 50 and is
    unspent. *)
Definition liveEntry : UtxoEntry :=
  mkUtxoEntry {[ 0 := mkUtxoOutput 0 [] 50 false ]} 1 1 0 true false
    TxTypeRegular false.

Definition liveView : UtxoViewpoint := mkUtxoViewpoint {[ 7 := Some liveEntry ]} 1.

(** A second transaction with the same hash [7], paying 25. *)
Definition collidingTx : Tx :=
  mkTx 7 (mkTransaction 1 [coinbaseIn] [mkTxOutput 25 []] 0).

(** A codec stand-in for the examples: nothing decodes. *)
Definition sampleDeserialize (_ : bytes) : Error + UtxoEntry := inl ErrDeserialize.

Definition sampleIsDeserializeErr (e : Error) : bool :=
  match e with ErrDeserialize => true | _ => false end.

(** A block that consists of the colliding coinbase alone. *)
Definition collidingBlock : SerializedBlock := mkBlock 2 [1] 2 [collidingTx].

(** A block with a coinbase and a transaction that spends output [0] of
    transaction [7] into two outputs of 25. *)
Definition spendingTx : Tx :=
  mkTx 21 (mkTransaction 1 [mkTxInput (mkTxOutPoint 7 0) 50]
             [mkTxOutput 25 []; mkTxOutput 25 []] 0).

Definition spendingBlock : SerializedBlock :=
  mkBlock 3 [2] 2
    [mkTx 20 (mkTransaction 1 [coinbaseIn] [mkTxOutput 50 []] 0); spendingTx].

(** The view and the journal after the transactions of a block have been
    connected to [liveView]. *)
Definition connectedView (block : SerializedBlock) : UtxoViewpoint :=
  (connectBlock sampleIsUnspendable sampleIsCoinBaseTx sampleDetermineTxType
     liveView block).1.1.

Definition connectedJournal (block : SerializedBlock) : list SpentTxOut :=
  default []
    (connectBlock sampleIsUnspendable sampleIsCoinBaseTx sampleDetermineTxType
       liveView block).1.2.


(** ** Predicates on views

    What the statements about [connectTransaction] and
    [disconnectTransactions] are written with. *)

(** Entries that agree on everything but their outputs and their modified
    flag. *)
Definition sameFields (e e' : UtxoEntry) : Prop :=
  txVersion e = txVersion e' ∧ order e = order e' ∧ index e = index e'
  ∧ isCoinBase e = isCoinBase e' ∧ hasExpiry e = hasExpiry e'
  ∧ txType e = txType e'.

(** The outputs of [m] whose index is in [refs] get the spent flag [s]. *)
Definition markOutputs (s : bool) (refs : gset N) (m : gmap N utxoOutput)
    : gmap N utxoOutput :=
  map_imap (λ i o, Some (if bool_decide (i ∈ refs) then setSpent s o else o)) m.

(** The transaction an input spends from, and the output it spends. *)
Definition inKey (txIn : TxInput) : N := opHash (PreviousOut txIn).

Definition inIdx (txIn : TxInput) : N := OutIndex (PreviousOut txIn).

(** The outputs of transaction [k] that the inputs [ins] refer to. *)
Definition refsOf (k : N) (ins : list TxInput) : gset N :=
  list_to_set (inIdx <$> filter (λ txIn, inKey txIn = k) ins).

(** The binding [p1] of a key is the binding [p] with the outputs in [refs]
    marked [s]; with no output to mark the binding is the same. *)
Definition Marked (s flagged : bool) (refs : gset N)
    (p p1 : option (option UtxoEntry)) : Prop :=
  (refs = ∅ ∧ p1 = p)
  ∨ (refs ≠ ∅
     ∧ ∃ e e1, p = Some (Some e) ∧ p1 = Some (Some e1) ∧ sameFields e e1
               ∧ (flagged = true -> modified e1 = true)
               ∧ sparseOutputs e1 = markOutputs s refs (sparseOutputs e)).

(** A key bound to an entry that has no output and is flagged modified. *)
Definition cleared (p : option (option UtxoEntry)) : Prop :=
  ∃ e, p = Some (Some e) ∧ sparseOutputs e = ∅ ∧ modified e = true.

(** The outputs of transaction [k] that the transactions [txs] spend. *)
Fixpoint blockRefs (IsCoinBaseTx : Transaction -> bool) (k : N) (txs : list Tx)
    : gset N :=
  match txs with
  | [] => ∅
  | tx :: rest =>
      (if IsCoinBaseTx (msgTx tx) then ∅ else refsOf k (TxIn (msgTx tx)))
      ∪ blockRefs IsCoinBaseTx k rest
  end.

(** The entry of a transaction of the block once the block is
    disconnected: cleared, and created first when the view has none. *)
Definition clearedEntry (view : UtxoViewpoint) (blockOrd : N) (txIdx : nat)
    (tx : Tx) : UtxoEntry :=
  setOutputs ∅
    (setModified true
       match entryAt view (txHash tx) with
       | None =>
           newUtxoEntry (Version (msgTx tx)) (uint32 (Z.of_N blockOrd))
             (uint32 (Z.of_nat txIdx)) (txIdx =? 0)%nat
             (negb (Expire (msgTx tx) =? 0)) TxTypeRegular
       | Some entry => entry
       end).

(* ===================================================================== *)
(** * The block DAG engine *)
(* ===================================================================== *)

(** ** Failures

    A Go panic (a [nil] dereference, an index out of range) and the end of
    the fuel of a recursive function are failures of the model; the two
    rejections of the block index are failures too. *)

Inductive Failure :=
  | NilDeref
  | IndexOutOfRange
  | OutOfFuel
  | DuplicateBlock
  | MissingParents.

Inductive res (A : Type) :=
  | Ok (a : A)
  | Fail (e : Failure).

Arguments Ok {A} a.
Arguments Fail {A} e.

#[global] Instance res_ret : MRet res := λ A a, Ok a.

#[global] Instance res_bind : MBind res :=
  λ A B f m, match m with Ok a => f a | Fail e => Fail e end.

(** A loop with an accumulator whose body may fail. *)
Fixpoint foldM {A B} (f : A -> B -> res A) (a : A) (l : list B) : res A :=
  match l with
  | [] => Ok a
  | x :: rest => a' ← f a x; foldM f a' rest
  end.

(** ** Blocks and the state of the DAG *)

(** A block as the DAG sees it through [IBlock]; the fields are named after
    the getters. A [*BlockSet] is a [gset N]. *)
Record BlockNode := mkBlockNode {
  GetHash : N;
  GetParents : gset N;
  GetChildren : gset N;
  GetTimestamp : Z;
  GetPastSetNum : N;
  GetHeight : N
}.

Definition SetPastSetNum (num : N) (b : BlockNode) : BlockNode :=
  mkBlockNode (GetHash b) (GetParents b) (GetChildren b) (GetTimestamp b) num
    (GetHeight b).

Definition SetHeight (h : N) (b : BlockNode) : BlockNode :=
  mkBlockNode (GetHash b) (GetParents b) (GetChildren b) (GetTimestamp b)
    (GetPastSetNum b) h.

Definition addChild (c : N) (b : BlockNode) : BlockNode :=
  mkBlockNode (GetHash b) (GetParents b) (GetChildren b ∪ {[c]}) (GetTimestamp b)
    (GetPastSetNum b) (GetHeight b).

(** [BlockDAG]. The block index [bc.index] is the field [bcIndex]. The pointers
    [tips], [tempBlueSet], [hourglassBlocks] and the slice [tempOrder] can be
    [nil] ([None]); [commonBlueSet] and [lastCommonBlocks] are assigned by the
    insertion of the genesis, before any use. An entry of [commonOrder] is a
    [*hash.Hash] and can be [nil]. *)
Record BlockDAG := mkBlockDAG {
  bcIndex : gmap N BlockNode;
  genesis : N;
  totalBlocks : N;
  commonBlueSet : gset N;
  tempBlueSet : option (gset N);
  lastCommonBlocks : gset N;
  commonOrder : list (option N);
  tempOrder : option (list N);
  tips : option (gset N);
  hourglassBlocks : option (gset N);
  lastTime : Z;
  anticoneSize : Z
}.

Definition setIndex (x : gmap N BlockNode) (bd : BlockDAG) : BlockDAG :=
  mkBlockDAG x (genesis bd) (totalBlocks bd) (commonBlueSet bd) (tempBlueSet bd)
    (lastCommonBlocks bd) (commonOrder bd) (tempOrder bd) (tips bd)
    (hourglassBlocks bd) (lastTime bd) (anticoneSize bd).

Definition setGenesis (x : N) (bd : BlockDAG) : BlockDAG :=
  mkBlockDAG (bcIndex bd) x (totalBlocks bd) (commonBlueSet bd) (tempBlueSet bd)
    (lastCommonBlocks bd) (commonOrder bd) (tempOrder bd) (tips bd)
    (hourglassBlocks bd) (lastTime bd) (anticoneSize bd).

Definition setTotalBlocks (x : N) (bd : BlockDAG) : BlockDAG :=
  mkBlockDAG (bcIndex bd) (genesis bd) x (commonBlueSet bd) (tempBlueSet bd)
    (lastCommonBlocks bd) (commonOrder bd) (tempOrder bd) (tips bd)
    (hourglassBlocks bd) (lastTime bd) (anticoneSize bd).

Definition setCommonBlueSet (x : gset N) (bd : BlockDAG) : BlockDAG :=
  mkBlockDAG (bcIndex bd) (genesis bd) (totalBlocks bd) x (tempBlueSet bd)
    (lastCommonBlocks bd) (commonOrder bd) (tempOrder bd) (tips bd)
    (hourglassBlocks bd) (lastTime bd) (anticoneSize bd).

Definition setTempBlueSet (x : option (gset N)) (bd : BlockDAG) : BlockDAG :=
  mkBlockDAG (bcIndex bd) (genesis bd) (totalBlocks bd) (commonBlueSet bd) x
    (lastCommonBlocks bd) (commonOrder bd) (tempOrder bd) (tips bd)
    (hourglassBlocks bd) (lastTime bd) (anticoneSize bd).

Definition setLastCommonBlocks (x : gset N) (bd : BlockDAG) : BlockDAG :=
  mkBlockDAG (bcIndex bd) (genesis bd) (totalBlocks bd) (commonBlueSet bd)
    (tempBlueSet bd) x (commonOrder bd) (tempOrder bd) (tips bd)
    (hourglassBlocks bd) (lastTime bd) (anticoneSize bd).

Definition setCommonOrder (x : list (option N)) (bd : BlockDAG) : BlockDAG :=
  mkBlockDAG (bcIndex bd) (genesis bd) (totalBlocks bd) (commonBlueSet bd)
    (tempBlueSet bd) (lastCommonBlocks bd) x (tempOrder bd) (tips bd)
    (hourglassBlocks bd) (lastTime bd) (anticoneSize bd).

Definition setTempOrder (x : option (list N)) (bd : BlockDAG) : BlockDAG :=
  mkBlockDAG (bcIndex bd) (genesis bd) (totalBlocks bd) (commonBlueSet bd)
    (tempBlueSet bd) (lastCommonBlocks bd) (commonOrder bd) x (tips bd)
    (hourglassBlocks bd) (lastTime bd) (anticoneSize bd).

Definition setTips (x : option (gset N)) (bd : BlockDAG) : BlockDAG :=
  mkBlockDAG (bcIndex bd) (genesis bd) (totalBlocks bd) (commonBlueSet bd)
    (tempBlueSet bd) (lastCommonBlocks bd) (commonOrder bd) (tempOrder bd) x
    (hourglassBlocks bd) (lastTime bd) (anticoneSize bd).

Definition setHourglassBlocks (x : option (gset N)) (bd : BlockDAG) : BlockDAG :=
  mkBlockDAG (bcIndex bd) (genesis bd) (totalBlocks bd) (commonBlueSet bd)
    (tempBlueSet bd) (lastCommonBlocks bd) (commonOrder bd) (tempOrder bd)
    (tips bd) x (lastTime bd) (anticoneSize bd).

Definition setLastTime (x : Z) (bd : BlockDAG) : BlockDAG :=
  mkBlockDAG (bcIndex bd) (genesis bd) (totalBlocks bd) (commonBlueSet bd)
    (tempBlueSet bd) (lastCommonBlocks bd) (commonOrder bd) (tempOrder bd)
    (tips bd) (hourglassBlocks bd) x (anticoneSize bd).

(** The DAG of a fresh node: nothing inserted yet, anticone size [k]. *)
Definition newBlockDAG (k : Z) : BlockDAG :=
  mkBlockDAG ∅ 0 0 ∅ None ∅ [] None None None 0 k.

(** [bd.GetBlock]: the node of the index, [nil] when there is none. *)
Definition GetBlock (bd : BlockDAG) (h : N) : option BlockNode := bcIndex bd !! h.

(** A use of [bd.GetBlock(h)] that dereferences the result. *)
Definition derefBlock (bd : BlockDAG) (h : N) : res BlockNode :=
  match GetBlock bd h with
  | Some b => Ok b
  | None => Fail NilDeref
  end.

Definition derefSet (s : option (gset N)) : res (gset N) :=
  match s with
  | Some x => Ok x
  | None => Fail NilDeref
  end.

(** Go's [uint64] addition. *)
Definition addU64 (a b : N) : N := (a + b) mod 2 ^ 64.

(** *** The block set

    [BlockSet] is defined in a file of the repository that is not part of the
    sources at hand. *)

(** Modelled from the spec: [BlockSet.HasOnly] is missing. The set holds
    the element and nothing else. *)
Definition HasOnly (s : gset N) (h : N) : bool := bool_decide (s = {[h]}).

(** Modelled from the spec: [BlockSet.Contain] is missing. [contains(other)]:
    every element of [other] is in the set. *)
Definition Contain (s other : gset N) : bool := bool_decide (other ⊆ s).

(** Modelled from the spec: [BlockSet.IsEqual] is missing. *)
Definition IsEqual (s other : gset N) : bool := bool_decide (s = other).

(** Modelled from the spec: [BlockSet.Has] is missing. *)
Definition Has (s : gset N) (h : N) : bool := bool_decide (h ∈ s).

(** Modelled from the spec: [BlockSet.Intersection] is missing; a [nil]
    argument gives the empty set. *)
Definition Intersection (s : gset N) (other : option (gset N)) : gset N :=
  match other with
  | Some o => s ∩ o
  | None => ∅
  end.

(** Modelled from the spec: [BlockSet.Exclude] is missing; set difference,
    a [nil] argument removes nothing. *)
Definition Exclude (s : gset N) (other : option (gset N)) : gset N :=
  match other with
  | Some o => s ∖ o
  | None => s
  end.

(** Membership in a set that may be [nil], as in [exclude != nil &&
    exclude.Has(h)]. *)
Definition hasOpt (s : option (gset N)) (h : N) : bool :=
  match s with
  | Some x => Has x h
  | None => false
  end.

(** *** The deterministic sort *)

Record SortBlock := mkSortBlock { sbH : N; sbPastSetNum : N }.

(** [SortBlocks.Less]: by past-set size, then by hash string. *)
Definition sbLess (a b : SortBlock) : bool :=
  if sbPastSetNum a =? sbPastSetNum b then sbH a <? sbH b
  else sbPastSetNum a <? sbPastSetNum b.

Fixpoint sbInsert (x : SortBlock) (l : list SortBlock) : list SortBlock :=
  match l with
  | [] => [x]
  | y :: rest => if sbLess x y then x :: y :: rest else y :: sbInsert x rest
  end.

(** [sort.Sort] on [SortBlocks]; the keys of a block set are distinct, so
    the sorted sequence is unique. *)
Definition sortBlocks (l : list SortBlock) : list SortBlock := foldr sbInsert [] l.

(** ** The engine, for a given order of map iteration *)

Section Engine.

(** Go does not fix the order in which [range] visits a map. [iter s] is the
    order in which the elements of the block set [s] are visited. *)
Variable iter : gset N -> list N.

(** Modelled from the spec: the block index ([bc.index.AddNode]) is missing.
    Insertion rejects an id that is already present and a block one of whose
    parents is not present; it adds the id to the children of each parent. *)
Definition AddNode (idx : gmap N BlockNode) (b : BlockNode) : res (gmap N BlockNode) :=
  if bool_decide (GetHash b ∈ dom idx) then Fail DuplicateBlock
  else if negb (bool_decide (GetParents b ⊆ dom idx)) then Fail MissingParents
  else
    Ok (<[GetHash b := b]>
          (foldr (λ p m, alter (addChild (GetHash b)) p m) idx (iter (GetParents b)))).

(** [updateTips]. *)
Definition updateTips (bd : BlockDAG) (b : BlockNode) : BlockDAG :=
  match tips bd with
  | None => setGenesis (GetHash b) (setTips (Some {[GetHash b]}) bd)
  | Some t =>
      let isBelong := Has t (GetHash b) in
      let t' :=
        foldl (λ (acc : gset N) k,
                 match GetBlock bd k with
                 | None => acc
                 | Some node =>
                     if negb (bool_decide (GetChildren node = ∅))
                     then acc ∖ {[k]} else acc
                 end) t (iter t) in
      setTips (Some (if isBelong then t' else t' ∪ {[GetHash b]})) bd
  end.

(** [isVirtualTip]. *)
Definition isVirtualTip (b : N) (futureSet anticone children : gset N) : bool :=
  forallb (λ k, negb (k =? b) && (Has futureSet k || Has anticone k))
    (iter children).

(** [GetFutureSet], with fuel for the recursion. *)
Fixpoint GetFutureSet (fuel : nat) (bd : BlockDAG) (fs : gset N) (b : BlockNode)
    : res (gset N) :=
  match fuel with
  | O => Fail OutOfFuel
  | S fuel =>
      foldM (λ fs k,
               if Has fs k then Ok fs
               else node ← derefBlock bd k;
                    GetFutureSet fuel bd (fs ∪ {[k]}) node)
        fs (iter (GetChildren b))
  end.

(** [recAnticone], with fuel for the recursion. *)
Fixpoint recAnticone (fuel : nat) (bd : BlockDAG) (b : N) (futureSet : gset N)
    (anticone : gset N) (h : N) : res (gset N) :=
  match fuel with
  | O => Fail OutOfFuel
  | S fuel =>
      if h =? b then Ok anticone
      else
        node ← derefBlock bd h;
        let children := GetChildren node in
        let needRecursion :=
          if bool_decide (children = ∅) then true
          else isVirtualTip b futureSet anticone children in
        if needRecursion then
          let anticone := if Has futureSet h then anticone else anticone ∪ {[h]} in
          foldM (recAnticone fuel bd b futureSet) anticone (iter (GetParents node))
        else Ok anticone
  end.

(** [GetAnticone]. *)
Definition GetAnticone (fuel : nat) (bd : BlockDAG) (b : BlockNode)
    (exclude : option (gset N)) : res (gset N) :=
  futureSet ← GetFutureSet fuel bd ∅ b;
  t ← derefSet (tips bd);
  anticone ← foldM (recAnticone fuel bd (GetHash b) futureSet) ∅ (iter t);
  Ok (Exclude anticone exclude).

(** [calculatePastBlockSetNum]: the new past-set size of [b], or [None] when
    the function returns without setting it. *)
Definition calculatePastBlockSetNum (fuel : nat) (bd : BlockDAG) (b : BlockNode)
    : res (option N) :=
  if GetHash b =? genesis bd then Ok (Some 0)
  else
    let parents := GetParents b in
    if bool_decide (parents = ∅) then Ok None
    else
      parentsList ← foldM (λ acc k, node ← derefBlock bd k; Ok (acc ++ [node]))
                      [] (iter parents);
      match parentsList with
      | [] => Fail IndexOutOfRange
      | [p] => Ok (Some (addU64 (GetPastSetNum p) 1))
      | p :: _ =>
          anticone ← GetAnticone fuel bd b None;
          anOther ← GetAnticone fuel bd p (Some anticone);
          Ok (Some (addU64 (addU64 (GetPastSetNum p) (N.of_nat (size anOther))) 1))
      end.

(** [sortBlockSet]. *)
Definition sortBlockSet (bd : BlockDAG) (set : gset N) (bs : option (gset N))
    : res (list SortBlock) :=
  sb ← foldM (λ (acc : list SortBlock * list SortBlock) k,
                node ← derefBlock bd k;
                if hasOpt bs k
                then Ok (acc.1 ++ [mkSortBlock k (GetPastSetNum node)], acc.2)
                else Ok (acc.1, acc.2 ++ [mkSortBlock k (GetPastSetNum node)]))
          ([], []) (iter set);
  Ok (sortBlocks sb.1 ++ sortBlocks sb.2).

(** [getPastSetByOrder], with fuel for the recursion. *)
Fixpoint getPastSetByOrder (fuel : nat) (bd : BlockDAG) (pastSet exclude : gset N)
    (h : N) : res (gset N) :=
  match fuel with
  | O => Fail OutOfFuel
  | S fuel =>
      if Has exclude h || Has pastSet h then Ok pastSet
      else if h =? genesis bd then Ok pastSet
      else
        node ← derefBlock bd h;
        foldM (λ ps v, getPastSetByOrder fuel bd (ps ∪ {[v]}) exclude v)
          pastSet (iter (GetParents node))
  end.

(** The pair [tempOrder], [tempOrderM] that [GetTempOrder] extends. *)
Definition OrderAcc : Type := list N * gset N.

(** [GetTempOrder]. [fuel] bounds the recursion of the walk itself, [gas] is
    the fuel handed to the graph queries it makes. *)
Fixpoint GetTempOrder (fuel gas : nat) (bd : BlockDAG) (acc : OrderAcc)
    (bs : gset N) (h : N) (exclude : option (gset N)) : res OrderAcc :=
  match fuel with
  | O => Fail OutOfFuel
  | S fuel =>
      (* 1. a block of the exclude set is skipped *)
      if hasOpt exclude h then Ok acc
      else
        node ← derefBlock bd h;
        (* 2. return unless every parent is sorted or excluded *)
        if existsb (λ k, negb (hasOpt exclude k) && negb (Has acc.2 k))
             (iter (GetParents node))
        then Ok acc
        else
          (* 3. the blue uncles that come first *)
          r ← (if negb (Has acc.2 h) && negb (genesis bd =? h)
                  && negb (Has (lastCommonBlocks bd) h)
               then
                 anticone ← GetAnticone gas bd node exclude;
                 if bool_decide (anticone = ∅) then Ok (acc, Some anticone)
                 else
                   ansb ← sortBlockSet bd anticone (Some bs);
                   acc ← foldM
                     (λ (acc : OrderAcc) av,
                        if Has bs h then
                          avNode ← derefBlock bd (sbH av);
                          if Has bs (sbH av)
                             && (GetPastSetNum avNode <? GetPastSetNum node)
                             && negb (Has acc.2 (sbH av))
                          then GetTempOrder fuel gas bd acc bs (sbH av) exclude
                          else Ok acc
                        else
                          if Has bs (sbH av) && negb (Has acc.2 (sbH av))
                          then GetTempOrder fuel gas bd acc bs (sbH av) exclude
                          else Ok acc)
                     acc ansb;
                   Ok (acc, Some anticone)
               else Ok (acc, None));
          let anticone : option (gset N) := r.2 in
          let acc : OrderAcc := r.1 in
          (* 4. the block itself *)
          let acc : OrderAcc :=
            if Has acc.2 h then acc else (acc.1 ++ [h], acc.2 ∪ {[h]}) in
          (* 5. the children, blue ones first *)
          let children := Exclude (GetChildren node) exclude in
          if bool_decide (children = ∅) then Ok acc
          else
            sb ← sortBlockSet bd children (Some bs);
            acc ← foldM
              (λ (acc : OrderAcc) v,
                 if Has bs (sbH v) then
                   acc ← (if negb (Has acc.2 (sbH v)) then
                            let excludeT :=
                              match exclude with
                              | Some e => acc.2 ∪ e
                              | None => acc.2
                              end in
                            pastSet ← getPastSetByOrder gas bd ∅ excludeT (sbH v);
                            let inbs := Intersection pastSet anticone in
                            if negb (bool_decide (inbs = ∅)) then
                              insb ← sortBlockSet bd inbs (Some bs);
                              ar ← foldM
                                (λ (ar : OrderAcc * gset N) v0,
                                   if Has bs (sbH v0) then
                                     if negb (Has ar.1.2 (sbH v0)) then
                                       acc' ← GetTempOrder fuel gas bd ar.1 bs
                                                (sbH v0) exclude;
                                       Ok (acc', ar.2)
                                     else Ok ar
                                   else Ok (ar.1, ar.2 ∪ {[sbH v0]}))
                                (acc, ∅) insb;
                              let acc : OrderAcc := ar.1 in
                              let redSet : gset N := ar.2 in
                              if negb (bool_decide (redSet = ∅)) then
                                let pastSet := pastSet ∖ redSet in
                                if forallb (λ k, Has acc.2 k) (iter pastSet) then
                                  redsb ← sortBlockSet bd redSet (Some bs);
                                  foldM (λ (acc : OrderAcc) v1,
                                           GetTempOrder fuel gas bd acc bs (sbH v1)
                                             exclude)
                                    acc redsb
                                else Ok acc
                              else Ok acc
                            else Ok acc
                          else Ok acc);
                   GetTempOrder fuel gas bd acc bs (sbH v) exclude
                 else Ok acc)
              acc sb;
            foldM (λ (acc : OrderAcc) v,
                     if negb (Has bs (sbH v))
                     then GetTempOrder fuel gas bd acc bs (sbH v) exclude
                     else Ok acc)
              acc sb
  end.

(** The rollback loop of [updateCommonOrder], on the reversed order: entries
    are set to [nil] from the end up to the first one that is a current
    last-common block. [Has] dereferences its argument. *)
Fixpoint rollbackOrder (cur : gset N) (coRev : list (option N))
    : res (list (option N)) :=
  match coRev with
  | [] => Ok []
  | None :: _ => Fail NilDeref
  | Some h :: rest =>
      if Has cur h then Ok coRev
      else r ← rollbackOrder cur rest; Ok (None :: r)
  end.

(** [updateCommonOrder]. *)
Definition updateCommonOrder (fuel : nat) (bd : BlockDAG) (tip : N)
    (blueSet : option (gset N)) (isRollBack : bool) (exclude : option (gset N))
    (curLastCommonBS : gset N) (startIndex : Z) : res BlockDAG :=
  if tip =? genesis bd then Ok (setCommonOrder [] bd)
  else
    node ← derefBlock bd tip;
    let bd :=
      if HasOnly (GetParents node) (genesis bd)
         && (length (commonOrder bd) =? 0)%nat
      then setCommonOrder (commonOrder bd ++ [Some (genesis bd)]) bd
      else bd in
    if negb isRollBack then
      match blueSet with
      | None => Ok bd
      | Some bs =>
          lpsb ← sortBlockSet bd (lastCommonBlocks bd) (Some bs);
          acc ← foldM (λ (acc : OrderAcc) v,
                         GetTempOrder fuel fuel bd acc bs (sbH v) exclude)
                  (([], ∅) : OrderAcc) lpsb;
          co ← foldM
                 (λ (co : list (option N)) (ih : nat * N),
                    if Has (lastCommonBlocks bd) ih.2 then Ok co
                    else
                      let idx := (startIndex + Z.of_nat ih.1)%Z in
                      if (idx <? Z.of_nat (length co))%Z then
                        if (idx <? 0)%Z then Fail IndexOutOfRange
                        else Ok (<[Z.to_nat idx := Some ih.2]> co)
                      else Ok (co ++ [Some ih.2]))
                 (commonOrder bd) (indexFrom 0 acc.1);
          Ok (setCommonOrder co bd)
      end
    else
      co ← rollbackOrder curLastCommonBS (rev (commonOrder bd));
      Ok (setCommonOrder (rev co) bd).

(** The per-tip sets of [calLastCommonBlocks]. *)
Definition TipSets : Type := gmap N (gset N).

(** [recPastBlockSet] (called with a [nil] genealogy): the ancestor of
    largest past-set size among the ancestor sets of the tips is replaced, in
    the set of its tip, by those of its parents that the tip has not seen. *)
Definition recPastBlockSet (bd : BlockDAG) (tipsAncestors tipsGenealogy : TipSets)
    : res (TipSets * TipSets) :=
  best ← foldM
    (λ (best : option (N * N * N)) tk,
       match tipsAncestors !! tk with
       | None => Ok best
       | Some v =>
           if (size v =? 1)%nat && Has v (genesis bd) then Ok best
           else
             foldM (λ (best : option (N * N * N)) k,
                      node ← derefBlock bd k;
                      let pastNum := GetPastSetNum node in
                      match best with
                      | None => Ok (Some (k, pastNum, tk))
                      | Some (_, maxPastNum, _) =>
                          if maxPastNum <? pastNum then Ok (Some (k, pastNum, tk))
                          else Ok best
                      end)
               best (iter v)
       end)
    None (iter (dom tipsAncestors));
  match best with
  | None => Ok (tipsAncestors, tipsGenealogy)
  | Some (maxPastHash, _, tipsHash) =>
      node ← derefBlock bd maxPastHash;
      let parents := GetParents node in
      if bool_decide (parents = ∅) then Ok (tipsAncestors, tipsGenealogy)
      else
        anc ← derefSet (tipsAncestors !! tipsHash);
        gen ← derefSet (tipsGenealogy !! tipsHash);
        let r :=
          foldl (λ (ag : gset N * gset N) k,
                   if negb (Has ag.2 k) then (ag.1 ∪ {[k]}, ag.2 ∪ {[k]}) else ag)
            (anc ∖ {[maxPastHash]}, gen) (iter parents) in
        Ok (<[tipsHash := r.1]> tipsAncestors, <[tipsHash := r.2]> tipsGenealogy)
  end.

(** The [for] loop of [calLastCommonBlocks], with fuel for its iterations. *)
Fixpoint calLastCommonLoop (fuel : nat) (bd : BlockDAG) (tip : N)
    (tipsAncestors tipsGenealogy : TipSets) : res (gset N) :=
  match fuel with
  | O => Fail OutOfFuel
  | S fuel =>
      mine ← derefSet (tipsAncestors !! tip);
      let hasDifferent :=
        existsb (λ k, negb (k =? tip)
                      && negb (IsEqual mine (default ∅ (tipsAncestors !! k))))
          (iter (dom tipsAncestors)) in
      if negb hasDifferent then Ok mine
      else
        r ← recPastBlockSet bd tipsAncestors tipsGenealogy;
        calLastCommonLoop fuel bd tip r.1 r.2
  end.

(** [calLastCommonBlocks]; [None] is the [nil] result. *)
Definition calLastCommonBlocks (fuel : nat) (bd : BlockDAG) (tip : N)
    : res (option (gset N)) :=
  match tips bd with
  | None => Ok None
  | Some t =>
      let tipsList := iter t in
      if (length tipsList <=? 1)%nat then Ok None
      else
        let init : TipSets :=
          foldl (λ (m : TipSets) v, <[v := {[v]}]> m) ∅ tipsList in
        r ← calLastCommonLoop fuel bd tip init init;
        Ok (Some r)
  end.

(** The union of the future sets of the blocks of [s]. *)
Definition futureOfSet (fuel : nat) (bd : BlockDAG) (s : gset N) : res (gset N) :=
  foldM (λ fs k, node ← derefBlock bd k; GetFutureSet fuel bd fs node)
    ∅ (iter s).

(** The cache of past blue sets, block by block. *)
Definition PastBlueSets : Type := gmap N (gset N).

(** [calLastCommonBlocksPBS]. *)
Definition calLastCommonBlocksPBS (fuel : nat) (bd : BlockDAG)
    (pastBlueSet : PastBlueSets) : res PastBlueSets :=
  lastPFuture ← futureOfSet fuel bd (lastCommonBlocks bd);
  if (size (lastCommonBlocks bd) =? 1)%nat then
    match iter (lastCommonBlocks bd) with
    | [] => Fail IndexOutOfRange
    | lpbHash :: _ => Ok (<[lpbHash := ∅]> pastBlueSet)
    end
  else
    r ← foldM (λ (r : gset N * gmap N (gset N)) k,
                 node ← derefBlock bd k;
                 anti ← GetAnticone fuel bd node (Some lastPFuture);
                 Ok (r.1 ∪ anti, <[k := anti]> r.2))
          (∅, ∅) (iter (lastCommonBlocks bd));
    let lastTempBlueSet : gset N := r.1 ∩ commonBlueSet bd in
    let lpbAnti : gmap N (gset N) := r.2 in
    Ok (foldl (λ (pbs : PastBlueSets) k,
                 <[k := (lastTempBlueSet ∖ default ∅ (lpbAnti !! k)) ∖ {[k]}]> pbs)
          pastBlueSet (iter (lastCommonBlocks bd))).

(** Modelled from the spec: [GetMaxLenBlockSet] is missing. "Call the parent
    with the largest past-blue-set the selected parent; break ties
    lexicographically"; [nil] when there is no parent. *)
Definition GetMaxLenBlockSet (bsm : gmap N (gset N)) : option N :=
  foldl (λ (best : option N) k,
           match best with
           | None => Some k
           | Some r =>
               let lk := size (default ∅ (bsm !! k)) in
               let lr := size (default ∅ (bsm !! r)) in
               if (lr <? lk)%nat then Some k
               else if (lk =? lr)%nat && (k <? r) then Some k
               else Some r
           end)
    None (iter (dom bsm)).

(** [calculateBlueSet]; [None] is the [nil] result. *)
Definition calculateBlueSet (fuel : nat) (bd : BlockDAG) (parents : gset N)
    (exclude : option (gset N)) (pastBlueSet : PastBlueSets) (useCommon : bool)
    : res (option (gset N)) :=
  let parentsPBSS : gmap N (gset N) :=
    foldl (λ (m : gmap N (gset N)) k, <[k := default ∅ (pastBlueSet !! k)]> m)
      ∅ (iter parents) in
  match GetMaxLenBlockSet parentsPBSS with
  | None => Ok None
  | Some maxBluePBSHash =>
      let result := default ∅ (parentsPBSS !! maxBluePBSHash) ∪ {[maxBluePBSHash]} in
      if (size parents =? 1)%nat then Ok (Some result)
      else
        maxNode ← derefBlock bd maxBluePBSHash;
        maxBlueAnBS ← GetAnticone fuel bd maxNode exclude;
        result ← foldM
          (λ (result : gset N) k,
             node ← derefBlock bd k;
             bAnBS ← GetAnticone fuel bd node exclude;
             if bool_decide (bAnBS = ∅) then Ok result
             else
               let inBS := result ∩ bAnBS in
               let inBS :=
                 if useCommon then inBS ∪ (commonBlueSet bd ∩ bAnBS) else inBS in
               if (Z.of_nat (size inBS) <=? anticoneSize bd)%Z
               then Ok (result ∪ {[k]}) else Ok result)
          result (iter maxBlueAnBS);
        Ok (Some result)
  end.

(** [calculatePastBlueSet], with fuel for the recursion; [gas] is the fuel of
    the graph queries. *)
Fixpoint calculatePastBlueSet (fuel gas : nat) (bd : BlockDAG) (h : N)
    (pastBlueSet : PastBlueSets) (useCommon : bool) : res PastBlueSets :=
  match fuel with
  | O => Fail OutOfFuel
  | S fuel =>
      match pastBlueSet !! h with
      | Some _ => Ok pastBlueSet
      | None =>
          if h =? genesis bd then Ok (<[h := ∅]> pastBlueSet)
          else
            node ← derefBlock bd h;
            let parents := GetParents node in
            if bool_decide (parents = ∅) then Ok pastBlueSet
            else if HasOnly parents (genesis bd)
            then Ok (<[h := {[genesis bd]}]> pastBlueSet)
            else
              pbs ← foldM (λ pbs k, calculatePastBlueSet fuel gas bd k pbs useCommon)
                      pastBlueSet (iter parents);
              anticone ← GetAnticone gas bd node None;
              blue ← calculateBlueSet gas bd parents (Some anticone) pbs useCommon;
              blue ← derefSet blue;
              Ok (<[h := blue]> pbs)
      end
  end.

(** [updateCommonBlueSet]. *)
Definition updateCommonBlueSet (fuel : nat) (bd : BlockDAG) (tip : N) : res BlockDAG :=
  if tip =? genesis bd then
    updateCommonOrder fuel (setLastCommonBlocks ∅ (setCommonBlueSet ∅ bd))
      tip None false None ∅ 0
  else
    node ← derefBlock bd tip;
    let parents := GetParents node in
    if HasOnly parents (genesis bd) then
      updateCommonOrder fuel
        (setLastCommonBlocks {[genesis bd]} (setCommonBlueSet {[genesis bd]} bd))
        tip None false None ∅ 0
    else
      t ← derefSet (tips bd);
      if (size t <=? 1)%nat then Ok bd
      else
        cur ← calLastCommonBlocks fuel bd tip;
        curLastCommonBS ← derefSet cur;
        if IsEqual curLastCommonBS (lastCommonBlocks bd) then Ok bd
        else
          curLPFuture ← futureOfSet fuel bd curLastCommonBS;
          lastPFuture ← futureOfSet fuel bd (lastCommonBlocks bd);
          if Contain lastPFuture curLPFuture then
            oExclude ← foldM (λ (ex : gset N) k,
                                n ← derefBlock bd k; Ok (ex ∪ GetParents n))
                         curLPFuture (iter (lastCommonBlocks bd));
            pbs ← calLastCommonBlocksPBS fuel bd ∅;
            pbs ← foldM (λ pbs k, calculatePastBlueSet fuel fuel bd k pbs false)
                    pbs (iter curLastCommonBS);
            blue ← calculateBlueSet fuel bd curLastCommonBS (Some curLPFuture) pbs false;
            bd ← updateCommonOrder fuel bd tip blue false (Some oExclude)
                   curLastCommonBS
                   (Z.of_N (totalBlocks bd) - Z.of_nat (size lastPFuture))%Z;
            Ok (setLastCommonBlocks curLastCommonBS
                  (setCommonBlueSet (commonBlueSet bd ∪ default ∅ blue) bd))
          else if Contain curLPFuture lastPFuture then
            bd ← updateCommonOrder fuel bd tip None true None curLastCommonBS
                   (Z.of_N (totalBlocks bd) - Z.of_nat (size curLPFuture))%Z;
            Ok (setLastCommonBlocks curLastCommonBS
                  (setCommonBlueSet (commonBlueSet bd ∖ curLPFuture) bd))
          else Ok bd.

(** [GetTempBlueSet]. *)
Definition GetTempBlueSet (fuel : nat) (bd : BlockDAG) : res (option (gset N)) :=
  t ← derefSet (tips bd);
  if HasOnly t (genesis bd) then Ok (Some {[genesis bd]})
  else
    pbs ← calLastCommonBlocksPBS fuel bd ∅;
    pbs ← foldM (λ pbs k, calculatePastBlueSet fuel fuel bd k pbs false) pbs (iter t);
    calculateBlueSet fuel bd t None pbs false.

(** [getTempBS]: the temporary blue set, computed when it is invalid. *)
Definition getTempBS (fuel : nat) (bd : BlockDAG) : res (BlockDAG * option (gset N)) :=
  match tempBlueSet bd with
  | Some s => Ok (bd, Some s)
  | None =>
      s ← GetTempBlueSet fuel bd;
      Ok (setTempBlueSet s bd, s)
  end.

(** [recCalHourglass]. The Go code keeps [&k], the address of the range
    variable, which all iterations of a loop share: after the loop
    [maxPastHash] designates the key that was visited last. *)
Definition recCalHourglass (bd : BlockDAG) (genealogy ancestors : gset N)
    : res (gset N * gset N) :=
  _ ← foldM (λ (u : unit) k, _ ← derefBlock bd k; Ok u) () (iter ancestors);
  match last (iter ancestors) with
  | None => Ok (genealogy, ancestors)
  | Some maxPastHash =>
      node ← derefBlock bd maxPastHash;
      let parents := GetParents node in
      if bool_decide (parents = ∅) then Ok (genealogy, ancestors)
      else
        Ok (foldl (λ (ga : gset N * gset N) k,
                     if negb (Has ga.1 k) then (ga.1 ∪ {[k]}, ga.2 ∪ {[k]}) else ga)
              (genealogy, ancestors ∖ {[maxPastHash]}) (iter parents))
  end.

(** The scan of the sorted candidates in [updateHourglass]: the first one
    whose anticone has no blue block. *)
Fixpoint findHourglass (fuel : nat) (bd : BlockDAG) (tempBs : gset N)
    (sb : list SortBlock) : res (option N) :=
  match sb with
  | [] => Ok None
  | v :: rest =>
      node ← derefBlock bd (sbH v);
      anti ← GetAnticone fuel bd node None;
      if (size anti =? 0)%nat then Ok (Some (sbH v))
      else
        if (size ((tempBs ∩ anti) ∪ (commonBlueSet bd ∩ anti)) =? 0)%nat
        then Ok (Some (sbH v))
        else findHourglass fuel bd tempBs rest
  end.

(** The [for] loop of [updateHourglass], with fuel for its iterations. *)
Fixpoint hourglassLoop (fuel gas : nat) (bd : BlockDAG) (tempBs : gset N)
    (hourglass genealogy ancestors : gset N) : res (gset N) :=
  match fuel with
  | O => Fail OutOfFuel
  | S fuel =>
      ga ← recCalHourglass bd genealogy ancestors;
      let genealogy := ga.1 in
      let ancestors := (tempBs ∩ ga.2) ∪ (commonBlueSet bd ∩ ga.2) in
      if bool_decide (ancestors = ∅) || HasOnly ancestors (genesis bd)
      then Ok {[genesis bd]}
      else
        sb ← sortBlockSet bd ancestors None;
        found ← findHourglass gas bd tempBs sb;
        match found with
        | Some v => Ok ((hourglass ∖ genealogy) ∪ {[v]})
        | None => hourglassLoop fuel gas bd tempBs hourglass genealogy ancestors
        end
  end.

(** [updateHourglass]. *)
Definition updateHourglass (fuel : nat) (bd : BlockDAG) : res BlockDAG :=
  match tips bd with
  | None => Ok bd
  | Some t =>
      if (size t =? 0)%nat then Ok bd
      else
        let hourglass := default ∅ (hourglassBlocks bd) in
        let bd := setHourglassBlocks (Some hourglass) bd in
        if HasOnly t (genesis bd)
        then Ok (setHourglassBlocks (Some (hourglass ∪ {[genesis bd]})) bd)
        else
          tempNum ← foldM (λ (n : nat) k,
                             node ← derefBlock bd k;
                             if HasOnly (GetParents node) (genesis bd)
                             then Ok (S n) else Ok n)
                      0%nat (iter t);
          if (tempNum =? size t)%nat then Ok bd
          else
            r ← getTempBS fuel bd;
            tempBs ← derefSet r.2;
            let bd := r.1 in
            hg ← hourglassLoop fuel fuel bd tempBs hourglass t t;
            Ok (setHourglassBlocks (Some hg) bd)
  end.

(** [GetCommonOrderNum]: one more than the position of the last entry that
    is not [nil]. *)
Fixpoint commonOrderNumRev (coRev : list (option N)) : nat :=
  match coRev with
  | [] => 0
  | None :: rest => commonOrderNumRev rest
  | Some _ :: rest => S (length rest)
  end.

Definition GetCommonOrderNum (bd : BlockDAG) : nat :=
  commonOrderNumRev (rev (commonOrder bd)).

(** The node of [h] in the index gets the height [x]. *)
Definition setNodeHeight (h : N) (x : N) (bd : BlockDAG) : BlockDAG :=
  setIndex (alter (SetHeight x) h (bcIndex bd)) bd.

(** The tail of the order that starts at [b], or the whole order when [b] is
    not in it: what the last loop of [updateOrder] pushes to the front of
    [refNodes]. *)
Fixpoint refTail (b : N) (orderRev : list N) (refNodes : list N) : list N :=
  match orderRev with
  | [] => refNodes
  | h :: rest => if h =? b then h :: refNodes else refTail b rest (h :: refNodes)
  end.

(** [updateOrder]: the new state and the list [refNodes]. *)
Definition updateOrder (fuel : nat) (bd : BlockDAG) (b : N)
    : res (BlockDAG * list N) :=
  let bd := setTempOrder (Some []) bd in
  if totalBlocks bd =? 1 then
    Ok (setNodeHeight b 0 (setTempOrder (Some [genesis bd]) bd), [genesis bd])
  else
    r ← getTempBS fuel bd;
    blueSet ← derefSet r.2;
    let bd := r.1 in
    lpsb ← sortBlockSet bd (lastCommonBlocks bd) None;
    exclude ← foldM (λ (ex : gset N) k, n ← derefBlock bd k; Ok (ex ∪ GetParents n))
                ∅ (iter (lastCommonBlocks bd));
    acc ← foldM (λ (acc : OrderAcc) v,
                   GetTempOrder fuel fuel bd acc blueSet (sbH v) (Some exclude))
            (([], ∅) : OrderAcc) lpsb;
    let pNum := GetCommonOrderNum bd in
    bt ← foldM (λ (bt : BlockDAG * list N) h,
                  if negb (Has (lastCommonBlocks bd) h) then
                    _ ← derefBlock bt.1 h;
                    Ok (setNodeHeight h (N.of_nat (pNum + length bt.2)) bt.1,
                        bt.2 ++ [h])
                  else Ok bt)
           (bd, []) acc.1;
    let bd := setTempOrder (Some bt.2) bt.1 in
    let order := bt.2 in
    t ← derefSet (tips bd);
    if HasOnly t b then
      Ok (setNodeHeight b ((totalBlocks bd - 1) mod 2 ^ 64) bd, [b])
    else
      match last order with
      | None => Fail IndexOutOfRange
      | Some l =>
          if l =? b then
            Ok (setNodeHeight b ((totalBlocks bd - 1) mod 2 ^ 64) bd, [b])
          else Ok (bd, refTail b (rev order) [])
      end.

(** [GetBlockOrder]. *)
Fixpoint blockOrderScan (h : N) (orderRev : list (option N)) (result : Z)
    : Z + Z :=
  match orderRev with
  | [] => inr result
  | None :: rest => blockOrderScan h rest result
  | Some x :: rest =>
      if h =? x then inl (result - 1)%Z
      else blockOrderScan h rest (result - 1)%Z
  end.

Definition GetBlockOrder (bd : BlockDAG) (h : N) : Z :=
  match tempOrder bd with
  | None => (-1)%Z
  | Some t =>
      match blockOrderScan h (rev (map Some t)) (Z.of_N (totalBlocks bd)) with
      | inl r => r
      | inr result =>
          match blockOrderScan h (rev (commonOrder bd)) result with
          | inl r => r
          | inr _ => (-1)%Z
          end
      end
  end.

(** [AddBlock]: the new state and the list of the blocks whose order
    changed. [b] is the block as it arrives: no children, no past-set size,
    no height. *)
Definition AddBlock (fuel : nat) (bd : BlockDAG) (b : BlockNode)
    : res (BlockDAG * list N) :=
  idx ← AddNode (bcIndex bd) b;
  let bd := setIndex idx bd in
  let bd := setTotalBlocks ((totalBlocks bd + 1) mod 2 ^ 64) bd in
  let bd := setTempBlueSet None bd in
  let bd := if (lastTime bd <? GetTimestamp b)%Z
            then setLastTime (GetTimestamp b) bd else bd in
  let bd := updateTips bd b in
  num ← calculatePastBlockSetNum fuel bd b;
  let bd :=
    match num with
    | Some n => setIndex (alter (SetPastSetNum n) (GetHash b) (bcIndex bd)) bd
    | None => bd
    end in
  bd ← updateCommonBlueSet fuel bd (GetHash b);
  bd ← updateHourglass fuel bd;
  updateOrder fuel bd (GetHash b).

End Engine.

(** ** Runs of the engine *)

(** Two orders of map iteration: by ascending and by descending hash. *)
Definition ascending (s : gset N) : list N := merge_sort N.le (elements s).

Definition descending (s : gset N) : list N := rev (ascending s).

(** A block as it arrives at [AddBlock]. *)
Definition arriving (h : N) (parents : list N) : BlockNode :=
  mkBlockNode h (list_to_set parents) ∅ 0 0 0.

(** The blocks of a list inserted one after the other. *)
Fixpoint AddBlocks (iter : gset N -> list N) (fuel : nat) (bd : BlockDAG)
    (blocks : list BlockNode) : res BlockDAG :=
  match blocks with
  | [] => Ok bd
  | b :: rest =>
      match AddBlock iter fuel bd b with
      | Ok (bd', _) => AddBlocks iter fuel bd' rest
      | Fail e => Fail e
      end
  end.

(** The total order: the entries of [commonOrder] that are not [nil],
    followed by [tempOrder]. *)
Definition totalOrder (bd : BlockDAG) : list N :=
  omap id (commonOrder bd) ++ default [] (tempOrder bd).

(** Scenario S1: the genesis [G], then [B1] on [G], then [B2] on [B1]. *)
Definition scenarioS1 (G B1 B2 : N) : list BlockNode :=
  [arriving G []; arriving B1 [G]; arriving B2 [B1]].

(** A fork on block 1 followed by a second child of the genesis. *)
Definition lateGenesisChild : list BlockNode :=
  [arriving 0 []; arriving 1 [0]; arriving 2 [1]; arriving 3 [1]; arriving 4 [0]].

(** The same five blocks, the second child of the genesis first. *)
Definition earlyGenesisChild : list BlockNode :=
  [arriving 0 []; arriving 4 [0]; arriving 1 [0]; arriving 2 [1]; arriving 3 [1]].

(** Eight blocks; the parents of every block are pairwise unrelated. *)
Definition eightBlocks : list BlockNode :=
  [arriving 0 []; arriving 1 [0]; arriving 2 [0]; arriving 3 [1];
   arriving 4 [1; 2]; arriving 5 [1; 2]; arriving 6 [3; 4]; arriving 7 [3; 5]].

(** ** Past, future and anticone by full traversal *)

(** The parents and the children of the block [h] of the index; none for a
    hash that is not in the index. *)
Definition parentsOf (bd : BlockDAG) (h : N) : gset N :=
  match GetBlock bd h with
  | Some node => GetParents node
  | None => ∅
  end.

Definition childrenOf (bd : BlockDAG) (h : N) : gset N :=
  match GetBlock bd h with
  | Some node => GetChildren node
  | None => ∅
  end.

(** The blocks reached from [h] by one to [fuel] steps of [next]. *)
Fixpoint traverse (next : N -> gset N) (fuel : nat) (h : N) : gset N :=
  match fuel with
  | O => ∅
  | S fuel => next h ∪ ⋃ (traverse next fuel <$> elements (next h))
  end.

(** [past(b)] and [future(b)]: the transitive closures of the parents and of
    the children. A path of the DAG visits a block once, so as many steps as
    the index has blocks reach everything. *)
Definition pastOf (bd : BlockDAG) (h : N) : gset N :=
  traverse (parentsOf bd) (size (bcIndex bd)) h.

Definition futureOf (bd : BlockDAG) (h : N) : gset N :=
  traverse (childrenOf bd) (size (bcIndex bd)) h.

(** [anticone(b)]: all blocks but [b], its past and its future. *)
Definition anticoneOf (bd : BlockDAG) (h : N) : gset N :=
  dom (bcIndex bd) ∖ (pastOf bd h ∪ futureOf bd h ∪ {[h]}).

(** No block of [parents] is in the past of another one. *)
Definition independent (bd : BlockDAG) (parents : gset N) : Prop :=
  set_Forall (λ p, set_Forall (λ q, p ∉ pastOf bd q) parents) parents.

#[global] Instance independent_dec bd parents : Decision (independent bd parents).
Proof. unfold independent. apply _. Defined.

(** The states of the DAG built from the empty one by insertions that
    [AddBlock] accepts, of blocks that arrive without children and without a
    past-set size and whose parents are independent. *)
Inductive reachable (iter : gset N -> list N) : BlockDAG -> Prop :=
  | reachable_new k : reachable iter (newBlockDAG k)
  | reachable_add fuel bd b bd' refNodes :
      reachable iter bd ->
      GetChildren b = ∅ ->
      GetPastSetNum b = 0 ->
      independent bd (GetParents b) ->
      AddBlock iter fuel bd b = Ok (bd', refNodes) ->
      reachable iter bd'.

(** The state in which [AddBlock] calls [calculatePastBlockSetNum]: the block
    is in the index, counted, and the tips are updated. *)
Definition entered (iter : gset N -> list N) (bd : BlockDAG) (b : BlockNode)
    : res BlockDAG :=
  idx ← AddNode iter (bcIndex bd) b;
  let bd := setIndex idx bd in
  let bd := setTotalBlocks ((totalBlocks bd + 1) mod 2 ^ 64) bd in
  let bd := setTempBlueSet None bd in
  let bd := if (lastTime bd <? GetTimestamp b)%Z
            then setLastTime (GetTimestamp b) bd else bd in
  Ok (updateTips iter bd b).

(** The blocks of a list can be inserted one after the other, and each of
    them arrives as [reachable] wants it. *)
Fixpoint arrivals (iter : gset N -> list N) (fuel : nat) (bd : BlockDAG)
    (blocks : list BlockNode) : bool :=
  match blocks with
  | [] => true
  | b :: rest =>
      bool_decide (GetChildren b = ∅) && bool_decide (GetPastSetNum b = 0)
      && bool_decide (independent bd (GetParents b))
      && match AddBlock iter fuel bd b with
         | Ok (bd', _) => arrivals iter fuel bd' rest
         | Fail _ => false
         end
  end.

(** Three blocks, the last one with a parent that is the parent of its other
    parent. *)
Definition redundantParent : list BlockNode :=
  [arriving 0 []; arriving 1 [0]; arriving 2 [0; 1]].

(** The genesis, two blocks on it, and a block on these two. *)
Definition diamond : list BlockNode :=
  [arriving 0 []; arriving 1 [0]; arriving 2 [0]; arriving 3 [1; 2]].

(** ** Predicates on the DAG

    What the statements about the graph queries and the invariant of the DAG
    are written with. *)

(** The state after scenario S1. *)
Definition S1_outcome (G B1 B2 : N) (bd : BlockDAG) : Prop :=
  tips bd = Some {[B2]}
  ∧ commonOrder bd = [Some G]
  ∧ tempOrder bd = Some [B1; B2]
  ∧ hourglassBlocks bd = Some {[G; B1]}.

(** [p] is a parent of [h]. *)
Definition parentRel (bd : BlockDAG) (p h : N) : Prop := p ∈ parentsOf bd h.

(** [x] is an ancestor of [y]: a path of parent links leads from [y] up to
    [x]. *)
Definition anc (bd : BlockDAG) : relation N := tc (parentRel bd).

(** The index is a DAG: every node is filed under its own hash, children and
    parents mirror each other, and [rank] numbers the blocks so that a parent
    comes before its children. *)
Record wfGraph (bd : BlockDAG) (rank : N -> nat) : Prop := {
  wf_hash : ∀ h node, GetBlock bd h = Some node -> GetHash node = h;
  wf_children : ∀ h c, c ∈ childrenOf bd h ↔ h ∈ parentsOf bd c;
  wf_parents : ∀ h p, p ∈ parentsOf bd h -> p ∈ dom (bcIndex bd);
  wf_rank : ∀ h p, p ∈ parentsOf bd h -> (rank p < rank h)%nat;
  wf_rank_size : ∀ h, h ∈ dom (bcIndex bd) -> (rank h < size (bcIndex bd))%nat
}.

(** What a call of [GetFutureSet] on a block with the children [cs] does to
    the set [fs]: it adds descendants only, it adds the children, and every
    block that it adds comes with its children. *)
Definition futureGrown (bd : BlockDAG) (cs : gset N) (fs fs' : gset N) : Prop :=
  fs ⊆ fs'
  ∧ (∀ x, x ∈ fs' -> x ∈ fs ∨ ∃ c, c ∈ cs ∧ (x = c ∨ anc bd c x))
  ∧ cs ⊆ fs'
  ∧ (∀ x, x ∈ fs' -> x ∉ fs -> childrenOf bd x ⊆ fs').

(** [x] is in the anticone of [b]. *)
Definition unrelated (bd : BlockDAG) (b x : N) : Prop :=
  x ∈ dom (bcIndex bd) ∧ x ≠ b ∧ ¬ anc bd x b ∧ ¬ anc bd b x.

(** The test of [recAnticone] on [x] says yes: [x] has no children, or
    [isVirtualTip] holds of them. *)
Definition ready (bd : BlockDAG) (b : N) (futureSet anticone : gset N) (x : N)
    : Prop :=
  ∀ k, k ∈ childrenOf bd x -> k ≠ b ∧ (k ∈ futureSet ∨ k ∈ anticone).

(** The blocks that the walk has still to expand, when [expanded] is the set
    of those it has expanded: a block that is ready, is a tip or has an
    expanded child, and is not expanded itself. *)
Definition pending (bd : BlockDAG) (b : N) (futureSet anticone expanded : gset N)
    (x : N) : Prop :=
  x ∈ dom (bcIndex bd) ∧ x ≠ b ∧ (x ∉ expanded)
  ∧ ready bd b futureSet anticone x
  ∧ (childrenOf bd x = ∅ ∨ ∃ c, c ∈ childrenOf bd x ∧ c ∈ expanded).

(** The sets [anticone] and [expanded] fit: the anticone holds unrelated
    blocks only, and an expanded block is in the future set or in the
    anticone. *)
Definition fits (bd : BlockDAG) (b : N) (futureSet anticone expanded : gset N)
    : Prop :=
  (∀ x, x ∈ anticone -> unrelated bd b x)
  ∧ (∀ x, x ∈ expanded -> x ∈ futureSet ∨ x ∈ anticone).

(** A call of [recAnticone] keeps the sets fitting, leaves nothing pending
    that was not, and does not leave the block it is called on pending. *)
Definition recAnticoneKeeps (iter : gset N -> list N) (bd : BlockDAG) (b : N)
    (futureSet : gset N) (fuel : nat) : Prop :=
  ∀ anticone expanded h anticone',
    recAnticone iter fuel bd b futureSet anticone h = Ok anticone' ->
    fits bd b futureSet anticone expanded ->
    ∃ expanded',
      fits bd b futureSet anticone' expanded'
      ∧ ∀ x, pending bd b futureSet anticone' expanded' x ->
             pending bd b futureSet anticone expanded x ∧ x ≠ h.

(** The tips are the blocks without children. *)
Definition tipsAre (bd : BlockDAG) (t : gset N) : Prop :=
  ∀ x, x ∈ t ↔ x ∈ dom (bcIndex bd) ∧ childrenOf bd x = ∅.

(** The tips, once there are any, are the blocks without children, and the
    genesis is in the index. *)
Definition tipsOK (bd : BlockDAG) : Prop :=
  match tips bd with
  | None => bcIndex bd = ∅
  | Some t => genesis bd ∈ dom (bcIndex bd) ∧ tipsAre bd t
  end.

(** The parents of every block are independent. *)
Definition parentsOK (bd : BlockDAG) : Prop :=
  ∀ h, independent bd (parentsOf bd h).

(** Every block carries the size of its past, as a [uint64]. *)
Definition countsOK (bd : BlockDAG) : Prop :=
  ∀ h node, GetBlock bd h = Some node ->
            GetPastSetNum node = N.of_nat (size (pastOf bd h)) mod 2 ^ 64.

(** The invariant of the graph, and the invariant of the DAG: the graph and
    the sizes. *)
Definition graphOK (bd : BlockDAG) : Prop :=
  (∃ rank, wfGraph bd rank) ∧ tipsOK bd ∧ parentsOK bd.

Definition dagOK (bd : BlockDAG) : Prop := graphOK bd ∧ countsOK bd.

(** What the graph is made of: the hash, the parents and the children of a
    block. *)
Definition shape (node : BlockNode) : N * gset N * gset N :=
  (GetHash node, GetParents node, GetChildren node).

(** Two states with the same graph, the same tips and the same genesis. *)
Definition sameShape (bd bd' : BlockDAG) : Prop :=
  genesis bd' = genesis bd ∧ tips bd' = tips bd
  ∧ ∀ h, shape <$> GetBlock bd' h = shape <$> GetBlock bd h.

(** The rank of the new block is the number of the blocks before it. *)
Definition enteredRank (bd : BlockDAG) (b : BlockNode) (rank : N -> nat) (x : N)
    : nat :=
  if decide (x = GetHash b) then size (bcIndex bd) else rank x.

(** After the past-set size is set, [AddBlock] changes, in the index, the
    heights only; it does not touch the tips or the genesis. *)
Definition keepsGraph (bd bd' : BlockDAG) : Prop :=
  genesis bd' = genesis bd ∧ tips bd' = tips bd
  ∧ SetHeight 0 <$> bcIndex bd' = SetHeight 0 <$> bcIndex bd.

(** The state in which the past-set size of the block is set. *)
Definition counted (bd1 : BlockDAG) (b : BlockNode) (num : option N) : BlockDAG :=
  match num with
  | Some n => setIndex (alter (SetPastSetNum n) (GetHash b) (bcIndex bd1)) bd1
  | None => bd1
  end.

(** ** Reading the order back *)

(** [HasBlock] and [GetBlockCount]. *)
Definition HasBlock (bd : BlockDAG) (h : N) : bool :=
  match GetBlock bd h with
  | Some _ => true
  | None => false
  end.

Definition GetBlockCount (bd : BlockDAG) : N := totalBlocks bd.

(** The loop [for i:=pLen-1;i>=0;i--] that looks for the last entry of the
    common order that is not [nil], on the reversed order. *)
Fixpoint lastOrdered (coRev : list (option N)) : option N :=
  match coRev with
  | [] => None
  | Some h :: _ => Some h
  | None :: rest => lastOrdered rest
  end.

(** [GetLastBlock]; [None] is the [nil] block. *)
Definition GetLastBlock (bd : BlockDAG) : option BlockNode :=
  match tempOrder bd with
  | None => None
  | Some t =>
      match last t with
      | Some h => GetBlock bd h
      | None =>
          match lastOrdered (rev (commonOrder bd)) with
          | Some h => GetBlock bd h
          | None => None
          end
      end
  end.

(** [GetBlockByOrder]; [Ok None] is the [nil] hash. An index out of the range
    of a slice is a panic. *)
Definition GetBlockByOrder (bd : BlockDAG) (order : Z) : res (option N) :=
  match tempOrder bd with
  | None => Ok None
  | Some t =>
      if (order <? 0)%Z then Ok None
      else
        let pNum := Z.of_nat (GetCommonOrderNum bd) in
        if (order <? pNum)%Z then
          match commonOrder bd !! Z.to_nat order with
          | Some entry => Ok entry
          | None => Fail IndexOutOfRange
          end
        else
          let rIndex := (order - pNum)%Z in
          if (rIndex <? Z.of_nat (length t))%Z then
            match t !! Z.to_nat rIndex with
            | Some h => Ok (Some h)
            | None => Fail IndexOutOfRange
            end
          else Ok None
  end.

(** The first loop of [GetPrevious], over the temp order from its end, on the
    reversed order: the hash it returns, if it returns, and else the flag
    [isEnd]. The head of the list is [tempOrder[i]], the head of the rest is
    [tempOrder[i-1]], and [i > 0] says that the rest is not empty. *)
Fixpoint previousInTemp (h : N) (tRev : list N) (isEnd : bool) : N + bool :=
  match tRev with
  | [] => inr isEnd
  | x :: rest =>
      if h =? x then
        match rest with
        | y :: _ => inl y
        | [] => previousInTemp h rest true
        end
      else previousInTemp h rest isEnd
  end.

(** The second loop of [GetPrevious], over the common order from its end. *)
Fixpoint previousInCommon (h : N) (isEnd : bool) (coRev : list (option N))
    : option N :=
  match coRev with
  | [] => None
  | None :: rest => previousInCommon h isEnd rest
  | Some x :: rest =>
      if isEnd then Some x
      else if h =? x then
        match rest with
        | y :: _ => y
        | [] => previousInCommon h isEnd rest
        end
      else previousInCommon h isEnd rest
  end.

(** [GetPrevious]; [None] is the [nil] hash. *)
Definition GetPrevious (bd : BlockDAG) (h : N) : option N :=
  match tempOrder bd with
  | None => None
  | Some t =>
      match previousInTemp h (rev t) false with
      | inl y => Some y
      | inr isEnd => previousInCommon h isEnd (rev (commonOrder bd))
      end
  end.

(** ** The states of the DAG

    The states built from the empty DAG by insertions that [AddBlock]
    accepts, of blocks that arrive without children. *)
Inductive inserted (iter : gset N -> list N) : BlockDAG -> Prop :=
  | inserted_new k : inserted iter (newBlockDAG k)
  | inserted_add fuel bd b bd' refNodes :
      inserted iter bd ->
      GetChildren b = ∅ ->
      AddBlock iter fuel bd b = Ok (bd', refNodes) ->
      inserted iter bd'.

(** The blocks of a list arrive without children and can be inserted one
    after the other. *)
Fixpoint insertions (iter : gset N -> list N) (fuel : nat) (bd : BlockDAG)
    (blocks : list BlockNode) : bool :=
  match blocks with
  | [] => true
  | b :: rest =>
      bool_decide (GetChildren b = ∅)
      && match AddBlock iter fuel bd b with
         | Ok (bd', _) => insertions iter fuel bd' rest
         | Fail _ => false
         end
  end.

(** The index is a DAG and the tips are right. *)
Definition shapeOK (bd : BlockDAG) : Prop :=
  (∃ rank, wfGraph bd rank) ∧ tipsOK bd.

(** The genesis is a block without parents whose past-set size is 0. *)
Definition genesisOK (bd : BlockDAG) : Prop :=
  bcIndex bd ≠ ∅ ->
  ∃ node, GetBlock bd (genesis bd) = Some node
          ∧ GetParents node = ∅ ∧ GetPastSetNum node = 0.

(** [totalBlocks] counts the blocks of the index, as a [uint64]. *)
Definition totalOK (bd : BlockDAG) : Prop :=
  totalBlocks bd = N.of_nat (size (bcIndex bd)) mod 2 ^ 64.

(** Two states with the same number of blocks, the same last time and the
    same anticone size. *)
Definition sameTotals (bd bd' : BlockDAG) : Prop :=
  totalBlocks bd' = totalBlocks bd ∧ lastTime bd' = lastTime bd
  ∧ anticoneSize bd' = anticoneSize bd.

(** The state after the blocks of a list are inserted into the empty DAG
    with anticone size 3; the empty DAG when an insertion fails. *)
Definition built (iter : gset N -> list N) (blocks : list BlockNode) : BlockDAG :=
  match AddBlocks iter 10 (newBlockDAG 3) blocks with
  | Ok bd => bd
  | Fail _ => newBlockDAG 3
  end.

(** The diamond, its blocks visited by ascending hash. *)
Definition diamondDAG : BlockDAG := built ascending diamond.

(** ** The sort of a block set *)

(** [a] is [b] or comes before it in the order of [SortBlocks.Less]. *)
Definition sbLe (a b : SortBlock) : Prop := sbLess a b = true ∨ a = b.

(** The record that [sortBlockSet] makes of the block [k]. *)
Definition sortKey (bd : BlockDAG) (k : N) : SortBlock :=
  mkSortBlock k (default 0 (GetPastSetNum <$> GetBlock bd k)).

(** The chain of scenario S1 with the hashes 0, 1 and 2. *)
Definition chainDAG : BlockDAG := built ascending (scenarioS1 0 1 2).

(* ===================================================================== *)
(** * More of the UTXO viewpoint *)
(* ===================================================================== *)

(** ** Loading a view for a transaction *)

Section StoreMore.

Variable IsCoinBaseTx : Transaction -> bool.
Variable deserializeUtxoEntry : bytes -> Error + UtxoEntry.
Variable isDeserializeErr : Error -> bool.

(** The order in which [range] visits the keys of a set of hashes. *)
Variable iter : gset N -> list N.

(** [fetchUtxoEntry] and [FetchUtxoEntry], which takes the chain lock
    around it: the entry of the store, [nil] with the error. *)
Definition fetchUtxoEntry (utxoBucket : gmap N bytes) (h : N)
    : Error + option UtxoEntry :=
  match dbFetchUtxoEntry deserializeUtxoEntry isDeserializeErr utxoBucket h with
  | inl err => inl err
  | inr entry => inr entry
  end.

Definition FetchUtxoEntry (utxoBucket : gmap N bytes) (h : N)
    : Error + option UtxoEntry :=
  fetchUtxoEntry utxoBucket h.

(** [fetchUtxos]; [txSet] lists the requested hashes in the order in which
    the Go map yields them, and [txNeededSet] is a map of its own. *)
Definition fetchUtxos (view : UtxoViewpoint) (utxoBucket : gmap N bytes)
    (txSet : list N) : UtxoViewpoint * option Error :=
  if (length txSet =? 0)%nat then (view, None)
  else
    let txNeededSet :=
      foldl (λ (s : gset N) h,
               match entries view !! h with
               | Some _ => s
               | None => s ∪ {[h]}
               end) ∅ txSet in
    fetchUtxosMain deserializeUtxoEntry isDeserializeErr view utxoBucket
      (iter txNeededSet).

(** [FetchUtxoView], without the chain lock: the view is returned together
    with the error. *)
Definition FetchUtxoView (utxoBucket : gmap N bytes) (tx : Tx)
    : UtxoViewpoint * option Error :=
  let view := NewUtxoViewpoint in
  let txNeededSet : gset N := {[txHash tx]} in
  let txNeededSet :=
    if negb (IsCoinBaseTx (msgTx tx))
    then foldl (λ (s : gset N) txIn, s ∪ {[opHash (PreviousOut txIn)]})
           txNeededSet (TxIn (msgTx tx))
    else txNeededSet in
  fetchUtxosMain deserializeUtxoEntry isDeserializeErr view utxoBucket
    (iter txNeededSet).

End StoreMore.

(** ** Disconnecting a slice of transactions *)

(** The error of [disconnectTransactionSlice]: the assertion "passed pointer
    to non-existing stxos slice". *)
Inductive SliceError := ErrNoJournal.

Section Slice.

Variable IsCoinBaseTx : Transaction -> bool.
Variable DetermineTxType : Transaction -> TxType.

(** The inner loop of [disconnectTransactionSlice]: the inputs of a
    transaction, last input first; [stxoIdx] walks the journal down from its
    end. An index out of the range of the journal is a panic. *)
Fixpoint sliceInputs (view : UtxoViewpoint) (insRev : list TxInput)
    (stxos : list SpentTxOut) (stxoIdx : Z) : res (UtxoViewpoint * Z) :=
  match insRev with
  | [] => Ok (view, stxoIdx)
  | txIn :: rest =>
      if (stxoIdx <? 0)%Z then Fail IndexOutOfRange
      else
        match stxos !! Z.to_nat stxoIdx with
        | None => Fail IndexOutOfRange
        | Some stxo =>
            let stxoIdx := (stxoIdx - 1)%Z in
            let originHash := opHash (PreviousOut txIn) in
            let originInIndex := OutIndex (PreviousOut txIn) in
            let entry :=
              match entryAt view originHash with
              | Some entry => entry
              | None =>
                  newUtxoEntry (stxoTxVersion stxo) (stxoOrder stxo)
                    (stxoTxIndex stxo) (stxoIsCoinBase stxo)
                    (stxoHasExpiry stxo) (stxoTxType stxo)
              end in
            let entry := setModified true entry in
            let entry :=
              match sparseOutputs entry !! originInIndex with
              | None =>
                  setOutputs
                    (<[originInIndex :=
                         mkUtxoOutput (stxoScriptVersion stxo) (stxoPkScript stxo)
                           (AmountIn txIn) false]> (sparseOutputs entry)) entry
              | Some output =>
                  setOutputs
                    (<[originInIndex := setSpent false output]>
                       (sparseOutputs entry)) entry
              end in
            sliceInputs (setEntry originHash entry view) rest stxos stxoIdx
        end
  end.

(** The outer loop: the transactions, last transaction first. *)
Fixpoint sliceTxs (view : UtxoViewpoint) (height : Z) (txsRev : list (nat * Tx))
    (stxos : list SpentTxOut) (stxoIdx : Z) : res (UtxoViewpoint * Z) :=
  match txsRev with
  | [] => Ok (view, stxoIdx)
  | (txIdx, tx) :: rest =>
      let isCoinbase := (txIdx =? 0)%nat in
      let entry :=
        match entryAt view (txHash tx) with
        | None =>
            newUtxoEntry (Version (msgTx tx)) (uint32 height)
              (uint32 (Z.of_nat txIdx)) (IsCoinBaseTx (msgTx tx))
              (negb (Expire (msgTx tx) =? 0)) (DetermineTxType (msgTx tx))
        | Some entry => entry
        end in
      let entry := setOutputs ∅ (setModified true entry) in
      let view := setEntry (txHash tx) entry view in
      if isCoinbase then sliceTxs view height rest stxos stxoIdx
      else
        r ← sliceInputs view (rev (TxIn (msgTx tx))) stxos stxoIdx;
        sliceTxs r.1 height rest stxos r.2
  end.

(** [disconnectTransactionSlice]: the view, the number it returns and the
    error; [stxosPtr] is [None] for a [nil] pointer. *)
Definition disconnectTransactionSlice (view : UtxoViewpoint)
    (transactions : list Tx) (height : Z) (stxosPtr : option (list SpentTxOut))
    : res (UtxoViewpoint * Z * option SliceError) :=
  match stxosPtr with
  | None => Ok (view, 0%Z, Some ErrNoJournal)
  | Some stxos =>
      let stxoIdx := (Z.of_nat (length stxos) - 1)%Z in
      if (stxoIdx =? -1)%Z then Ok (view, 0%Z, None)
      else
        r ← sliceTxs view height (rev (indexFrom 0 transactions)) stxos stxoIdx;
        Ok (r.1, (r.2 + 1)%Z, None)
  end.

End Slice.

(** The inputs of the transactions after the first one. *)
Definition spentInputs (transactions : list Tx) : nat :=
  length (concat ((λ tx, TxIn (msgTx tx)) <$> tail transactions)).

(** ** Loading the inputs of a block and connecting its parent *)

Section Chain.

Variable IsUnspendable : N -> bytes -> bool.
Variable IsCoinBaseTx : Transaction -> bool.
Variable DetermineTxType : Transaction -> TxType.
Variable deserializeUtxoEntry : bytes -> Error + UtxoEntry.
Variable isDeserializeErr : Error -> bool.
Variable iter : gset N -> list N.

(** The record of the bad transactions that the chain keeps, with
    [bc.IsBadTx] and [bc.AddBadTx]; they are defined with the chain. *)
Variable BadTxs : Type.
Variable IsBadTx : BadTxs -> N -> bool.
Variable AddBadTx : BadTxs -> N -> N -> BadTxs.

(** The view, the bad transactions and [txNeededSet]. *)
Definition InputState : Type := UtxoViewpoint * BadTxs * gset N.

(** The map [txInFlight]: the position of each transaction hash in the
    block, the last one for a hash that occurs more than once. *)
Definition inFlight (transactions : list Tx) : gmap N nat :=
  foldl (λ (m : gmap N nat) (itx : nat * Tx), <[txHash itx.2 := itx.1]> m) ∅
    (indexFrom 0 transactions).

(** The loop of [fetchInputUtxos] over the inputs of the transaction [tx],
    which is at position [i] of [transactions[1:]]. A bad origin ends the
    loop. *)
Fixpoint inputsOfTx (block : SerializedBlock) (i : nat) (tx : Tx)
    (ins : list TxInput) (st : InputState) : res InputState :=
  match ins with
  | [] => Ok st
  | txIn :: rest =>
      let originHash := opHash (PreviousOut txIn) in
      if IsBadTx st.1.2 originHash
      then Ok (st.1.1, AddBadTx st.1.2 (txHash tx) (blockHash block), st.2)
      else
        let needed :=
          match entries st.1.1 !! originHash with
          | Some _ => inputsOfTx block i tx rest st
          | None => inputsOfTx block i tx rest (st.1, st.2 ∪ {[originHash]})
          end in
        match inFlight (blockTransactions block) !! originHash with
        | Some inFlightIndex =>
            if (inFlightIndex <=? i)%nat then
              match blockTransactions block !! inFlightIndex with
              | None => Fail IndexOutOfRange
              | Some originTx =>
                  inputsOfTx block i tx rest
                    (AddTxOuts IsUnspendable IsCoinBaseTx DetermineTxType st.1.1
                       originTx (int64 (blockOrder block))
                       (uint32 (Z.of_nat (i + 1))),
                     st.1.2, st.2)
              end
            else needed
        | None => needed
        end
  end.

(** The loop over [transactions[1:]]. *)
Definition inputsOfTxs (block : SerializedBlock) (txs : list (nat * Tx))
    (st : InputState) : res InputState :=
  foldM (λ (st : InputState) (itx : nat * Tx),
           if IsBadTx st.1.2 (txHash itx.2) then Ok st
           else inputsOfTx block itx.1 itx.2 (TxIn (msgTx itx.2)) st)
    st txs.

(** [fetchInputUtxos]: the view, the bad transactions and the error. The
    slice [transactions[1:]] of a block without transactions is a panic. *)
Definition fetchInputUtxos (view : UtxoViewpoint) (utxoBucket : gmap N bytes)
    (block : SerializedBlock) (bc : BadTxs)
    : res (UtxoViewpoint * BadTxs * option Error) :=
  match blockTransactions block with
  | [] => Fail IndexOutOfRange
  | _ :: rest =>
      st ← inputsOfTxs block (indexFrom 0 rest) (view, bc, ∅);
      let r := fetchUtxosMain deserializeUtxoEntry isDeserializeErr st.1.1
                 utxoBucket (iter st.2) in
      Ok (r.1, st.1.2, r.2)
  end.

(** [connectTransactions]: the view, the bad transactions, the journal and
    the error; [parent] is [None] for a [nil] block. *)
Definition connectTransactions (view : UtxoViewpoint) (utxoBucket : gmap N bytes)
    (bc : BadTxs) (block : SerializedBlock) (parent : option SerializedBlock)
    (stxos : option (list SpentTxOut))
    : res (UtxoViewpoint * BadTxs * option (list SpentTxOut) * option Error) :=
  r ← match parent with
      | Some p =>
          if negb (blockOrder block =? 0) then
            f ← fetchInputUtxos view utxoBucket block bc;
            match f.2 with
            | Some err => Ok (f.1.1, f.1.2, stxos, Some err)
            | None =>
                let c := connectTxs IsUnspendable IsCoinBaseTx DetermineTxType
                           f.1.1 (blockOrder p) (blockTransactions p) 0 stxos in
                Ok (c.1.1, f.1.2, c.1.2, c.2)
            end
          else Ok (view, bc, stxos, None)
      | None => Ok (view, bc, stxos, None)
      end;
  match r.2 with
  | Some err => Ok r
  | None =>
      f ← fetchInputUtxos r.1.1.1 utxoBucket block r.1.1.2;
      match f.2 with
      | Some err => Ok (f.1.1, f.1.2, r.1.2, Some err)
      | None => Ok (SetBestHash f.1.1 (blockHash block), f.1.2, r.1.2, None)
      end
  end.

End Chain.

(** ** Predicates on the outputs of a transaction *)

(** The last output of [outs], counted from position [txOutIdx], that is
    spendable and is filed under the key [k]. *)
Fixpoint lastOutput (IsUnspendable : N -> bytes -> bool) (outs : list TxOutput)
    (txOutIdx : nat) (k : N) : option TxOutput :=
  match outs with
  | [] => None
  | txOut :: rest =>
      match lastOutput IsUnspendable rest (S txOutIdx) k with
      | Some o => Some o
      | None =>
          if negb (IsUnspendable (Amount txOut) (PkScript txOut))
             && bool_decide (uint32 (Z.of_nat txOutIdx) = k)
          then Some txOut else None
      end
  end.

(** A view none of whose keys is bound to [nil] for the inputs [ins]. *)
Definition inputsHeld (view : UtxoViewpoint) (ins : list TxInput) : Prop :=
  Forall (λ txIn, entryAt view (opHash (PreviousOut txIn)) ≠ None) ins.

(** The sample view after [spendingTx] is connected as transaction 1 of its
    block, and the journal of the connection. *)
Definition spentView : UtxoViewpoint :=
  (connectTransaction sampleIsUnspendable sampleIsCoinBaseTx sampleDetermineTxType
     liveView spendingTx 2 1 (Some [])).1.1.

Definition spentJournal : list SpentTxOut :=
  default []
    (connectTransaction sampleIsUnspendable sampleIsCoinBaseTx
       sampleDetermineTxType liveView spendingTx 2 1 (Some [])).1.2.

(** ** Predicates on the loading of a view *)

Section Loaded.

Variable deserializeUtxoEntry : bytes -> Error + UtxoEntry.
Variable isDeserializeErr : Error -> bool.

(** The store can answer for the hash [h]: it has no record, or one that
    decodes. *)
Definition loadable (utxoBucket : gmap N bytes) (h : N) : Prop :=
  ∃ p, dbFetchUtxoEntry deserializeUtxoEntry isDeserializeErr utxoBucket h = inr p.

(** The binding of the key [h] once the hashes [txSet] are loaded: the one
    of the view when it has one, and else what the store answers for a
    requested hash. *)
Definition loaded (view : UtxoViewpoint) (utxoBucket : gmap N bytes)
    (txSet : list N) (h : N) : option (option UtxoEntry) :=
  match entries view !! h with
  | Some p => Some p
  | None =>
      if bool_decide (h ∈ txSet) then
        match dbFetchUtxoEntry deserializeUtxoEntry isDeserializeErr utxoBucket h with
        | inr p => Some p
        | inl _ => None
        end
      else None
  end.

End Loaded.

(** The hashes that [FetchUtxoView] asks for: the transaction and, unless
    it is a coinbase, the transactions its inputs spend from. *)
Definition neededBy (IsCoinBaseTx : Transaction -> bool) (tx : Tx) : gset N :=
  {[txHash tx]}
  ∪ (if IsCoinBaseTx (msgTx tx) then ∅
     else list_to_set ((λ txIn, opHash (PreviousOut txIn)) <$> TxIn (msgTx tx))).

(** A store with a record for transaction 7 that does not decode. *)
Definition sampleBucket : gmap N bytes := {[ 7 := [Byte.x01] ]}.

(** The journal records that the loop of [disconnectTransactionSlice] takes
    for a list of numbered transactions: one per input of a transaction
    whose number is not 0. *)
Definition sliceNeeds (txs : list (nat * Tx)) : nat :=
  sum_list ((λ itx : nat * Tx,
               if (itx.1 =? 0)%nat then 0%nat
               else length (TxIn (msgTx itx.2))) <$> txs).

(** The key [k] is bound to an entry that is flagged modified. *)
Definition flagged (view : UtxoViewpoint) (k : N) : Prop :=
  ∃ e, entryAt view k = Some e ∧ modified e = true.

(** A journal of two records for the examples. *)
Definition twoRecords : list SpentTxOut :=
  [mkSpentTxOut 50 0 [] 0 0 1 1 true false TxTypeRegular true;
   mkSpentTxOut 50 0 [] 1 0 1 1 true false TxTypeRegular true].

(** The inputs of the transactions of a list that are not coinbases: the
    records that connecting the list adds to the journal. *)
Definition connectedInputs (IsCoinBaseTx : Transaction -> bool) (txs : list Tx)
    : nat :=
  sum_list ((λ tx, if IsCoinBaseTx (msgTx tx) then 0%nat
                   else length (TxIn (msgTx tx))) <$> txs).

(** A chain that keeps no bad transaction, for the examples. *)
Definition noBadTx (_ : unit) (_ : N) : bool := false.

Definition addNoBadTx (bc : unit) (_ _ : N) : unit := bc.
(* ===================================================================== *)
(** * Properties of the UTXO viewpoint *)
(* ===================================================================== *)

(** ** Fixed-width conversions *)

Lemma uint32_small (z : Z) : (0 <= z < 2 ^ 32)%Z -> uint32 z = Z.to_N z.
Proof. intros H. unfold uint32. by rewrite Z.mod_small. Qed.

Lemma uint32_of_nat (n : nat) :
  (Z.of_nat n < 2 ^ 32)%Z -> uint32 (Z.of_nat n) = N.of_nat n.
Proof. intros H. rewrite uint32_small by lia. lia. Qed.

Lemma uint32_int64 (n : N) : uint32 (int64 n) = uint32 (Z.of_N n).
Proof.
  assert (Hdiv : ∀ a : Z, ((a mod 2 ^ 64) mod 2 ^ 32 = a mod 2 ^ 32)%Z).
  { intros a. apply Z.mod_mod_divide. exists (2 ^ 32)%Z. lia. }
  unfold uint32, int64. f_equal.
  destruct (Z.ltb_spec (Z.of_N n mod 2 ^ 64) (2 ^ 63)); [apply Hdiv |].
  replace (Z.of_N n mod 2 ^ 64 - 2 ^ 64)%Z
    with (Z.of_N n mod 2 ^ 64 + (-2 ^ 32) * 2 ^ 32)%Z by lia.
  rewrite Z.mod_add by lia. apply Hdiv.
Qed.

(** ** The journal lookup *)

Lemma scanSpentTxOut_no_match txIndex inIndex stxos result :
  Forall (λ s, stxoMatches txIndex inIndex s = false) stxos ->
  scanSpentTxOut txIndex inIndex stxos result = result.
Proof.
  induction 1 as [|s l Hs _ IH]; simpl; [done|].
  unfold stxoMatches in Hs. by rewrite Hs.
Qed.

Lemma scanSpentTxOut_first_match txIndex inIndex pre s post result :
  Forall (λ s, stxoMatches txIndex inIndex s = false) pre ->
  stxoMatches txIndex inIndex s = true ->
  scanSpentTxOut txIndex inIndex (pre ++ s :: post) result = s.
Proof.
  induction 1 as [|s' l Hs _ IH]; simpl; intros Hm.
  - unfold stxoMatches in Hm. by rewrite Hm.
  - unfold stxoMatches in Hs. rewrite Hs. by apply IH.
Qed.

(** The lookup on a journal that is not empty never yields [nil]: without a
    matching record it yields the zero record. *)
Lemma GetSpentTxOut_nonempty_no_match txIndex inIndex stxos :
  stxos ≠ [] ->
  Forall (λ s, stxoMatches txIndex inIndex s = false) stxos ->
  GetSpentTxOut txIndex inIndex stxos = Some zeroSpentTxOut.
Proof.
  intros Hne Hall. unfold GetSpentTxOut.
  destruct stxos as [|s l]; [done|]. simpl length. simpl Nat.eqb.
  by rewrite scanSpentTxOut_no_match.
Qed.

(** C9 (the code departs from the claim). A journal whose single record is for
    input 0 of transaction 0, asked for input 0 of transaction 1: no record
    matches, and the lookup hands back a pointer to the zero record instead
    of [nil]. *)
Lemma GetSpentTxOut_leaks_zero_record :
  let stxo := mkSpentTxOut 50 0 [] 0 0 1 1 true false TxTypeRegular true in
  stxoMatches 1 0 stxo = false
  ∧ GetSpentTxOut 1 0 [stxo] = Some zeroSpentTxOut
  ∧ GetSpentTxOut 1 0 [stxo] ≠ None.
Proof. by vm_compute. Qed.

(** ** [disconnectTransactions] and the best hash *)

(** Whenever [disconnectTransactions] succeeds, the best hash of the view is
    the hash of the block that was passed, whatever its parents are. *)
Lemma disconnectTransactions_best view block stxos view' :
  disconnectTransactions view block stxos = (view', None) ->
  BestHash view' = blockHash block.
Proof.
  unfold disconnectTransactions.
  destruct (disconnectTxs _ _ _ _) as [v [err|]]; [done|].
  by intros [= <-].
Qed.

(** C3 (the code departs from the claim). Disconnecting block [2], whose
    parent is block [1], from a view whose best hash is [2] succeeds and
    leaves the best hash at [2], the block's own hash, not at its parent. *)
Lemma disconnectTransactions_best_is_own_hash :
  ∃ view',
    disconnectTransactions (mkUtxoViewpoint ∅ 2) blockTwo [] = (view', None)
    ∧ blockParents blockTwo = [1]
    ∧ BestHash view' = 2
    ∧ BestHash view' ≠ 1.
Proof. eexists. by vm_compute. Qed.

(** ** [AddTxOuts] *)

Section AddTxOutsProperties.

Variable IsUnspendable : N -> bytes -> bool.
Variable IsCoinBaseTx : Transaction -> bool.
Variable DetermineTxType : Transaction -> TxType.

Local Abbreviation callAddTxOuts :=
  (callAddTxOuts IsUnspendable IsCoinBaseTx DetermineTxType).

(** Keys written by the output loop are the wrapped positions from
    [txOutIdx] on; the other keys keep their binding. *)
Lemma addOutputs_other outs txOutIdx m (k : N) :
  (∀ j, (j < length outs)%nat -> uint32 (Z.of_nat (txOutIdx + j)) ≠ k) ->
  addOutputs IsUnspendable outs txOutIdx m !! k = m !! k.
Proof.
  revert txOutIdx m. induction outs as [|o outs IH]; intros i m Hk; simpl; [done|].
  assert (Hrest : ∀ j, (j < length outs)%nat -> uint32 (Z.of_nat (S i + j)) ≠ k).
  { intros j Hj. specialize (Hk (S j)). simpl in Hk.
    replace (S i + j)%nat with (i + S j)%nat by lia. apply Hk. lia. }
  assert (Hhere : uint32 (Z.of_nat i) ≠ k).
  { specialize (Hk 0%nat). simpl in Hk. rewrite Nat.add_0_r in Hk. apply Hk. lia. }
  destruct (IsUnspendable _ _); [by apply IH|].
  destruct (m !! uint32 (Z.of_nat i)); rewrite IH by done;
    by rewrite lookup_insert_ne.
Qed.

(** Every spendable output of the transaction ends up unspent under its
    position, with the amount and the script of the transaction. *)
Lemma addOutputs_spendable outs txOutIdx m j txOut :
  (Z.of_nat (txOutIdx + length outs) <= 2 ^ 32)%Z ->
  outs !! j = Some txOut ->
  IsUnspendable (Amount txOut) (PkScript txOut) = false ->
  ∃ o, addOutputs IsUnspendable outs txOutIdx m !! N.of_nat (txOutIdx + j) = Some o
       ∧ spent o = false ∧ amount o = Amount txOut ∧ pkScript o = PkScript txOut.
Proof.
  revert txOutIdx m j. induction outs as [|o outs IH]; intros i m j Hlen Hj Hsp;
    [done|].
  simpl in Hlen. destruct j as [|j]; simpl in Hj.
  - injection Hj as ->. simpl. rewrite Hsp. rewrite Nat.add_0_r.
    assert (Hk : uint32 (Z.of_nat i) = N.of_nat i) by (apply uint32_of_nat; lia).
    assert (Hother : ∀ m', addOutputs IsUnspendable outs (S i) m' !! N.of_nat i
                           = m' !! N.of_nat i).
    { intros m'. apply addOutputs_other. intros j Hj.
      rewrite uint32_of_nat by lia. lia. }
    rewrite Hk. destruct (m !! N.of_nat i); rewrite Hother, lookup_insert_eq;
      by eexists.
  - replace (i + S j)%nat with (S i + j)%nat by lia.
    cbn [addOutputs]. destruct (IsUnspendable (Amount o) (PkScript o)).
    + apply IH; [lia|done|done].
    + destruct (m !! uint32 (Z.of_nat i)); apply IH; (lia || done).
Qed.

(** C8 (amended). [AddTxOuts] never fails: whether or not the view already
    holds an entry for the hash, spent or live, the call returns a view in
    which the entry of the transaction is present and modified, carries the
    new order and index, and holds every spendable output of the transaction
    unspent with its amount and script. *)
Theorem AddTxOuts_always_replaces view theTx blockOrder blockIndex :
  (Z.of_nat (length (TxOut (msgTx theTx))) <= 2 ^ 32)%Z ->
  ∃ view' entry,
    callAddTxOuts view theTx blockOrder blockIndex = Returns view'
    ∧ LookupEntry view' (txHash theTx) = Some entry
    ∧ modified entry = true
    ∧ order entry = uint32 blockOrder
    ∧ index entry = blockIndex
    ∧ ∀ j txOut,
        TxOut (msgTx theTx) !! j = Some txOut ->
        IsUnspendable (Amount txOut) (PkScript txOut) = false ->
        ∃ o, sparseOutputs entry !! N.of_nat j = Some o
             ∧ spent o = false ∧ amount o = Amount txOut
             ∧ pkScript o = PkScript txOut.
Proof.
  intros Hlen. unfold callAddTxOuts, AddTxOuts. eexists _, _.
  split; [reflexivity|]. unfold LookupEntry at 1, setEntry. simpl.
  rewrite lookup_insert_eq. split; [reflexivity|].
  destruct (LookupEntry view (txHash theTx)) as [e|]; simpl;
    (repeat split; [done..|]); intros j txOut Hj Hsp;
    by apply (addOutputs_spendable _ 0%nat).
Qed.

End AddTxOutsProperties.

(** C8 (counterexample to the claim as stated). The view holds an entry for
    hash [7] with an unspent output; [AddTxOuts] of another transaction with
    hash [7] does not fail with [DuplicateLiveTx], it returns and the live
    output is overwritten. *)
Lemma AddTxOuts_replaces_live_entry :
  LookupEntry liveView (txHash collidingTx) = Some liveEntry
  ∧ IsFullySpent liveEntry = false
  ∧ callAddTxOuts sampleIsUnspendable sampleIsCoinBaseTx sampleDetermineTxType
      liveView collidingTx 2 0
    ≠ Fails DuplicateLiveTx
  ∧ ∃ view' entry,
      callAddTxOuts sampleIsUnspendable sampleIsCoinBaseTx sampleDetermineTxType
        liveView collidingTx 2 0 = Returns view'
      ∧ LookupEntry view' 7 = Some entry
      ∧ sparseOutputs entry !! 0 = Some (mkUtxoOutput 0 [] 25 false).
Proof.
  split; [by vm_compute|]. split; [by vm_compute|]. split; [done|].
  eexists _, _. split; [reflexivity|]. by vm_compute.
Qed.

Lemma AddTxOuts_always_replaces_witness :
  ∃ view' entry,
    callAddTxOuts sampleIsUnspendable sampleIsCoinBaseTx sampleDetermineTxType
      liveView collidingTx 2 0 = Returns view'
    ∧ LookupEntry view' (txHash collidingTx) = Some entry
    ∧ modified entry = true
    ∧ order entry = uint32 2
    ∧ index entry = 0
    ∧ ∀ j txOut,
        TxOut (msgTx collidingTx) !! j = Some txOut ->
        sampleIsUnspendable (Amount txOut) (PkScript txOut) = false ->
        ∃ o, sparseOutputs entry !! N.of_nat j = Some o
             ∧ spent o = false ∧ amount o = Amount txOut
             ∧ pkScript o = PkScript txOut.
Proof.
  apply (AddTxOuts_always_replaces sampleIsUnspendable sampleIsCoinBaseTx
           sampleDetermineTxType liveView collidingTx 2 0).
  simpl. lia.
Defined.

(** ** Loading from the store and [commit] *)

Lemma commit_lookup view (k : N) :
  entries (commit view) !! k = entries view !! k ≫= commitEntry.
Proof. unfold commit. simpl. apply lookup_omap. Qed.

(** A committed view binds no key to [nil]. *)
Lemma commit_no_nil view (k : N) : entries (commit view) !! k ≠ Some None.
Proof.
  rewrite commit_lookup. destruct (entries view !! k) as [[e|]|]; simpl; [|done..].
  by destruct (modified e && IsFullySpent e).
Qed.

(** [commit] deletes the keys bound to [nil]. *)
Lemma commit_deletes_nil view (k : N) :
  entries view !! k = Some None -> entries (commit view) !! k = None.
Proof. intros H. by rewrite commit_lookup, H. Qed.

Section StoreProperties.

Variable deserializeUtxoEntry : bytes -> Error + UtxoEntry.
Variable isDeserializeErr : Error -> bool.

Lemma dbFetchUtxoEntry_missing (utxoBucket : gmap N bytes) (h : N) :
  utxoBucket !! h = None ->
  dbFetchUtxoEntry deserializeUtxoEntry isDeserializeErr utxoBucket h = inr None.
Proof. intros H. unfold dbFetchUtxoEntry. by rewrite H. Qed.

(** A key the view already holds keeps its binding through the loop. *)
Lemma fetchUtxosLoop_keeps view utxoBucket txSet view' err (h : N) p :
  fetchUtxosLoop deserializeUtxoEntry isDeserializeErr view utxoBucket txSet
    = (view', err) ->
  entries view !! h = Some p -> entries view' !! h = Some p.
Proof.
  revert view. induction txSet as [|h0 rest IH]; intros view; simpl.
  - by intros [= <- _].
  - destruct (entries view !! h0) eqn:Hh0; [apply IH|].
    destruct (dbFetchUtxoEntry _ _ _ _) as [e|entry]; [by intros [= <- _]|].
    intros Hloop Hh. apply (IH _ Hloop). simpl.
    rewrite lookup_insert_ne; [done|]. intros ->. congruence.
Qed.

(** A requested key that neither the view nor the store holds is bound to
    [nil] by a successful loop. *)
Lemma fetchUtxosLoop_missing view utxoBucket txSet view' (h : N) :
  fetchUtxosLoop deserializeUtxoEntry isDeserializeErr view utxoBucket txSet
    = (view', None) ->
  h ∈ txSet -> utxoBucket !! h = None -> entries view !! h = None ->
  entries view' !! h = Some None.
Proof.
  revert view. induction txSet as [|h0 rest IH]; intros view; simpl.
  - intros _ Hin. by apply not_elem_of_nil in Hin.
  - intros Hloop Hin Hstore Hview.
    destruct (decide (h = h0)) as [->|Hne].
    + rewrite Hview, dbFetchUtxoEntry_missing in Hloop by done.
      apply (fetchUtxosLoop_keeps _ _ _ _ _ _ _ Hloop). simpl.
      by rewrite lookup_insert_eq.
    + apply elem_of_cons in Hin as [?|Hin]; [done|].
      destruct (entries view !! h0) eqn:Hh0; [by apply (IH view)|].
      destruct (dbFetchUtxoEntry _ _ _ _) as [e|entry]; [done|].
      apply (IH _ Hloop); [done..|]. simpl. by rewrite lookup_insert_ne.
Qed.

(** C10 (amended). After a successful [fetchUtxosMain], a requested hash that
    the store lacks and that the view did not already hold is bound to [nil]
    and [LookupEntry] yields [nil] for it; a hash the view already held keeps
    the binding it had; [commit] deletes the keys bound to [nil], so a
    committed view binds no key to [nil]. *)
Theorem fetchUtxosMain_missing_is_nil view utxoBucket txSet view' :
  fetchUtxosMain deserializeUtxoEntry isDeserializeErr view utxoBucket txSet
    = (view', None) ->
  (∀ h : N, h ∈ txSet -> utxoBucket !! h = None -> entries view !! h = None ->
     entries view' !! h = Some None ∧ LookupEntry view' h = None)
  ∧ (∀ (h : N) p, entries view !! h = Some p -> entries view' !! h = Some p)
  ∧ (∀ k : N, entries view' !! k = Some None ->
       entries (commit view') !! k = None)
  ∧ (∀ k : N, entries (commit view') !! k ≠ Some None).
Proof.
  unfold fetchUtxosMain. intros Hfetch.
  assert (Hloop : fetchUtxosLoop deserializeUtxoEntry isDeserializeErr view
                    utxoBucket txSet = (view', None)).
  { destruct txSet; [simpl in *; congruence|done]. }
  clear Hfetch. repeat split.
  - by apply (fetchUtxosLoop_missing _ _ _ _ _ Hloop).
  - unfold LookupEntry.
    by rewrite (fetchUtxosLoop_missing _ _ _ _ _ Hloop).
  - intros h p. by apply (fetchUtxosLoop_keeps _ _ _ _ _ _ _ Hloop).
  - apply commit_deletes_nil.
  - apply commit_no_nil.
Qed.

End StoreProperties.

(** C10 (counterexample to the claim as stated). The store is empty and hash
    [7] is requested, but the view already holds a live entry for [7]: the
    fetch succeeds, skips the hash, and the view still binds [7] to that
    entry, not to [nil]. *)
Lemma fetchUtxosMain_keeps_held_entry :
  ∃ view',
    fetchUtxosMain sampleDeserialize sampleIsDeserializeErr liveView ∅ [7]
      = (view', None)
    ∧ (∅ : gmap N bytes) !! 7 = None
    ∧ entries view' !! 7 = Some (Some liveEntry)
    ∧ entries view' !! 7 ≠ Some None
    ∧ LookupEntry view' 7 ≠ None.
Proof. eexists. split; [reflexivity|]. by vm_compute. Qed.

Lemma fetchUtxosMain_missing_is_nil_witness :
  (∀ h : N, h ∈ [7; 8] -> (∅ : gmap N bytes) !! h = None ->
     entries liveView !! h = None ->
     entries (mkUtxoViewpoint (<[8 := None]> (entries liveView)) 1) !! h = Some None
     ∧ LookupEntry (mkUtxoViewpoint (<[8 := None]> (entries liveView)) 1) h = None)
  ∧ (∀ (h : N) p, entries liveView !! h = Some p ->
       entries (mkUtxoViewpoint (<[8 := None]> (entries liveView)) 1) !! h = Some p)
  ∧ (∀ k : N,
       entries (mkUtxoViewpoint (<[8 := None]> (entries liveView)) 1) !! k = Some None ->
       entries (commit (mkUtxoViewpoint (<[8 := None]> (entries liveView)) 1)) !! k = None)
  ∧ (∀ k : N,
       entries (commit (mkUtxoViewpoint (<[8 := None]> (entries liveView)) 1)) !! k
       ≠ Some None).
Proof.
  apply (fetchUtxosMain_missing_is_nil sampleDeserialize sampleIsDeserializeErr
           liveView ∅ [7; 8]).
  reflexivity.
Defined.

(** ** The round trip of connecting and disconnecting a block *)

Lemma entries_setEntry_eq (h : N) e v : entries (setEntry h e v) !! h = Some (Some e).
Proof. unfold setEntry. simpl. apply lookup_insert_eq. Qed.

Lemma entries_setEntry_ne (h k : N) e v :
  h ≠ k -> entries (setEntry h e v) !! k = entries v !! k.
Proof. intros Hne. unfold setEntry. simpl. by apply lookup_insert_ne. Qed.

Lemma entryAt_setEntry_eq (h : N) e v : entryAt (setEntry h e v) h = Some e.
Proof. unfold entryAt. by rewrite entries_setEntry_eq. Qed.

Lemma entryAt_setEntry_ne (h k : N) e v :
  h ≠ k -> entryAt (setEntry h e v) k = entryAt v k.
Proof. intros Hne. unfold entryAt. by rewrite entries_setEntry_ne. Qed.

Lemma entryAt_Some v (k : N) e :
  entryAt v k = Some e <-> entries v !! k = Some (Some e).
Proof.
  unfold entryAt. destruct (entries v !! k) as [[e'|]|]; naive_solver.
Qed.

Lemma LookupEntry_entryAt v (k : N) : LookupEntry v k = entryAt v k.
Proof. reflexivity. Qed.

Lemma sameFields_refl e : sameFields e e.
Proof. by repeat split. Qed.

Lemma sameFields_trans e1 e2 e3 :
  sameFields e1 e2 -> sameFields e2 e3 -> sameFields e1 e3.
Proof. unfold sameFields. intros (?&?&?&?&?&?) (?&?&?&?&?&?). repeat split; congruence. Qed.

Lemma lookup_markOutputs s refs m (i : N) :
  markOutputs s refs m !! i
  = (λ o, if bool_decide (i ∈ refs) then setSpent s o else o) <$> m !! i.
Proof.
  unfold markOutputs. rewrite map_lookup_imap. by destruct (m !! i).
Qed.

Lemma markOutputs_empty s m : markOutputs s ∅ m = m.
Proof.
  apply map_eq. intros i. rewrite lookup_markOutputs.
  destruct (m !! i); simpl; [|done]. by rewrite bool_decide_eq_false_2 by set_solver.
Qed.

Lemma setSpent_setSpent s s' o : setSpent s (setSpent s' o) = setSpent s o.
Proof. by destruct o. Qed.

Lemma setSpent_id o : setSpent (spent o) o = o.
Proof. by destruct o. Qed.

Lemma markOutputs_markOutputs s r1 r2 m :
  markOutputs s r1 (markOutputs s r2 m) = markOutputs s (r2 ∪ r1) m.
Proof.
  apply map_eq. intros i. rewrite !lookup_markOutputs.
  destruct (m !! i) as [o|]; simpl; [|done]. f_equal.
  destruct (decide (i ∈ r1)), (decide (i ∈ r2)).
  - rewrite !bool_decide_eq_true_2 by set_solver. apply setSpent_setSpent.
  - rewrite (bool_decide_eq_true_2 (i ∈ r1)), (bool_decide_eq_false_2 (i ∈ r2)),
      (bool_decide_eq_true_2 (i ∈ r2 ∪ r1)) by set_solver. done.
  - rewrite (bool_decide_eq_false_2 (i ∈ r1)), (bool_decide_eq_true_2 (i ∈ r2)),
      (bool_decide_eq_true_2 (i ∈ r2 ∪ r1)) by set_solver. done.
  - rewrite !bool_decide_eq_false_2 by set_solver. done.
Qed.

(** Unspending after spending, or after unspending, is unspending. *)
Lemma markOutputs_false_after s r1 r2 m :
  r2 ⊆ r1 -> markOutputs false r1 (markOutputs s r2 m) = markOutputs false r1 m.
Proof.
  intros Hsub. apply map_eq. intros i. rewrite !lookup_markOutputs.
  destruct (m !! i) as [o|]; simpl; [|done]. f_equal.
  destruct (decide (i ∈ r1)), (decide (i ∈ r2)).
  - rewrite !bool_decide_eq_true_2 by done. apply setSpent_setSpent.
  - rewrite (bool_decide_eq_true_2 (i ∈ r1)), (bool_decide_eq_false_2 (i ∈ r2)) by done.
    done.
  - set_solver.
  - rewrite !bool_decide_eq_false_2 by done. done.
Qed.

Lemma markOutputs_dom s refs m (i : N) :
  is_Some (markOutputs s refs m !! i) <-> is_Some (m !! i).
Proof. rewrite lookup_markOutputs. by rewrite fmap_is_Some. Qed.

(** [SpendOutput] marks one output. *)
Lemma SpendOutput_outputs e idx :
  sparseOutputs (SpendOutput e idx) = markOutputs true {[idx]} (sparseOutputs e).
Proof.
  unfold SpendOutput. apply map_eq. intros i. rewrite lookup_markOutputs.
  destruct (sparseOutputs e !! idx) as [o|] eqn:Ho.
  - destruct (spent o) eqn:Hs.
    + destruct (decide (i = idx)) as [->|Hne].
      * rewrite Ho. simpl. rewrite bool_decide_eq_true_2 by set_solver.
        by rewrite <- Hs, setSpent_id.
      * destruct (sparseOutputs e !! i); simpl; [|done].
        by rewrite bool_decide_eq_false_2 by set_solver.
    + simpl. destruct (decide (i = idx)) as [->|Hne].
      * rewrite lookup_insert_eq, Ho. simpl.
        by rewrite bool_decide_eq_true_2 by set_solver.
      * rewrite lookup_insert_ne by done.
        destruct (sparseOutputs e !! i); simpl; [|done].
        by rewrite bool_decide_eq_false_2 by set_solver.
  - destruct (decide (i = idx)) as [->|Hne].
    + by rewrite Ho.
    + destruct (sparseOutputs e !! i); simpl; [|done].
      by rewrite bool_decide_eq_false_2 by set_solver.
Qed.

Lemma SpendOutput_sameFields e idx : sameFields e (SpendOutput e idx).
Proof.
  unfold SpendOutput. destruct (sparseOutputs e !! idx) as [o|]; [|apply sameFields_refl].
  destruct (spent o); [apply sameFields_refl|]. by repeat split.
Qed.

Lemma elem_of_refsOf k ins (i : N) :
  i ∈ refsOf k ins <-> ∃ txIn, txIn ∈ ins ∧ inKey txIn = k ∧ inIdx txIn = i.
Proof.
  unfold refsOf. rewrite elem_of_list_to_set, list_elem_of_fmap.
  split.
  - intros (txIn & -> & Hin). apply list_elem_of_filter in Hin as [? ?]. eauto.
  - intros (txIn & Hin & Hk & <-). exists txIn. split; [done|].
    by apply list_elem_of_filter.
Qed.

Lemma refsOf_nil k : refsOf k [] = ∅.
Proof. reflexivity. Qed.

Lemma refsOf_cons_eq txIn ins :
  refsOf (inKey txIn) (txIn :: ins) = {[inIdx txIn]} ∪ refsOf (inKey txIn) ins.
Proof.
  apply set_eq. intros i. rewrite elem_of_union, elem_of_singleton, !elem_of_refsOf.
  split.
  - intros (x & Hin & Hk & Hi). apply elem_of_cons in Hin as [->|Hin]; [by left|].
    right. eauto.
  - intros [->|(x & Hin & Hk & Hi)].
    + exists txIn. split; [left|done].
    + exists x. split; [by right|done].
Qed.

Lemma refsOf_cons_ne k txIn ins :
  inKey txIn ≠ k -> refsOf k (txIn :: ins) = refsOf k ins.
Proof.
  intros Hne. apply set_eq. intros i. rewrite !elem_of_refsOf. split.
  - intros (x & Hin & Hk & Hi). apply elem_of_cons in Hin as [->|Hin]; [done|]. eauto.
  - intros (x & Hin & Hk & Hi). exists x. split; [by right|done].
Qed.

Lemma refsOf_app k l1 l2 : refsOf k (l1 ++ l2) = refsOf k l1 ∪ refsOf k l2.
Proof.
  apply set_eq. intros i. rewrite elem_of_union, !elem_of_refsOf. split.
  - intros (x & Hin & ?). apply elem_of_app in Hin as [?|?]; [left|right]; eauto.
  - intros [(x & Hin & ?)|(x & Hin & ?)]; exists x; (split; [|done]);
      apply elem_of_app; auto.
Qed.

Lemma refsOf_rev k l : refsOf k (rev l) = refsOf k l.
Proof.
  apply set_eq. intros i. rewrite !elem_of_refsOf.
  split; intros (x & Hin & ?); exists x; (split; [|done]).
  - apply list_elem_of_In. apply in_rev. by apply list_elem_of_In.
  - apply list_elem_of_In. apply list_elem_of_In in Hin. by apply in_rev in Hin.
Qed.

(** What the input loop of [connectTransaction] does when it succeeds: one
    journal record per input, every input finds an entry, and the outputs
    the inputs refer to are marked spent. *)
Lemma connectInputs_spec ins : ∀ V i0 bidx J0 Vi Ja,
  connectInputs V ins i0 bidx (Some J0) = (Vi, Ja, None) ->
  (∃ recs, Ja = Some (J0 ++ recs) ∧ length recs = length ins)
  ∧ (∀ txIn, txIn ∈ ins -> entryAt V (inKey txIn) ≠ None)
  ∧ (∀ k, Marked true false (refsOf k ins) (entries V !! k) (entries Vi !! k)).
Proof.
  induction ins as [|txIn rest IH]; intros V i0 bidx J0 Vi Ja; cbn [connectInputs].
  - intros [= <- <-]. split; [exists []; by rewrite app_nil_r|].
    split; [intros ? Hin; by apply not_elem_of_nil in Hin|].
    intros k. left. by rewrite refsOf_nil.
  - fold (inKey txIn). fold (inIdx txIn).
    destruct (entryAt V (inKey txIn)) as [e0|] eqn:He0; [|done].
    intros Hc. apply IH in Hc as ((recs & -> & Hlen) & Hnn & Hmark).
    split; [|split].
    + eexists (_ :: recs). rewrite <- app_assoc. split; [reflexivity|].
      simpl. by rewrite Hlen.
    + intros x Hin. apply elem_of_cons in Hin as [->|Hin]; [by rewrite He0|].
      specialize (Hnn x Hin). destruct (decide (inKey txIn = inKey x)) as [Heq|Hne].
      * rewrite <- Heq, He0. done.
      * by rewrite entryAt_setEntry_ne in Hnn.
    + intros k. specialize (Hmark k). apply entryAt_Some in He0.
      destruct (decide (inKey txIn = k)) as [<-|Hne].
      * rewrite entries_setEntry_eq in Hmark. rewrite refsOf_cons_eq. right.
        split; [set_solver|].
        destruct Hmark as [[Hr ->]|(Hr & e & e1 & [= <-] & He1 & Hsf & _ & Hout)].
        -- exists e0, (SpendOutput e0 (inIdx txIn)).
           split; [done|]. split; [done|]. split; [apply SpendOutput_sameFields|].
           split; [done|]. rewrite Hr, union_empty_r_L. apply SpendOutput_outputs.
        -- exists e0, e1. split; [done|]. split; [done|].
           split; [eapply sameFields_trans; [apply SpendOutput_sameFields|done]|].
           split; [done|].
           by rewrite Hout, SpendOutput_outputs, markOutputs_markOutputs.
      * rewrite entries_setEntry_ne in Hmark by done.
        by rewrite refsOf_cons_ne.
Qed.

Lemma GetSpentTxOut_nonempty txIndex inIndex stxos :
  stxos ≠ [] -> ∃ stxo, GetSpentTxOut txIndex inIndex stxos = Some stxo.
Proof. intros Hne. unfold GetSpentTxOut. destruct stxos; [done|]. simpl. eauto. Qed.

Lemma insert_unspent_mark (m : gmap N utxoOutput) idx o :
  m !! idx = Some o -> <[idx := setSpent false o]> m = markOutputs false {[idx]} m.
Proof.
  intros Ho. apply map_eq. intros i. rewrite lookup_markOutputs.
  destruct (decide (i = idx)) as [->|Hne].
  - rewrite lookup_insert_eq, Ho. simpl. by rewrite bool_decide_eq_true_2 by set_solver.
  - rewrite lookup_insert_ne by done. destruct (m !! i); simpl; [|done].
    by rewrite bool_decide_eq_false_2 by set_solver.
Qed.

(** What the input loop of [disconnectTransactions] does on a journal that
    is not empty, when every input finds an entry: it succeeds, entries stay,
    keys that no input refers to keep their binding, and where the outputs
    referred to exist they are marked unspent and the entry modified. *)
Lemma disconnectInputs_spec tx txIdx J :
  J ≠ [] -> ∀ l W,
  (∀ x, x ∈ l -> entryAt W (inKey x.2) ≠ None) ->
  ∃ W', disconnectInputs W tx txIdx l J = (W', None)
    ∧ (∀ k, entryAt W k ≠ None -> entryAt W' k ≠ None)
    ∧ (∀ k, refsOf k l.*2 = ∅ -> entries W' !! k = entries W !! k)
    ∧ (∀ k e, entries W !! k = Some (Some e) ->
         (∀ i, i ∈ refsOf k l.*2 -> is_Some (sparseOutputs e !! i)) ->
         Marked false true (refsOf k l.*2) (entries W !! k) (entries W' !! k)).
Proof.
  intros HJ. induction l as [|[n txIn] rest IH]; intros W Hnn.
  - exists W. split; [done|]. split; [done|]. split; [done|].
    intros k e _ _. by left.
  - cbn [disconnectInputs].
    destruct (GetSpentTxOut_nonempty (N.of_nat txIdx) (N.of_nat n) J HJ) as [stxo ->].
    fold (inKey txIn). fold (inIdx txIn).
    destruct (entryAt W (inKey txIn)) as [eh|] eqn:Heh;
      [|by destruct (Hnn (n, txIn)); [left|]].
    set (entry' :=
      match sparseOutputs (setModified true eh) !! inIdx txIn with
      | Some output =>
          setOutputs (<[inIdx txIn := setSpent false output]>
                        (sparseOutputs (setModified true eh))) (setModified true eh)
      | None =>
          setOutputs (<[inIdx txIn := mkUtxoOutput (stxoScriptVersion stxo)
                                       (stxoPkScript stxo) (stxoAmount stxo) false]>
                        (sparseOutputs (setModified true eh))) (setModified true eh)
      end).
    assert (Hmod : modified entry' = true).
    { unfold entry'. by destruct (sparseOutputs (setModified true eh) !! inIdx txIn). }
    assert (Hsf : sameFields eh entry').
    { unfold entry'. destruct (sparseOutputs (setModified true eh) !! inIdx txIn);
        by repeat split. }
    destruct (IH (setEntry (inKey txIn) entry' W)) as (W' & Hrun & Hkeep & Hsame & Hmark).
    { intros x Hx. destruct (decide (inKey txIn = inKey x.2)) as [<-|Hne].
      - by rewrite entryAt_setEntry_eq.
      - rewrite entryAt_setEntry_ne by done. apply Hnn. by right. }
    exists W'. split.
    { first [exact Hrun | simpl; exact Hrun]. }
    split; [|split].
    + intros k Hk. apply Hkeep. destruct (decide (inKey txIn = k)) as [<-|Hne].
      * by rewrite entryAt_setEntry_eq.
      * by rewrite entryAt_setEntry_ne.
    + intros k Hr. rewrite fmap_cons in Hr. cbn [snd] in Hr. destruct (decide (inKey txIn = k)) as [<-|Hne].
      * rewrite refsOf_cons_eq in Hr. set_solver.
      * rewrite refsOf_cons_ne in Hr by done.
        rewrite Hsame by done. by rewrite entries_setEntry_ne.
    + intros k e Hk Hex. rewrite fmap_cons in Hex |- *. cbn [snd] in Hex |- *.
      apply entryAt_Some in Heh.
      destruct (decide (inKey txIn = k)) as [<-|Hne].
      * rewrite Heh in Hk. injection Hk as <-.
        rewrite refsOf_cons_eq in Hex |- *.
        destruct (Hex (inIdx txIn)) as [o Ho]; [set_solver|].
        assert (Hout : sparseOutputs entry'
                       = markOutputs false {[inIdx txIn]} (sparseOutputs eh)).
        { unfold entry'. simpl. rewrite Ho. simpl. by apply insert_unspent_mark. }
        right. split; [set_solver|].
        assert (Hex' : ∀ i, i ∈ refsOf (inKey txIn) rest.*2 ->
                            is_Some (sparseOutputs entry' !! i)).
        { intros i Hi. rewrite Hout. apply markOutputs_dom. apply Hex. set_solver. }
        specialize (Hmark (inKey txIn) entry' (entries_setEntry_eq _ _ _) Hex').
        rewrite entries_setEntry_eq in Hmark.
        destruct Hmark as [[Hr ->]|(Hr & e & e1 & [= <-] & He1 & Hsf1 & Hm1 & Hout1)].
        -- exists eh, entry'. rewrite Hr, union_empty_r_L.
           split; [done|]. split; [done|]. split; [done|]. split; [done|]. done.
        -- exists eh, e1. split; [done|]. split; [done|].
           split; [by eapply sameFields_trans|]. split; [done|].
           by rewrite Hout1, Hout, markOutputs_markOutputs.
      * rewrite refsOf_cons_ne in Hex |- * by done.
        rewrite <- (entries_setEntry_ne (inKey txIn) k entry' W) by done.
        apply (Hmark k e); [by rewrite entries_setEntry_ne|done].
Qed.

Lemma Marked_weak s flagged refs p p1 e :
  Marked s flagged refs p p1 -> p = Some (Some e) ->
  ∃ e1, p1 = Some (Some e1) ∧ sameFields e e1
        ∧ sparseOutputs e1 = markOutputs s refs (sparseOutputs e).
Proof.
  intros [[-> ->]|(_ & e' & e1 & -> & -> & Hsf & _ & Hout)] Hp.
  - exists e. split; [done|]. split; [apply sameFields_refl|].
    by rewrite markOutputs_empty.
  - injection Hp as ->. eauto.
Qed.

Lemma Marked_unmarked s flagged p p1 : Marked s flagged ∅ p p1 -> p1 = p.
Proof. by intros [[_ ->]|[? _]]. Qed.

Lemma markOutputs_round r1 r2 m :
  markOutputs false r1 (markOutputs false r2 (markOutputs true r1 m))
  = markOutputs false (r1 ∪ r2) m.
Proof.
  apply map_eq. intros i. rewrite !lookup_markOutputs.
  destruct (m !! i) as [o|]; simpl; [|done]. f_equal.
  destruct (decide (i ∈ r1)), (decide (i ∈ r2)).
  - rewrite !bool_decide_eq_true_2 by set_solver. by rewrite !setSpent_setSpent.
  - rewrite (bool_decide_eq_true_2 (i ∈ r1)), (bool_decide_eq_false_2 (i ∈ r2)),
      (bool_decide_eq_true_2 (i ∈ r1 ∪ r2)) by set_solver.
    by rewrite !setSpent_setSpent.
  - rewrite (bool_decide_eq_false_2 (i ∈ r1)), (bool_decide_eq_true_2 (i ∈ r2)),
      (bool_decide_eq_true_2 (i ∈ r1 ∪ r2)) by set_solver. done.
  - rewrite !bool_decide_eq_false_2 by set_solver. done.
Qed.

Lemma indexFrom_snd {A} (l : list A) (i : nat) : (indexFrom i l).*2 = l.
Proof.
  revert i. induction l as [|x l IH]; intros i; simpl; [done|]. by rewrite IH.
Qed.

Lemma fmap_rev {A B} (f : A -> B) (l : list A) : f <$> rev l = rev (f <$> l).
Proof.
  induction l as [|x l IH]; simpl; [done|]. by rewrite fmap_app, IH.
Qed.

Lemma disconnectTxs_app view blockOrd l1 l2 stxos :
  disconnectTxs view blockOrd (l1 ++ l2) stxos
  = match disconnectTxs view blockOrd l1 stxos with
    | (view', Some err) => (view', Some err)
    | (view', None) => disconnectTxs view' blockOrd l2 stxos
    end.
Proof.
  revert view. induction l1 as [|[i tx] l1 IH]; intros view; [done|].
  cbn [app disconnectTxs]. destruct (i =? 0)%nat; [apply IH|].
  destruct (disconnectInputs _ _ _ _ _) as [v [err|]]; [done|]. apply IH.
Qed.

Section RoundTrip.

Variable IsUnspendable : N -> bytes -> bool.
Variable IsCoinBaseTx : Transaction -> bool.
Variable DetermineTxType : Transaction -> TxType.

Local Abbreviation AddTxOuts' := (AddTxOuts IsUnspendable IsCoinBaseTx DetermineTxType).
Local Abbreviation connectTxs' := (connectTxs IsUnspendable IsCoinBaseTx DetermineTxType).

Lemma AddTxOuts_entries_ne view tx bo bi (k : N) :
  txHash tx ≠ k -> entries (AddTxOuts' view tx bo bi) !! k = entries view !! k.
Proof. intros Hne. unfold AddTxOuts. by rewrite entries_setEntry_ne. Qed.

Lemma AddTxOuts_keeps view tx bo bi (k : N) :
  entryAt view k ≠ None -> entryAt (AddTxOuts' view tx bo bi) k ≠ None.
Proof.
  intros Hk. unfold AddTxOuts. destruct (decide (txHash tx = k)) as [<-|Hne].
  - by rewrite entryAt_setEntry_eq.
  - by rewrite entryAt_setEntry_ne.
Qed.

Lemma elem_of_blockRefs k txs (i : N) :
  i ∈ blockRefs IsCoinBaseTx k txs ->
  ∃ tx txIn, tx ∈ txs ∧ IsCoinBaseTx (msgTx tx) = false
             ∧ txIn ∈ TxIn (msgTx tx) ∧ inKey txIn = k ∧ inIdx txIn = i.
Proof.
  induction txs as [|tx rest IH]; simpl; [set_solver|].
  rewrite elem_of_union. intros [Hi|Hi].
  - destruct (IsCoinBaseTx (msgTx tx)) eqn:Hcb; [set_solver|].
    apply elem_of_refsOf in Hi as (txIn & ? & ? & ?).
    exists tx, txIn. split; [left|done].
  - destruct (IH Hi) as (tx' & txIn & ? & ?). exists tx', txIn. split; [by right|done].
Qed.

Lemma nonnil_Marked s flagged refs v v' (k : N) :
  Marked s flagged refs (entries v !! k) (entries v' !! k) ->
  entryAt v k ≠ None -> entryAt v' k ≠ None.
Proof.
  unfold entryAt.
  intros [[_ ->]|(_ & e & e1 & -> & -> & _)]; [done|]. done.
Qed.

(** Connecting the transactions [txs] and disconnecting them again, stated
    for a tail of the block so that the induction goes through: [K] holds
    the hashes of the whole block, [j] is the position of the first
    transaction of [txs]. *)
Lemma round_trip_suffix (K : gset N) blockOrd txs : ∀ j V J0 V1 J,
  (∀ tx, tx ∈ txs -> txHash tx ∈ K) ->
  (∀ i tx, txs !! i = Some tx ->
     IsCoinBaseTx (msgTx tx) = bool_decide (j + i = 0)%nat) ->
  (∀ k i, k ∉ K -> i ∈ blockRefs IsCoinBaseTx k txs ->
     ∃ e, entries V !! k = Some (Some e) ∧ is_Some (sparseOutputs e !! i)) ->
  connectTxs' V blockOrd txs j (Some J0) = (V1, Some J, None) ->
  (length J0 <= length J)%nat
  ∧ ∃ V2, disconnectTxs V1 blockOrd (rev (indexFrom j txs)) J = (V2, None)
      ∧ (∀ k, k ∉ K ->
           Marked false true (blockRefs IsCoinBaseTx k txs) (entries V !! k)
             (entries V2 !! k))
      ∧ (∀ k, entryAt V k = None ->
           (k ∈ txHash <$> txs -> cleared (entries V2 !! k))
           ∧ (k ∉ txHash <$> txs -> entries V2 !! k = entries V !! k))
      ∧ (∀ k, entryAt V k ≠ None -> entryAt V2 k ≠ None).
Proof.
  induction txs as [|tx rest IH]; intros j V J0 V1 J HK Hcb Hex Hconn.
  - simpl in Hconn. injection Hconn as <- <-. split; [done|].
    exists V. split; [done|]. split; [intros k _; by left|].
    split; [|done]. intros k _. split; [|done].
    intros Hin. by apply not_elem_of_nil in Hin.
  - assert (HKtx : txHash tx ∈ K) by (apply HK; left).
    assert (HKrest : ∀ tx', tx' ∈ rest -> txHash tx' ∈ K)
      by (intros tx' ?; apply HK; by right).
    assert (Hcbrest : ∀ i tx', rest !! i = Some tx' ->
              IsCoinBaseTx (msgTx tx') = bool_decide (S j + i = 0)%nat).
    { intros i tx' Hi. rewrite (Hcb (S i) tx' Hi).
      apply bool_decide_ext. lia. }
    assert (Hcbtx : IsCoinBaseTx (msgTx tx) = bool_decide (j = 0)%nat).
    { rewrite (Hcb 0%nat tx eq_refl). apply bool_decide_ext. lia. }
    cbn [connectTxs] in Hconn. unfold connectTransaction in Hconn.
    cbn [indexFrom rev]. rewrite disconnectTxs_app.
    destruct (IsCoinBaseTx (msgTx tx)) eqn:Hcoin.
    + (* the coinbase *)
      symmetry in Hcbtx. apply bool_decide_eq_true in Hcbtx. subst j.
      set (Va := AddTxOuts' V tx (int64 blockOrd) (uint32 (Z.of_nat 0))) in *.
      destruct (IH 1%nat Va J0 V1 J HKrest Hcbrest) as (Hlen & Vb & Hdis & HC1 & HC2 & HC3);
        [|exact Hconn|].
      { intros k i Hk Hi. unfold Va. rewrite AddTxOuts_entries_ne by set_solver.
        apply Hex; [done|]. cbn [blockRefs]. apply elem_of_union. by right. }
      split; [done|]. rewrite Hdis. cbn [disconnectTxs]. simpl Nat.eqb. cbv iota.
      eexists. split; [reflexivity|]. split; [|split].
      * intros k Hk. cbn [blockRefs]. rewrite Hcoin, union_empty_l_L.
        rewrite entries_setEntry_ne by set_solver.
        specialize (HC1 k Hk). unfold Va in HC1.
        by rewrite AddTxOuts_entries_ne in HC1 by set_solver.
      * intros k Hnil. rewrite fmap_cons. destruct (decide (txHash tx = k)) as [<-|Hne].
        -- split; [|set_solver]. intros _. rewrite entries_setEntry_eq.
           eexists. split; [reflexivity|]. done.
        -- rewrite entries_setEntry_ne by done.
           assert (HVa : entries Va !! k = entries V !! k)
             by (unfold Va; by rewrite AddTxOuts_entries_ne).
           assert (HnilVa : entryAt Va k = None) by (unfold entryAt; by rewrite HVa).
           destruct (HC2 k HnilVa) as [Hin Hout]. split.
           ++ intros Hk. apply Hin. set_solver.
           ++ intros Hk. rewrite Hout by set_solver. done.
      * intros k Hk. destruct (decide (txHash tx = k)) as [<-|Hne].
        -- by rewrite entryAt_setEntry_eq.
        -- rewrite entryAt_setEntry_ne by done. apply HC3. by apply AddTxOuts_keeps.
    + (* a transaction that spends *)
      symmetry in Hcbtx. apply bool_decide_eq_false in Hcbtx.
      destruct (connectInputs V (TxIn (msgTx tx)) 0 (uint32 (Z.of_nat j)) (Some J0))
        as [[Vi Ja] [err|]] eqn:Hins; [done|].
      destruct (connectInputs_spec _ _ _ _ _ _ _ Hins) as ((recs & -> & Hrecs) & Hnn & Hmid).
      set (Va := AddTxOuts' Vi tx (int64 blockOrd) (uint32 (Z.of_nat j))) in *.
      destruct (IH (S j) Va (J0 ++ recs) V1 J HKrest Hcbrest)
        as (Hlen & Vb & Hdis & HC1 & HC2 & HC3); [|exact Hconn|].
      { intros k i Hk Hi. unfold Va. rewrite AddTxOuts_entries_ne by set_solver.
        destruct (Hex k i Hk) as (e & He & Hsome);
          [cbn [blockRefs]; apply elem_of_union; by right|].
        destruct (Marked_weak _ _ _ _ _ _ (Hmid k) He) as (e1 & -> & _ & Hout1).
        exists e1. split; [done|]. rewrite Hout1. by apply markOutputs_dom. }
      rewrite length_app in Hlen. split; [lia|]. rewrite Hdis.
      cbn [disconnectTxs]. apply Nat.eqb_neq in Hcbtx. rewrite Hcbtx.
      fold (clearedEntry Vb blockOrd j tx).
      match goal with
      | |- context [disconnectInputs ?v _ _ _ _] => set (Vc := v)
      end.
      assert (HVc : ∀ k, txHash tx ≠ k -> entries Vc !! k = entries Vb !! k)
        by (intros k Hk; unfold Vc; by rewrite entries_setEntry_ne).
      assert (HVcnn : ∀ k, entryAt Vb k ≠ None -> entryAt Vc k ≠ None).
      { intros k Hk. unfold Vc. destruct (decide (txHash tx = k)) as [<-|Hne].
        - by rewrite entryAt_setEntry_eq.
        - by rewrite entryAt_setEntry_ne. }
      assert (Hnn' : ∀ k, entryAt V k ≠ None -> entryAt Vc k ≠ None).
      { intros k Hk. apply HVcnn, HC3. unfold Va. apply AddTxOuts_keeps.
        by eapply nonnil_Marked. }
      assert (Hrefs : ∀ k, refsOf k (rev (indexFrom 0 (TxIn (msgTx tx)))).*2
                           = refsOf k (TxIn (msgTx tx))).
      { intros k. by rewrite fmap_rev, indexFrom_snd, refsOf_rev. }
      assert (Hdisin : ∃ V2,
                disconnectInputs Vc tx j (rev (indexFrom 0 (TxIn (msgTx tx)))) J
                  = (V2, None)
                ∧ (∀ k, entryAt Vc k ≠ None -> entryAt V2 k ≠ None)
                ∧ (∀ k, refsOf k (TxIn (msgTx tx)) = ∅ ->
                     entries V2 !! k = entries Vc !! k)
                ∧ (∀ k e, entries Vc !! k = Some (Some e) ->
                     (∀ i, i ∈ refsOf k (TxIn (msgTx tx)) ->
                        is_Some (sparseOutputs e !! i)) ->
                     Marked false true (refsOf k (TxIn (msgTx tx)))
                       (entries Vc !! k) (entries V2 !! k))).
      { destruct (TxIn (msgTx tx)) as [|txIn ins] eqn:Hinputs.
        - exists Vc. split; [done|]. split; [done|]. split; [done|].
          intros k e _ _. left. by rewrite refsOf_nil.
        - assert (HJ : J ≠ []).
          { intros ->. simpl in Hrecs, Hlen. lia. }
          destruct (disconnectInputs_spec tx j J HJ
                      (rev (indexFrom 0 (txIn :: ins))) Vc)
            as (V2 & Hrun & Hk & Hs & Hm).
          { intros x Hx. apply Hnn', Hnn.
            apply list_elem_of_In, in_rev, list_elem_of_In in Hx.
            rewrite <- (indexFrom_snd (txIn :: ins) 0).
            apply list_elem_of_fmap. by exists x. }
          exists V2. split; [done|]. split; [done|].
          split; [intros k Hr; apply Hs; by rewrite Hrefs|].
          intros k e He Hsome. rewrite <- (Hrefs k). apply (Hm k e He).
          intros i Hi. apply Hsome. by rewrite <- (Hrefs k). }
      destruct Hdisin as (V2 & -> & Hkeep & Hsame & Hmark).
      exists V2. split; [done|]. split; [|split].
      * intros k Hk. assert (Hne : txHash tx ≠ k) by set_solver.
        cbn [blockRefs]. rewrite Hcoin.
        assert (HVa : entries Va !! k = entries Vi !! k)
          by (unfold Va; by rewrite AddTxOuts_entries_ne).
        specialize (HC1 k Hk). rewrite HVa in HC1.
        destruct (decide (refsOf k (TxIn (msgTx tx)) = ∅)) as [Hr|Hr].
        -- rewrite Hr, union_empty_l_L. rewrite Hsame, HVc by done.
           specialize (Hmid k). rewrite Hr in Hmid.
           apply Marked_unmarked in Hmid. by rewrite Hmid in HC1.
        -- right. split; [set_solver|].
           destruct (Hmid k) as [[? _]|(_ & e & e1 & He & He1 & Hsf1 & _ & Hout1)];
             [done|].
           destruct (Marked_weak _ _ _ _ _ _ HC1 He1) as (eb & Heb & Hsfb & Houtb).
           assert (Hsome : ∀ i, i ∈ refsOf k (TxIn (msgTx tx)) ->
                                is_Some (sparseOutputs eb !! i)).
           { intros i Hi. rewrite Houtb, Hout1. apply markOutputs_dom, markOutputs_dom.
             destruct (Hex k i Hk) as (e' & He' & Hs');
               [cbn [blockRefs]; rewrite Hcoin; apply elem_of_union; by left|].
             rewrite He in He'. by injection He' as <-. }
           rewrite <- HVc in Heb by done.
           destruct (Hmark k eb Heb Hsome)
             as [[? _]|(_ & eb' & e2 & Heb' & He2 & Hsf2 & Hm2 & Hout2)]; [done|].
           rewrite Heb in Heb'. injection Heb' as <-.
           exists e, e2. split; [done|]. split; [done|].
           split; [eauto using sameFields_trans|]. split; [done|].
           by rewrite Hout2, Houtb, Hout1, markOutputs_round.
      * intros k Hnil.
        assert (Hr : refsOf k (TxIn (msgTx tx)) = ∅).
        { apply set_eq. intros i. split; [|set_solver].
          intros Hi. apply elem_of_refsOf in Hi as (txIn & Hin & <- & _).
          by destruct (Hnn txIn Hin). }
        assert (HVi : entries Vi !! k = entries V !! k).
        { specialize (Hmid k). rewrite Hr in Hmid. by apply Marked_unmarked in Hmid. }
        rewrite Hsame by done. rewrite fmap_cons.
        destruct (decide (txHash tx = k)) as [<-|Hne].
        -- split; [|set_solver]. intros _. unfold Vc. rewrite entries_setEntry_eq.
           eexists. split; [reflexivity|]. done.
        -- rewrite HVc by done.
           assert (HVa : entries Va !! k = entries V !! k)
             by (unfold Va; by rewrite AddTxOuts_entries_ne).
           assert (HnilVa : entryAt Va k = None) by (unfold entryAt; by rewrite HVa).
           destruct (HC2 k HnilVa) as [Hin Hout]. split.
           ++ intros Hk. apply Hin. set_solver.
           ++ intros Hk. rewrite Hout by set_solver. done.
      * intros k Hk. by apply Hkeep, Hnn'.
Qed.

End RoundTrip.

Section RoundTripTheorem.

Variable IsUnspendable : N -> bytes -> bool.
Variable IsCoinBaseTx : Transaction -> bool.
Variable DetermineTxType : Transaction -> TxType.

Lemma IsFullySpent_no_outputs e : sparseOutputs e = ∅ -> IsFullySpent e = true.
Proof.
  intros He. unfold IsFullySpent. apply bool_decide_eq_true. rewrite He.
  apply map_Forall_empty.
Qed.

Lemma IsFullySpent_unspent e (i : N) o :
  sparseOutputs e !! i = Some o -> spent o = false -> IsFullySpent e = false.
Proof.
  intros Ho Hs. unfold IsFullySpent. apply bool_decide_eq_false.
  intros Hall. specialize (Hall i o Ho). simpl in Hall. congruence.
Qed.

(** C4 (amended). Let the first transaction of the block, and only it, be a
    coinbase; let the view hold no entry for a transaction of the block; let
    every input that spends from outside the block refer to an unspent
    output of the view. If connecting the transactions of the block in order
    succeeds and records the journal [stxos], then disconnecting the block
    with [stxos] succeeds, and after [commit] the view has the entries that
    the view before the connection has after [commit]. *)
Theorem connect_disconnect_round_trip view block view1 stxos :
  (∀ i tx, blockTransactions block !! i = Some tx ->
     IsCoinBaseTx (msgTx tx) = bool_decide (i = 0%nat)) ->
  (∀ tx, tx ∈ blockTransactions block -> entryAt view (txHash tx) = None) ->
  (∀ tx txIn,
     tx ∈ blockTransactions block -> IsCoinBaseTx (msgTx tx) = false ->
     txIn ∈ TxIn (msgTx tx) ->
     (∀ tx', tx' ∈ blockTransactions block ->
        txHash tx' ≠ opHash (PreviousOut txIn)) ->
     ∃ e o, entryAt view (opHash (PreviousOut txIn)) = Some e
            ∧ sparseOutputs e !! OutIndex (PreviousOut txIn) = Some o
            ∧ spent o = false) ->
  connectBlock IsUnspendable IsCoinBaseTx DetermineTxType view block
    = (view1, Some stxos, None) ->
  ∃ view2,
    disconnectTransactions view1 block stxos = (view2, None)
    ∧ entries (commit view2) = entries (commit view).
Proof.
  intros Hcb Hfresh Hlive Hconn. unfold connectBlock in Hconn.
  set (txs := blockTransactions block) in *.
  set (K := (list_to_set (txHash <$> txs) : gset N)).
  assert (HinK : ∀ k, k ∈ K <-> ∃ tx, tx ∈ txs ∧ txHash tx = k).
  { intros k. unfold K. rewrite elem_of_list_to_set, list_elem_of_fmap. naive_solver. }
  assert (Hlive' : ∀ k i, k ∉ K ->
            i ∈ blockRefs IsCoinBaseTx k txs ->
            ∃ e o, entries view !! k = Some (Some e)
                   ∧ sparseOutputs e !! i = Some o ∧ spent o = false).
  { intros k i Hk Hi.
    apply elem_of_blockRefs in Hi as (tx & txIn & Htx & Hcoin & Hin & <- & <-).
    destruct (Hlive tx txIn Htx Hcoin Hin) as (e & o & He & Ho & Hs).
    - intros tx' Htx' Heq. apply Hk, HinK. eauto.
    - apply entryAt_Some in He. eauto. }
  destruct (round_trip_suffix IsUnspendable IsCoinBaseTx DetermineTxType K
              (blockOrder block) txs 0 view [] view1 stxos)
    as (_ & V2 & Hdis & HC1 & HC2 & _); [| | |exact Hconn|].
  { intros tx Htx. apply HinK. eauto. }
  { intros i tx Hi. rewrite (Hcb i tx Hi). apply bool_decide_ext. lia. }
  { intros k i Hk Hi. destruct (Hlive' k i Hk Hi) as (e & o & He & Ho & _). eauto. }
  unfold disconnectTransactions. fold txs. rewrite Hdis.
  eexists. split; [reflexivity|].
  apply map_eq. intros k. rewrite !commit_lookup.
  change (entries (SetBestHash V2 (blockHash block))) with (entries V2).
  destruct (decide (k ∈ K)) as [Hk|Hk].
  - apply HinK in Hk as (tx & Htx & <-).
    specialize (Hfresh tx Htx).
    destruct (HC2 _ Hfresh) as [Hclr _].
    destruct Hclr as (e & -> & Hout & Hmod).
    { apply list_elem_of_fmap. eauto. }
    simpl. rewrite Hmod, (IsFullySpent_no_outputs e Hout). simpl.
    unfold entryAt in Hfresh. by destruct (entries view !! txHash tx) as [[?|]|].
  - destruct (HC1 k Hk) as [[_ ->]|(Hne & e & e2 & He & He2 & Hsf & Hmod & Hout)];
      [done|].
    rewrite He, He2.
    assert (Hunspent : ∀ i, i ∈ blockRefs IsCoinBaseTx k txs ->
              ∃ o, sparseOutputs e !! i = Some o ∧ spent o = false).
    { intros i Hi. destruct (Hlive' k i Hk Hi) as (e' & o' & He' & Ho' & Hs).
      rewrite He in He'. injection He' as <-. eauto. }
    assert (Hsame : sparseOutputs e2 = sparseOutputs e).
    { rewrite Hout. apply map_eq. intros i. rewrite lookup_markOutputs.
      destruct (sparseOutputs e !! i) as [o|] eqn:Ho; simpl; [|done].
      case_bool_decide as Hi; [|done].
      destruct (Hunspent i Hi) as (o' & Ho' & Hs).
      rewrite Ho in Ho'. injection Ho' as <-. by rewrite <- Hs, setSpent_id. }
    apply set_choose_L in Hne as [i Hi].
    destruct (Hunspent i Hi) as (o & Ho & Hs).
    simpl. rewrite (IsFullySpent_unspent e i o Ho Hs), andb_false_r.
    rewrite <- Hsame in Ho. rewrite (IsFullySpent_unspent e2 i o Ho Hs), andb_false_r.
    do 2 f_equal. destruct Hsf as (?&?&?&?&?&?).
    destruct e, e2; unfold setModified; simpl in *; congruence.
Qed.

End RoundTripTheorem.

(** C4 (counterexample to the claim as stated). The view holds a live entry
    for hash [7]; the block consists of a coinbase whose hash is [7] too, so
    it has no input to resolve. Connecting the block and disconnecting it
    with the recorded journal succeeds, and after [commit] the entry of [7]
    is gone, while the view before the connection keeps it after [commit]. *)
Lemma round_trip_loses_live_entry :
  ∃ view1 stxos view2,
    connectBlock sampleIsUnspendable sampleIsCoinBaseTx sampleDetermineTxType
      liveView collidingBlock = (view1, Some stxos, None)
    ∧ disconnectTransactions view1 collidingBlock stxos = (view2, None)
    ∧ entries (commit liveView) !! 7 = Some (Some liveEntry)
    ∧ entries (commit view2) !! 7 = None
    ∧ entries (commit view2) ≠ entries (commit liveView).
Proof.
  eexists _, _, _. split; [vm_compute; reflexivity|].
  split; [vm_compute; reflexivity|].
  assert (H1 : entries (commit liveView) !! 7 = Some (Some liveEntry))
    by (vm_compute; reflexivity).
  split; [exact H1|].
  match goal with
  | |- ?a = None ∧ _ => assert (H2 : a = None) by (vm_compute; reflexivity)
  end.
  split; [exact H2|].
  intros Heq. rewrite Heq, H1 in H2. discriminate.
Qed.

Lemma connect_disconnect_round_trip_witness :
  ∃ view2,
    disconnectTransactions (connectedView spendingBlock) spendingBlock
      (connectedJournal spendingBlock) = (view2, None)
    ∧ entries (commit view2) = entries (commit liveView).
Proof.
  apply (connect_disconnect_round_trip sampleIsUnspendable sampleIsCoinBaseTx
           sampleDetermineTxType liveView spendingBlock).
  - intros [|[|i]] tx; simpl; intros [= <-]; reflexivity.
  - intros tx Htx. simpl in Htx.
    repeat (apply elem_of_cons in Htx as [->|Htx]); [reflexivity..|].
    by apply not_elem_of_nil in Htx.
  - intros tx txIn Htx Hcoin Hin Hout. simpl in Htx.
    apply elem_of_cons in Htx as [->|Htx]; [discriminate Hcoin|].
    apply elem_of_cons in Htx as [->|Htx]; [|by apply not_elem_of_nil in Htx].
    simpl in Hin. apply elem_of_cons in Hin as [->|Hin];
      [|by apply not_elem_of_nil in Hin].
    exists liveEntry, (mkUtxoOutput 0 [] 50 false).
    split; [reflexivity|]. split; reflexivity.
  - vm_compute. reflexivity.
Defined.

(* ===================================================================== *)
(** * Properties of the block DAG engine *)
(* ===================================================================== *)

Lemma ascending_perm (s : gset N) : ascending s ≡ₚ elements s.
Proof. unfold ascending. apply merge_sort_Permutation. Qed.

Lemma descending_perm (s : gset N) : descending s ≡ₚ elements s.
Proof. unfold descending. rewrite <- Permutation_rev. apply ascending_perm. Qed.

(** ** Scenario S1 *)

(** C5 (amended). Scenario S1 with anticone size 3: inserting the genesis [G],
    then [B1] with parent [G], then [B2] with parent [B1] yields
    tips = {B2}, common order = [G], temp order = [B1, B2] and
    hourglass = {G, B1}; this for every assignment of the hashes 0, 1, 2 to
    the three blocks and for both orders of map iteration. *)
Theorem S1_linear_chain :
  Forall (λ iter,
    Forall (λ g : N * N * N,
      ∃ bd, AddBlocks iter 10 (newBlockDAG 3) (scenarioS1 g.1.1 g.1.2 g.2) = Ok bd
            ∧ S1_outcome g.1.1 g.1.2 g.2 bd)
      [(0, 1, 2); (0, 2, 1); (1, 0, 2); (1, 2, 0); (2, 0, 1); (2, 1, 0)])
    [ascending; descending].
Proof.
  repeat constructor; eexists; (split; [vm_compute; reflexivity|]);
    repeat split; vm_compute; reflexivity.
Qed.

(** C5 (counterexample to the claim as stated). After scenario S1 the
    hourglass set is not {B2}: the tip [B2] is not in it, the genesis and
    [B1] are. *)
Lemma S1_hourglass_is_not_the_tip :
  ∃ bd hg,
    AddBlocks ascending 10 (newBlockDAG 3) (scenarioS1 0 1 2) = Ok bd
    ∧ tips bd = Some {[2]}
    ∧ hourglassBlocks bd = Some hg
    ∧ (2 ∉ hg) ∧ (0 ∈ hg) ∧ (1 ∈ hg)
    ∧ hg ≠ {[2]}.
Proof.
  eexists _, _. split; [vm_compute; reflexivity|].
  split; [vm_compute; reflexivity|]. split; [vm_compute; reflexivity|].
  assert (Hin : ∀ x : N, bool_decide (x ∈ ({[0; 1]} : gset N)) = true ->
                         x ∈ ({[0; 1]} : gset N)).
  { intros x Hx. by apply bool_decide_eq_true in Hx. }
  assert (Hnotin : ∀ x : N, bool_decide (x ∈ ({[0; 1]} : gset N)) = false ->
                            x ∉ ({[0; 1]} : gset N)).
  { intros x Hx. by apply bool_decide_eq_false in Hx. }
  split; [apply Hnotin; vm_compute; reflexivity|].
  split; [apply Hin; vm_compute; reflexivity|].
  split; [apply Hin; vm_compute; reflexivity|].
  intros H. assert (H0 : (0 : N) ∈ ({[2]} : gset N)).
  { rewrite <- H. apply Hin. vm_compute. reflexivity. }
  apply elem_of_singleton in H0. discriminate.
Qed.

(** ** The count of ordered blocks *)

(** C7 (the code departs from the claim). The blocks 0; 1 on 0; 2 and 3 on 1;
    4 on 0, in this order. The fork on block 1 moves block 1 into the common
    order; block 4, whose only parent is the genesis, resets the last common
    blocks to the genesis and leaves the common order as it is. Afterwards
    the common order holds 2 blocks, the temp order 4, and the DAG 5. Both
    orders of map iteration give the same. *)
Lemma order_count_broken :
  Forall (λ iter,
    ∃ bd, AddBlocks iter 20 (newBlockDAG 3) lateGenesisChild = Ok bd
          ∧ totalBlocks bd = 5
          ∧ commonOrder bd = [Some 0; Some 1]
          ∧ GetCommonOrderNum bd = 2%nat
          ∧ tempOrder bd = Some [1; 4; 2; 3]
          ∧ N.of_nat (GetCommonOrderNum bd + length (default [] (tempOrder bd)))
            ≠ totalBlocks bd)
    [ascending; descending].
Proof.
  repeat constructor; eexists; (split; [vm_compute; reflexivity|]);
    repeat split; try (vm_compute; reflexivity); vm_compute; discriminate.
Qed.

(** ** The order and the insertion history *)

(** C1 (the code departs from the claim). The same five blocks inserted in
    two orders, parents before children in both: the common order is
    [0, 1] after one run and [0] after the other. *)
Lemma common_order_depends_on_history :
  lateGenesisChild ≡ₚ earlyGenesisChild
  ∧ ∃ bd1 bd2,
      AddBlocks ascending 20 (newBlockDAG 3) lateGenesisChild = Ok bd1
      ∧ AddBlocks ascending 20 (newBlockDAG 3) earlyGenesisChild = Ok bd2
      ∧ tips bd1 = tips bd2
      ∧ commonOrder bd1 = [Some 0; Some 1]
      ∧ commonOrder bd2 = [Some 0]
      ∧ commonOrder bd1 ≠ commonOrder bd2.
Proof.
  split.
  - unfold lateGenesisChild, earlyGenesisChild.
    apply Permutation_skip.
    change [arriving 1 [0]; arriving 2 [1]; arriving 3 [1]; arriving 4 [0]]
      with ([arriving 1 [0]; arriving 2 [1]; arriving 3 [1]] ++ [arriving 4 [0]]).
    rewrite Permutation_app_comm. reflexivity.
  - eexists _, _. split; [vm_compute; reflexivity|].
    split; [vm_compute; reflexivity|].
    repeat split; try (vm_compute; reflexivity). vm_compute. discriminate.
Qed.

(** ** Parents come first in the order *)

(** C6 (the code departs from the claim). Eight blocks, the parents of each
    pairwise unrelated: 0; 1 and 2 on 0; 3 on 1; 4 and 5 on 1 and 2;
    6 on 3 and 4; 7 on 3 and 5. After the insertion of 7 the last common
    blocks are 1, 2 and 3, the common order is [0, 1, 2] and the temp order
    [4, 5, 7, 6]. Block 6 has order height 6 and the parents 3 and 4, and its
    parent 3 has no position at all in the total order. Both orders of map
    iteration give the same. *)
Lemma parent_missing_from_order :
  Forall (λ iter,
    ∃ bd node,
      AddBlocks iter 30 (newBlockDAG 3) eightBlocks = Ok bd
      ∧ GetBlock bd 6 = Some node
      ∧ GetHeight node = 6
      ∧ GetParents node = {[3; 4]}
      ∧ lastCommonBlocks bd = {[1; 2; 3]}
      ∧ totalOrder bd = [0; 1; 2; 4; 5; 7; 6]
      ∧ (3 ∉ totalOrder bd)
      ∧ GetBlockOrder bd 3 = (-1)%Z
      ∧ N.of_nat (length (totalOrder bd)) ≠ totalBlocks bd)
    [ascending; descending].
Proof.
  repeat constructor; eexists _, _; (split; [vm_compute; reflexivity|]);
    (split; [vm_compute; reflexivity|]);
    repeat split; try (vm_compute; reflexivity);
    try (vm_compute; discriminate);
    (intros Hin; vm_compute in Hin;
     repeat (apply elem_of_cons in Hin as [Hin|Hin]; [discriminate|]);
     by apply not_elem_of_nil in Hin).
Qed.

(* ===================================================================== *)
(** * The past-set size *)
(* ===================================================================== *)

(** ** Loops that may fail *)

Lemma bind_Ok {A B} (f : A -> res B) (m : res A) (r : B) :
  m ≫= f = Ok r -> ∃ a, m = Ok a ∧ f a = Ok r.
Proof. destruct m as [a|e]; [by exists a|discriminate]. Qed.

Lemma foldM_app {A B} (f : A -> B -> res A) a l1 l2 :
  foldM f a (l1 ++ l2) = foldM f a l1 ≫= λ a', foldM f a' l2.
Proof.
  revert a. induction l1 as [|x l1 IH]; intros a; [done|].
  simpl. destruct (f a x) as [a'|e]; [apply IH|done].
Qed.

(** An invariant of the accumulator that every successful step keeps holds
    at the end of a successful loop. *)
Lemma foldM_invariant {A B} (P : A -> Prop) (f : A -> B -> res A) l a a' :
  (∀ a x a', x ∈ l -> P a -> f a x = Ok a' -> P a') ->
  P a -> foldM f a l = Ok a' -> P a'.
Proof.
  revert a. induction l as [|x l IH]; intros a Hstep Ha Hfold.
  - by injection Hfold as <-.
  - simpl in Hfold. apply bind_Ok in Hfold as (a1 & Hx & Hrest).
    eapply (IH a1); [|by eapply Hstep; [left| |]|done].
    intros ??? Hin. apply Hstep. by right.
Qed.

(** A loop all of whose steps succeed succeeds. *)
Lemma foldM_total {A B} (f : A -> B -> res A) l a :
  (∀ a x, x ∈ l -> ∃ a', f a x = Ok a') -> ∃ a', foldM f a l = Ok a'.
Proof.
  revert a. induction l as [|x l IH]; intros a Hstep; [by eexists|].
  simpl. destruct (Hstep a x) as [a1 ->]; [by left|]. simpl.
  apply IH. intros ?? Hin. apply Hstep. by right.
Qed.

(** ** Transitive closure *)

Lemma tc_flip {A} (R : relation A) x y : tc (flip R) x y -> tc R y x.
Proof.
  induction 1 as [x y HR|x y z HR _ IH]; [by apply tc_once|].
  eapply tc_r; [exact IH|exact HR].
Qed.

Lemma tc_mono {A} (R1 R2 : relation A) x y :
  (∀ a b, R1 a b -> R2 a b) -> tc R1 x y -> tc R2 x y.
Proof.
  intros Hsub. induction 1 as [x y HR|x y z HR _ IH].
  - by apply tc_once, Hsub.
  - eapply tc_l; [by apply Hsub|done].
Qed.

(** The last step of a path. *)
Lemma tc_inv_r {A} (R : relation A) x z :
  tc R x z -> R x z ∨ ∃ y, tc R x y ∧ R y z.
Proof.
  induction 1 as [x y HR|x y z HR Htc IH]; [by left|right].
  destruct IH as [HR'|(y' & Htc' & HR')].
  - exists y. split; [by apply tc_once|done].
  - exists y'. split; [by eapply tc_l|done].
Qed.

(** ** The traversal *)

Section Traverse.

Variable next : N -> gset N.

Lemma traverse_tc fuel h x :
  x ∈ traverse next fuel h -> tc (λ a b, b ∈ next a) h x.
Proof.
  revert h. induction fuel as [|fuel IH]; intros h; simpl.
  - by rewrite elem_of_empty.
  - rewrite elem_of_union, elem_of_union_list.
    intros [Hx|(X & HX & Hx)]; [by apply tc_once|].
    apply list_elem_of_fmap in HX as (k & -> & Hk).
    apply elem_of_elements in Hk.
    eapply tc_l; [exact Hk|by apply IH].
Qed.

(** With a measure that every step decreases, as many steps as the measure
    of the start reach all there is to reach. *)
Lemma tc_traverse (m : N -> nat) fuel h x :
  (∀ a b, b ∈ next a -> (m b < m a)%nat) ->
  (m h <= fuel)%nat ->
  tc (λ a b, b ∈ next a) h x -> x ∈ traverse next fuel h.
Proof.
  intros Hm. revert h. induction fuel as [|fuel IH]; intros h Hfuel Htc.
  - inversion Htc as [?? HR|??? HR _]; subst; apply Hm in HR; lia.
  - simpl. rewrite elem_of_union, elem_of_union_list.
    inversion Htc as [?? HR|? k ? HR Hrest]; subst; [by left|right].
    exists (traverse next fuel k). split.
    + apply list_elem_of_fmap. exists k. by rewrite elem_of_elements.
    + apply IH; [|done]. apply Hm in HR. lia.
Qed.

End Traverse.

Lemma traverse_ext (next1 next2 : N -> gset N) fuel h :
  (∀ x, next1 x = next2 x) -> traverse next1 fuel h = traverse next2 fuel h.
Proof.
  intros Hext. revert h. induction fuel as [|fuel IH]; intros h; [done|].
  simpl. rewrite Hext. f_equal. f_equal.
  apply list_fmap_ext. intros ???. apply IH.
Qed.

(** ** The graph of the index *)

Lemma GetBlock_dom bd h : h ∈ dom (bcIndex bd) ↔ is_Some (GetBlock bd h).
Proof. apply elem_of_dom. Qed.

Lemma parentsOf_dom bd h p : p ∈ parentsOf bd h -> h ∈ dom (bcIndex bd).
Proof.
  unfold parentsOf. rewrite GetBlock_dom.
  destruct (GetBlock bd h); [by eexists|by rewrite elem_of_empty].
Qed.

Lemma childrenOf_dom bd h c : c ∈ childrenOf bd h -> h ∈ dom (bcIndex bd).
Proof.
  unfold childrenOf. rewrite GetBlock_dom.
  destruct (GetBlock bd h); [by eexists|by rewrite elem_of_empty].
Qed.

Lemma parentsOf_node bd h node : GetBlock bd h = Some node -> parentsOf bd h = GetParents node.
Proof. unfold parentsOf. by intros ->. Qed.

Lemma childrenOf_node bd h node : GetBlock bd h = Some node -> childrenOf bd h = GetChildren node.
Proof. unfold childrenOf. by intros ->. Qed.

Lemma derefBlock_Ok bd h node : derefBlock bd h = Ok node ↔ GetBlock bd h = Some node.
Proof.
  unfold derefBlock. destruct (GetBlock bd h); split; intros H; by simplify_eq.
Qed.

Section Graph.

Variables (bd : BlockDAG) (rank : N -> nat).
Hypothesis wf : wfGraph bd rank.

Lemma anc_rank x y : anc bd x y -> (rank x < rank y)%nat.
Proof.
  induction 1 as [x y HR|x y z HR _ IH].
  - by apply (wf_rank _ _ wf).
  - apply (wf_rank _ _ wf) in HR. lia.
Qed.

Lemma anc_irrefl x : ¬ anc bd x x.
Proof. intros H%anc_rank. lia. Qed.

Lemma anc_dom_l x y : anc bd x y -> x ∈ dom (bcIndex bd).
Proof. inversion 1; subst; by eapply (wf_parents _ _ wf). Qed.

Lemma anc_dom_r x y : anc bd x y -> y ∈ dom (bcIndex bd).
Proof.
  intros [H|(? & _ & H)]%tc_inv_r; by eapply parentsOf_dom.
Qed.

Lemma anc_trans x y z : anc bd x y -> anc bd y z -> anc bd x z.
Proof. apply tc_trans. Qed.

Lemma child_anc h c : c ∈ childrenOf bd h -> anc bd h c.
Proof. intros H. apply tc_once. by apply (wf_children _ _ wf). Qed.

Lemma child_dom h c : c ∈ childrenOf bd h -> c ∈ dom (bcIndex bd).
Proof. intros H. by eapply anc_dom_r, child_anc. Qed.

(** [pastOf] holds the ancestors. *)
Lemma elem_of_pastOf h x : x ∈ pastOf bd h ↔ anc bd x h.
Proof.
  unfold pastOf. split.
  - intros H%traverse_tc. by apply tc_flip.
  - intros H. apply tc_traverse with (m := rank).
    + intros a b Hb. by apply (wf_rank _ _ wf).
    + apply anc_dom_r, (wf_rank_size _ _ wf) in H. lia.
    + clear wf. induction H as [x y HR|x y z HR _ IH]; [by apply tc_once|].
      eapply tc_r; [exact IH|exact HR].
Qed.

(** [futureOf] holds the descendants. *)
Lemma elem_of_futureOf h x : x ∈ futureOf bd h ↔ anc bd h x.
Proof.
  unfold futureOf. split.
  - intros H%traverse_tc. eapply tc_mono; [|exact H].
    intros a b Hb. by apply (wf_children _ _ wf).
  - intros H.
    apply tc_traverse with (m := λ a, (size (bcIndex bd) - rank a)%nat).
    + intros a b Hb. pose proof (child_dom _ _ Hb) as Hdom.
      apply (wf_rank_size _ _ wf) in Hdom.
      apply (wf_children _ _ wf), (wf_rank _ _ wf) in Hb. lia.
    + lia.
    + eapply tc_mono; [|exact H].
      intros a b Hb. by apply (wf_children _ _ wf).
Qed.

Lemma elem_of_anticoneOf h x :
  x ∈ anticoneOf bd h
  ↔ x ∈ dom (bcIndex bd) ∧ x ≠ h ∧ ¬ anc bd x h ∧ ¬ anc bd h x.
Proof.
  unfold anticoneOf.
  rewrite elem_of_difference, !not_elem_of_union, elem_of_pastOf,
    elem_of_futureOf, not_elem_of_singleton.
  tauto.
Qed.

Lemma pastOf_dom h x : x ∈ pastOf bd h -> x ∈ dom (bcIndex bd).
Proof. rewrite elem_of_pastOf. apply anc_dom_l. Qed.

Lemma parent_in_past h p : p ∈ parentsOf bd h -> p ∈ pastOf bd h.
Proof. intros H. apply elem_of_pastOf. by apply tc_once. Qed.

(** The past of a block is made of its parents and of their pasts. *)
Lemma anc_inv x h :
  anc bd x h -> ∃ p, p ∈ parentsOf bd h ∧ (x = p ∨ anc bd x p).
Proof.
  intros [H|(p & Htc & H)]%tc_inv_r; [exists x|exists p]; split; auto.
Qed.

(** *** The past of a block split along one of its parents

    When no parent of [h] is an ancestor of another one, the past of [h] is
    made of the past of any parent [p], of [p], and of the blocks of the
    past of [h] that are in the anticone of [p]. *)
Lemma past_split h p :
  independent bd (parentsOf bd h) ->
  p ∈ parentsOf bd h ->
  pastOf bd h = pastOf bd p ∪ {[p]} ∪ (anticoneOf bd p ∩ pastOf bd h)
  ∧ pastOf bd p ## ({[p]} : gset N)
  ∧ pastOf bd p ∪ {[p]} ## anticoneOf bd p ∩ pastOf bd h.
Proof.
  intros Hind Hp. split; [|split].
  - apply set_eq. intros x.
    rewrite !elem_of_union, elem_of_intersection, elem_of_singleton,
      elem_of_anticoneOf, !elem_of_pastOf.
    split.
    + intros Hx.
      destruct (decide (x = p)) as [->|Hne]; [by left; right|].
      destruct (decide (x ∈ pastOf bd p)) as [Hin|Hnin];
        [by left; left; apply elem_of_pastOf|].
      right. split; [|done].
      split; [by eapply anc_dom_l|]. split; [done|].
      split; [by rewrite <- elem_of_pastOf|].
      intros Hpx. apply anc_inv in Hx as (q & Hq & Hxq).
      apply (Hind p Hp q Hq). apply elem_of_pastOf.
      destruct Hxq as [->|Hxq]; [done|by eapply anc_trans].
    + intros [[Hx| ->]|[_ Hx]]; [|by apply tc_once|done].
      eapply anc_trans; [exact Hx|by apply tc_once].
  - intros x Hx ->%elem_of_singleton. apply elem_of_pastOf in Hx.
    by apply anc_irrefl in Hx.
  - intros x [Hx| ->%elem_of_singleton]%elem_of_union
      [Ha _]%elem_of_intersection;
      apply elem_of_anticoneOf in Ha as (_ & Hne & Hnanc & _); [|done].
    by apply elem_of_pastOf in Hx.
Qed.

Lemma past_size_split h p :
  independent bd (parentsOf bd h) ->
  p ∈ parentsOf bd h ->
  size (pastOf bd h)
  = (size (pastOf bd p) + 1 + size (anticoneOf bd p ∩ pastOf bd h))%nat.
Proof.
  intros Hind Hp. destruct (past_split h p Hind Hp) as (Heq & Hd1 & Hd2).
  rewrite Heq at 1. rewrite size_union by done. rewrite size_union by done.
  by rewrite size_singleton.
Qed.

(** For a block without descendants, the part of the anticone of [p] that is
    in its past is the part that is not in its own anticone. *)
Lemma anticone_past_of_tip h p :
  h ∈ dom (bcIndex bd) ->
  childrenOf bd h = ∅ ->
  p ∈ parentsOf bd h ->
  anticoneOf bd p ∖ anticoneOf bd h = anticoneOf bd p ∩ pastOf bd h.
Proof.
  intros Hdom Htip Hp. apply set_eq. intros x.
  rewrite elem_of_difference, elem_of_intersection, !elem_of_anticoneOf,
    elem_of_pastOf.
  split.
  - intros [(Hx & Hne & Hn1 & Hn2) Hnot]. split; [done|].
    destruct (decide (x ∈ pastOf bd h)) as [Hin|Hnin];
      [by apply elem_of_pastOf|].
    rewrite elem_of_pastOf in Hnin. exfalso. apply Hnot.
    split; [done|]. split.
    + intros ->. apply Hn2. by apply tc_once.
    + split; [done|]. intros Hhx. inversion Hhx as [?? HR|? c ? HR _]; subst.
      * apply (wf_children _ _ wf) in HR. by rewrite Htip, elem_of_empty in HR.
      * apply (wf_children _ _ wf) in HR. by rewrite Htip, elem_of_empty in HR.
  - intros [Ha Hx]. split; [done|]. intros (_ & _ & Hn & _). by apply Hn.
Qed.

(** The past of a block with one parent. *)
Lemma past_one_parent h p :
  parentsOf bd h = {[p]} -> anticoneOf bd p ∩ pastOf bd h = ∅.
Proof.
  intros Hp. apply set_eq. intros x.
  rewrite elem_of_intersection, elem_of_anticoneOf, elem_of_pastOf,
    elem_of_empty.
  split; [|done]. intros [(_ & Hne & Hn & _) Hx].
  apply anc_inv in Hx as (q & Hq & Hxq).
  rewrite Hp, elem_of_singleton in Hq. subst q. by destruct Hxq.
Qed.

End Graph.

(** ** The graph queries *)

Section Queries.

Variable iter : gset N -> list N.

(** Whatever the order of map iteration is, it visits the elements of the
    set, each once. *)
Hypothesis iter_perm : ∀ s, iter s ≡ₚ elements s.

Lemma elem_of_iter s x : x ∈ iter s ↔ x ∈ s.
Proof. rewrite iter_perm. apply elem_of_elements. Qed.

Variables (bd : BlockDAG) (rank : N -> nat).
Hypothesis wf : wfGraph bd rank.

(** *** [GetFutureSet] *)

Lemma futureGrown_loop fuel (l : list N) fs fs' :
  (∀ fs b fs', GetFutureSet iter fuel bd fs b = Ok fs' ->
               futureGrown bd (GetChildren b) fs fs') ->
  foldM (λ fs k,
           if Has fs k then Ok fs
           else node ← derefBlock bd k;
                GetFutureSet iter fuel bd (fs ∪ {[k]}) node) fs l = Ok fs' ->
  futureGrown bd (list_to_set l) fs fs'.
Proof.
  intros IHfuel. revert fs. induction l as [|k l IH]; intros fs Hfold.
  - injection Hfold as <-. repeat split; [done|by left|set_solver|done].
  - cbn [foldM] in Hfold. apply bind_Ok in Hfold as (fs1 & Hk & Hrest).
    apply IH in Hrest as (Hsub & Hfrom & Hin & Hclosed).
    unfold Has in Hk. case_bool_decide as Hfs.
    + injection Hk as <-. repeat split.
      * done.
      * intros x Hx. destruct (Hfrom x Hx) as [?|(c & Hc & ?)]; [by left|].
        right. exists c. split; [set_solver|done].
      * set_solver.
      * done.
    + apply bind_Ok in Hk as (node & Hnode%derefBlock_Ok & Hk).
      apply IHfuel in Hk as (Hsub1 & Hfrom1 & Hin1 & Hclosed1).
      rewrite <- (childrenOf_node _ _ _ Hnode) in Hfrom1, Hin1.
      repeat split.
      * set_solver.
      * intros x Hx. destruct (Hfrom x Hx) as [Hx1|(c & Hc & ?)].
        -- destruct (Hfrom1 x Hx1) as [[?| ->%elem_of_singleton]%elem_of_union
                                      |(c & Hc & Hxc)].
           ++ by left.
           ++ right. exists k. split; [set_solver|by left].
           ++ right. exists k. split; [set_solver|right].
              pose proof (child_anc _ _ wf _ _ Hc) as Hkc.
              destruct Hxc as [->|Hxc]; [done|by eapply anc_trans].
        -- right. exists c. split; [set_solver|done].
      * set_solver.
      * intros x Hx Hnfs. destruct (decide (x ∈ fs1)) as [Hx1|Hx1]; [|by apply Hclosed].
        destruct (decide (x = k)) as [->|Hne]; [set_solver|].
        transitivity fs1; [|done]. apply Hclosed1; set_solver.
Qed.

Lemma GetFutureSet_grown fuel fs b fs' :
  GetFutureSet iter fuel bd fs b = Ok fs' -> futureGrown bd (GetChildren b) fs fs'.
Proof.
  revert fs b fs'. induction fuel as [|fuel IH]; intros fs b fs' H; [done|].
  cbn [GetFutureSet] in H. apply futureGrown_loop in H; [|exact IH].
  destruct H as (Hsub & Hfrom & Hin & Hclosed). repeat split; [done| |  |done].
  - intros x Hx. destruct (Hfrom x Hx) as [?|(c & Hc & ?)]; [by left|].
    right. exists c. split; [|done].
    by apply elem_of_list_to_set, elem_of_iter in Hc.
  - intros c Hc. apply Hin, elem_of_list_to_set, elem_of_iter, Hc.
Qed.

(** Started with the empty set on the block [h], [GetFutureSet] returns the
    descendants of [h]. *)
Lemma GetFutureSet_future fuel h b fs :
  GetChildren b = childrenOf bd h ->
  GetFutureSet iter fuel bd ∅ b = Ok fs ->
  fs = futureOf bd h.
Proof.
  intros Hb (_ & Hfrom & Hin & Hclosed)%GetFutureSet_grown.
  rewrite Hb in Hfrom, Hin. apply set_eq. intros x.
  rewrite (elem_of_futureOf _ _ wf). split.
  - intros Hx. destruct (Hfrom x Hx) as [?|(c & Hc & Hxc)]; [set_solver|].
    pose proof (child_anc _ _ wf _ _ Hc) as Hhc.
    destruct Hxc as [->|Hxc]; [done|by eapply anc_trans].
  - revert x. apply tc_ind_r.
    + intros y HR. by apply Hin, (wf_children _ _ wf).
    + intros y z Hy HR IH.
      apply (Hclosed y IH); [set_solver|]. by apply (wf_children _ _ wf).
Qed.

(** [GetFutureSet] returns when the fuel covers the longest path below the
    block. *)
Lemma GetFutureSet_total fuel fs b :
  (∀ c, c ∈ GetChildren b ->
        c ∈ dom (bcIndex bd) ∧ (size (bcIndex bd) - rank c <= fuel)%nat) ->
  ∃ fs', GetFutureSet iter (S fuel) bd fs b = Ok fs'.
Proof.
  revert fs b. induction fuel as [|fuel IH]; intros fs b Hcs.
  - cbn [GetFutureSet]. apply foldM_total. intros a k Hk%elem_of_iter.
    destruct (Hcs k Hk) as [Hdom Hle].
    apply (wf_rank_size _ _ wf) in Hdom. lia.
  - cbn [GetFutureSet]. apply foldM_total. intros a k Hk%elem_of_iter.
    destruct (Hcs k Hk) as [Hdom Hle].
    destruct (Has a k); [by eexists|].
    pose proof Hdom as [node Hnode]%GetBlock_dom.
    pose proof Hnode as ->%derefBlock_Ok. cbn [mbind res_bind].
    apply IH. intros c Hc. rewrite <- (childrenOf_node _ _ _ Hnode) in Hc.
    split; [by eapply child_dom|].
    pose proof (child_dom _ _ wf _ _ Hc) as Hcdom%(wf_rank_size _ _ wf).
    apply (wf_children _ _ wf), (wf_rank _ _ wf) in Hc. lia.
Qed.

(** *** [recAnticone] *)

Section Anticone.

(** The block [b] whose anticone is computed, and its future set. *)
Variables (b : N) (futureSet : gset N).
Hypothesis futureSet_spec : ∀ x, x ∈ futureSet ↔ anc bd b x.

Lemma needRecursion_ready anticone h node :
  GetBlock bd h = Some node ->
  (if bool_decide (GetChildren node = ∅) then true
   else isVirtualTip iter b futureSet anticone (GetChildren node)) = true
  ↔ ready bd b futureSet anticone h.
Proof.
  intros Hnode. unfold ready. rewrite (childrenOf_node _ _ _ Hnode).
  case_bool_decide as Hempty.
  - rewrite Hempty. split; [|done]. intros _ k. by rewrite elem_of_empty.
  - unfold isVirtualTip. rewrite forallb_forall. split.
    + intros H k Hk. apply elem_of_iter, list_elem_of_In, H in Hk.
      apply andb_prop in Hk as [Hne Hin].
      apply negb_true_iff, N.eqb_neq in Hne.
      apply orb_prop in Hin. unfold Has in Hin.
      split; [done|]. by rewrite !bool_decide_eq_true in Hin.
    + intros H k Hk%list_elem_of_In%elem_of_iter.
      destruct (H k Hk) as [Hne Hin].
      apply andb_true_intro. split; [by apply negb_true_iff, N.eqb_neq|].
      unfold Has. apply orb_true_iff. by rewrite !bool_decide_eq_true.
Qed.

(** A ready block that is not in the future of [b] is unrelated to [b]. *)
Lemma ready_unrelated anticone h :
  (∀ x, x ∈ anticone -> unrelated bd b x) ->
  h ∈ dom (bcIndex bd) -> h ≠ b -> ready bd b futureSet anticone h ->
  h ∉ futureSet ->
  unrelated bd b h.
Proof.
  intros Hanti Hdom Hne Hready Hnfut. repeat split; [done|done| |].
  - intros Hhb.
    assert (∃ c, c ∈ childrenOf bd h ∧ (c = b ∨ anc bd c b)) as (c & Hc & Hcb).
    { inversion Hhb as [?? HR|? c ? HR Hrest]; subst.
      - exists b. split; [by apply (wf_children _ _ wf)|by left].
      - exists c. split; [by apply (wf_children _ _ wf)|by right]. }
    destruct (Hready c Hc) as [Hcne [Hcf|Hca]].
    + destruct Hcb as [?|Hcb]; [done|].
      apply futureSet_spec in Hcf. eapply (anc_irrefl _ _ wf), anc_trans; eauto.
    + destruct Hcb as [?|Hcb]; [done|].
      by destruct (Hanti c Hca) as (_ & _ & Hn & _).
  - by rewrite <- futureSet_spec.
Qed.

Lemma recAnticone_loop fuel (l : list N) anticone expanded anticone' :
  recAnticoneKeeps iter bd b futureSet fuel ->
  foldM (recAnticone iter fuel bd b futureSet) anticone l = Ok anticone' ->
  fits bd b futureSet anticone expanded ->
  ∃ expanded', fits bd b futureSet anticone' expanded'
           ∧ ∀ x, pending bd b futureSet anticone' expanded' x ->
                  pending bd b futureSet anticone expanded x ∧ x ∉ l.
Proof.
  intros IHfuel. revert anticone expanded.
  induction l as [|k l IH]; intros anticone expanded Hfold Hfits.
  - injection Hfold as <-. exists expanded. split; [done|].
    intros x Hx. split; [done|apply not_elem_of_nil].
  - cbn [foldM] in Hfold. apply bind_Ok in Hfold as (a1 & Hk & Hrest).
    destruct (IHfuel _ _ _ _ Hk Hfits) as (d1 & Hfits1 & Hpend1).
    destruct (IH _ _ Hrest Hfits1) as (d2 & Hfits2 & Hpend2).
    exists d2. split; [done|]. intros x Hx.
    destruct (Hpend2 x Hx) as [Hx1 Hnl]. destruct (Hpend1 x Hx1) as [Hx0 Hnk].
    split; [done|]. by apply not_elem_of_cons.
Qed.

Lemma recAnticone_keeps fuel : recAnticoneKeeps iter bd b futureSet fuel.
Proof.
  induction fuel as [|fuel IH]; intros anticone expanded h anticone' Hrec Hfits;
    [done|].
  cbn [recAnticone] in Hrec. destruct (N.eqb_spec h b) as [->|Hne].
  { injection Hrec as <-. exists expanded. split; [done|].
    intros x Hx. split; [done|]. by destruct Hx as (_ & ? & _). }
  apply bind_Ok in Hrec as (node & Hnode%derefBlock_Ok & Hrec).
  cbv zeta in Hrec.
  pose proof (needRecursion_ready anticone h node Hnode) as Hneed.
  destruct (if bool_decide (GetChildren node = ∅) then true
            else isVirtualTip iter b futureSet anticone (GetChildren node)).
  2:{ injection Hrec as <-. exists expanded. split; [done|].
      intros x Hx. split; [done|]. intros ->.
      destruct Hx as (_ & _ & _ & Hready & _).
      by apply Hneed in Hready. }
  assert (Hready : ready bd b futureSet anticone h) by by apply Hneed.
  assert (Hdom : h ∈ dom (bcIndex bd)) by (apply GetBlock_dom; by eexists).
  destruct Hfits as [Hanti Hdone].
  set (anticone1 := if Has futureSet h then anticone else anticone ∪ {[h]}) in Hrec.
  assert (Hsub1 : ∀ x, x ∈ anticone1 -> x ∈ anticone ∨ (x = h ∧ h ∉ futureSet)).
  { intros x. unfold anticone1, Has. case_bool_decide; set_solver. }
  assert (Hin1 : h ∈ futureSet ∨ h ∈ anticone1).
  { unfold anticone1, Has. case_bool_decide; set_solver. }
  assert (Hmono1 : anticone ⊆ anticone1).
  { unfold anticone1, Has. case_bool_decide; set_solver. }
  assert (Hfits1 : fits bd b futureSet anticone1 (expanded ∪ {[h]})).
  { split.
    - intros x [Hx|[-> Hnf]]%Hsub1; [by apply Hanti|].
      by apply (ready_unrelated anticone).
    - intros x [Hx| ->%elem_of_singleton]%elem_of_union; [|done].
      destruct (Hdone x Hx); [by left|right; by apply Hmono1]. }
  destruct (recAnticone_loop _ _ _ _ _ IH Hrec Hfits1) as (d2 & Hfits2 & Hpend2).
  exists d2. split; [done|]. intros x Hx.
  destruct (Hpend2 x Hx) as [(Hxdom & Hxb & Hxd & Hxready & Hxchild) Hxl].
  rewrite elem_of_iter, <- (parentsOf_node _ _ _ Hnode) in Hxl.
  assert (Hnchild : h ∉ childrenOf bd x) by by rewrite (wf_children _ _ wf).
  apply not_elem_of_union in Hxd as [Hxd Hxh%not_elem_of_singleton].
  split; [|done]. split; [done|]. split; [done|]. split; [done|]. split.
  - intros k Hk. destruct (Hxready k Hk) as [Hkb [Hkf|Hka]]; [by auto|].
    split; [done|]. apply Hsub1 in Hka as [?|[-> _]]; [by right|done].
  - destruct Hxchild as [?|(c & Hc & Hcd)]; [by left|right].
    exists c. split; [done|].
    apply elem_of_union in Hcd as [?| ->%elem_of_singleton]; done.
Qed.

(** The walk from the tips leaves nothing pending and so collects the whole
    anticone. *)
Lemma recAnticone_from_tips fuel (t : gset N) anticone :
  (∀ x, x ∈ t ↔ x ∈ dom (bcIndex bd) ∧ childrenOf bd x = ∅) ->
  foldM (recAnticone iter fuel bd b futureSet) ∅ (iter t) = Ok anticone ->
  ∀ x, x ∈ anticone ↔ unrelated bd b x.
Proof.
  intros Htips Hfold.
  destruct (recAnticone_loop fuel (iter t) ∅ ∅ anticone (recAnticone_keeps fuel) Hfold)
    as (expanded & [Hanti Hdone] & Hpend); [by split; intros x; rewrite elem_of_empty|].
  assert (Hnone : ∀ x, ¬ pending bd b futureSet anticone expanded x).
  { intros x Hx. destruct (Hpend x Hx) as [(Hdom & _ & _ & _ & Hchild) Hnt].
    apply Hnt, elem_of_iter, Htips. split; [done|].
    destruct Hchild as [?|(c & _ & Hc)]; [done|by rewrite elem_of_empty in Hc]. }
  assert (Hall : ∀ n x, (size (bcIndex bd) - rank x < n)%nat ->
                        x ∈ dom (bcIndex bd) -> x ≠ b -> ¬ anc bd x b -> x ∈ expanded).
  { induction n as [|n IH]; intros x Hn Hdom Hne Hnanc; [lia|].
    destruct (decide (x ∈ expanded)) as [|Hnd]; [done|]. exfalso.
    assert (Hkids : ∀ k, k ∈ childrenOf bd x -> k ≠ b ∧ k ∈ expanded).
    { intros k Hk. pose proof (child_anc _ _ wf _ _ Hk) as Hxk.
      assert (k ≠ b) by (by intros ->). split; [done|].
      apply IH.
      - pose proof (anc_dom_r _ _ _ Hxk) as Hkd%(wf_rank_size _ _ wf).
        apply (anc_rank _ _ wf) in Hxk. lia.
      - by eapply anc_dom_r.
      - done.
      - intros Hkb. apply Hnanc. by eapply anc_trans. }
    apply (Hnone x). split; [done|]. split; [done|]. split; [done|]. split.
    - intros k Hk. destruct (Hkids k Hk) as [? Hkd]. split; [done|]. by apply Hdone.
    - destruct (decide (childrenOf bd x = ∅)) as [|Hkid]; [by left|right].
      apply set_choose_L in Hkid as [c Hc]. exists c. split; [done|].
      by apply Hkids. }
  intros x. split; [apply Hanti|].
  intros (Hdom & Hne & Hn1 & Hn2).
  destruct (Hdone x) as [Hf|?]; [|by apply futureSet_spec in Hf|done].
  by apply (Hall (S (size (bcIndex bd) - rank x))); [lia| | |].
Qed.

(** [recAnticone] returns when the fuel covers the longest path above the
    block. *)
Lemma recAnticone_total fuel anticone h :
  h ∈ dom (bcIndex bd) -> (rank h < fuel)%nat ->
  ∃ anticone', recAnticone iter fuel bd b futureSet anticone h = Ok anticone'.
Proof.
  revert anticone h. induction fuel as [|fuel IH]; intros anticone h Hdom Hfuel;
    [lia|].
  cbn [recAnticone]. destruct (h =? b); [by eexists|].
  pose proof Hdom as [node Hnode]%GetBlock_dom.
  pose proof Hnode as ->%derefBlock_Ok. cbn [mbind res_bind]. cbv zeta.
  destruct (if bool_decide (GetChildren node = ∅) then true else _); [|by eexists].
  apply foldM_total. intros a p Hp%elem_of_iter.
  rewrite <- (parentsOf_node _ _ _ Hnode) in Hp. apply IH.
  - by eapply (wf_parents _ _ wf).
  - apply (wf_rank _ _ wf) in Hp. lia.
Qed.

End Anticone.

(** *** [GetAnticone] *)

Lemma GetAnticone_anticone fuel t node h exclude r :
  tips bd = Some t -> tipsAre bd t ->
  GetHash node = h -> GetChildren node = childrenOf bd h ->
  GetAnticone iter fuel bd node exclude = Ok r ->
  r = Exclude (anticoneOf bd h) exclude.
Proof.
  intros Htips Ht Hh Hkids Hget. unfold GetAnticone in Hget.
  apply bind_Ok in Hget as (fs & Hfs & Hget).
  apply (GetFutureSet_future _ h) in Hfs; [|done].
  rewrite Htips in Hget. cbn [derefSet mbind res_bind] in Hget.
  apply bind_Ok in Hget as (anticone & Hanti & Hget).
  injection Hget as <-. f_equal. rewrite Hh in Hanti.
  apply set_eq. intros x.
  rewrite (recAnticone_from_tips h fs) by
    (done || (intros y; subst fs; apply (elem_of_futureOf _ _ wf))).
  by rewrite (elem_of_anticoneOf _ _ wf).
Qed.

Lemma GetAnticone_total fuel t node exclude :
  tips bd = Some t -> tipsAre bd t ->
  (size (bcIndex bd) < fuel)%nat ->
  (∀ c, c ∈ GetChildren node -> c ∈ dom (bcIndex bd)) ->
  ∃ r, GetAnticone iter fuel bd node exclude = Ok r.
Proof.
  intros Htips Ht Hfuel Hkids. unfold GetAnticone.
  destruct fuel as [|fuel]; [lia|].
  destruct (GetFutureSet_total fuel ∅ node) as [fs ->].
  { intros c Hc. split; [by apply Hkids|lia]. }
  rewrite Htips. cbn [derefSet mbind res_bind].
  destruct (foldM_total (recAnticone iter (S fuel) bd (GetHash node) fs)
              (iter t) ∅) as [anticone ->]; [|by eexists].
  intros a x [Hx _]%elem_of_iter%Ht. apply recAnticone_total; [done|].
  apply (wf_rank_size _ _ wf) in Hx. lia.
Qed.

End Queries.

(** ** [calculatePastBlockSetNum] *)

Lemma addU64_size (a c : nat) (x : N) :
  x = N.of_nat a mod 2 ^ 64 ->
  addU64 (addU64 x (N.of_nat c)) 1 = N.of_nat (a + 1 + c) mod 2 ^ 64.
Proof.
  intros ->. unfold addU64.
  rewrite (N.Div0.add_mod_idemp_l (N.of_nat a)), N.Div0.add_mod_idemp_l.
  f_equal. lia.
Qed.

Lemma addU64_succ (a : nat) (x : N) :
  x = N.of_nat a mod 2 ^ 64 ->
  addU64 x 1 = N.of_nat (a + 1 + 0) mod 2 ^ 64.
Proof.
  intros ->. unfold addU64. rewrite N.Div0.add_mod_idemp_l. f_equal. lia.
Qed.

Section Count.

Variable iter : gset N -> list N.
Hypothesis iter_perm : ∀ s, iter s ≡ₚ elements s.

Variables (bd : BlockDAG) (rank : N -> nat).
Hypothesis wf : wfGraph bd rank.

(** The loop that collects the nodes of the parents. *)
Lemma parentsList_nodes (l : list N) acc r :
  foldM (λ acc k, node ← derefBlock bd k; Ok (acc ++ [node])) acc l = Ok r ->
  ∃ ns, r = acc ++ ns ∧ Forall2 (λ k node, GetBlock bd k = Some node) l ns.
Proof.
  revert acc. induction l as [|k l IH]; intros acc Hfold.
  - injection Hfold as <-. exists []. by rewrite app_nil_r.
  - cbn [foldM] in Hfold. apply bind_Ok in Hfold as (acc1 & Hk & Hrest).
    apply bind_Ok in Hk as (node & Hnode%derefBlock_Ok & [= <-]).
    apply IH in Hrest as (ns & -> & Hns). exists (node :: ns).
    split; [by rewrite <- app_assoc|by constructor].
Qed.

Lemma parentsList_total (l : list N) acc :
  (∀ k, k ∈ l -> k ∈ dom (bcIndex bd)) ->
  ∃ r, foldM (λ acc k, node ← derefBlock bd k; Ok (acc ++ [node])) acc l = Ok r.
Proof.
  intros Hdom. apply foldM_total. intros a k [node Hnode]%Hdom%GetBlock_dom.
  apply derefBlock_Ok in Hnode as ->. by eexists.
Qed.

Lemma pastOf_no_parents h : parentsOf bd h = ∅ -> pastOf bd h = ∅.
Proof.
  intros Hp. apply set_eq. intros x. rewrite (elem_of_pastOf _ _ wf), elem_of_empty.
  split; [|done]. intros (p & Hin & _)%anc_inv. by rewrite Hp, elem_of_empty in Hin.
Qed.

Lemma iter_singleton (s : gset N) k : iter s = [k] -> s = {[k]}.
Proof.
  intros Hk. apply set_eq. intros x.
  by rewrite <- (elem_of_iter iter iter_perm), Hk, list_elem_of_singleton,
    elem_of_singleton.
Qed.

Lemma iter_nil (s : gset N) : iter s = [] -> s = ∅.
Proof.
  intros Hk. apply set_eq. intros x.
  by rewrite <- (elem_of_iter iter iter_perm), Hk, elem_of_nil, elem_of_empty.
Qed.

(** The block [b] has just entered the index: it is a tip, the past-set
    sizes of its parents are right, and its parents are independent. *)
Variables (b : BlockNode) (t : gset N).
Hypothesis b_node : GetBlock bd (GetHash b) = Some b.
Hypothesis b_tip : GetChildren b = ∅.
Hypothesis b_fresh : GetPastSetNum b = 0.
Hypothesis b_genesis : GetHash b = genesis bd -> GetParents b = ∅.
Hypothesis b_independent : independent bd (GetParents b).
Hypothesis tips_some : tips bd = Some t.
Hypothesis tips_are : tipsAre bd t.
Hypothesis parents_counted :
  ∀ p node, p ∈ GetParents b -> GetBlock bd p = Some node ->
            GetPastSetNum node = N.of_nat (size (pastOf bd p)) mod 2 ^ 64.

(** The size that [calculatePastBlockSetNum] sets, or the one the block
    arrived with when it sets none, is the size of the past. *)
Lemma calculatePastBlockSetNum_size fuel r :
  calculatePastBlockSetNum iter fuel bd b = Ok r ->
  default (GetPastSetNum b) r = N.of_nat (size (pastOf bd (GetHash b))) mod 2 ^ 64.
Proof.
  pose proof (parentsOf_node _ _ _ b_node) as Hparents.
  pose proof (childrenOf_node _ _ _ b_node) as Hchildren.
  unfold calculatePastBlockSetNum. destruct (N.eqb_spec (GetHash b) (genesis bd)) as [Hg|_].
  { intros [= <-]. rewrite pastOf_no_parents; [done|].
    rewrite Hparents. by apply b_genesis. }
  cbv zeta. case_bool_decide as Hempty.
  { intros [= <-]. rewrite pastOf_no_parents; [|congruence].
    by rewrite b_fresh. }
  intros (parentsList & Hlist & Hcalc)%bind_Ok.
  apply parentsList_nodes in Hlist as (ns & -> & Hns). cbn [app] in Hcalc.
  destruct ns as [|p ns]; [done|].
  destruct (iter (GetParents b)) as [|k ks] eqn:Hiter; [by inversion Hns|].
  apply Forall2_cons in Hns as [Hp Hns].
  assert (Hk : k ∈ parentsOf bd (GetHash b)).
  { rewrite Hparents. apply (elem_of_iter iter iter_perm). rewrite Hiter. by left. }
  assert (Hind : independent bd (parentsOf bd (GetHash b))) by by rewrite Hparents.
  pose proof (past_size_split _ _ wf _ _ Hind Hk) as Hsize.
  assert (Hcount : GetPastSetNum p = N.of_nat (size (pastOf bd k)) mod 2 ^ 64).
  { apply parents_counted; [by rewrite <- Hparents|done]. }
  destruct ns as [|p2 ns].
  - injection Hcalc as <-. cbn [default].
    apply Forall2_nil_inv_r in Hns as ->. apply iter_singleton in Hiter.
    rewrite Hsize, (past_one_parent _ _ wf _ k), size_empty by congruence.
    by apply addU64_succ.
  - apply bind_Ok in Hcalc as (anticone & Hanti & Hcalc).
    apply bind_Ok in Hcalc as (anOther & Hother & [= <-]).
    apply (GetAnticone_anticone _ iter_perm _ _ wf _ t _ (GetHash b))
      in Hanti; [|done|done|done|congruence].
    apply (GetAnticone_anticone _ iter_perm _ _ wf _ t _ k) in Hother;
      [|done|done|by eapply (wf_hash _ _ wf)|by rewrite (childrenOf_node _ _ _ Hp)].
    cbn [Exclude] in Hanti, Hother. subst anticone anOther.
    rewrite (anticone_past_of_tip _ _ wf);
      [|apply GetBlock_dom; by eexists|congruence|done].
    cbn [default]. rewrite Hsize. by apply addU64_size.
Qed.

(** With more fuel than the index has blocks, [calculatePastBlockSetNum]
    returns. *)
Lemma calculatePastBlockSetNum_total fuel :
  (size (bcIndex bd) < fuel)%nat ->
  ∃ r, calculatePastBlockSetNum iter fuel bd b = Ok r.
Proof.
  intros Hfuel. pose proof (parentsOf_node _ _ _ b_node) as Hparents.
  unfold calculatePastBlockSetNum. destruct (GetHash b =? genesis bd); [by eexists|].
  cbv zeta. case_bool_decide as Hempty; [by eexists|].
  destruct (parentsList_total (iter (GetParents b)) []) as [parentsList Hlist].
  { intros k Hk%(elem_of_iter iter iter_perm). rewrite <- Hparents in Hk.
    by eapply (wf_parents _ _ wf). }
  rewrite Hlist. cbn [mbind res_bind].
  apply parentsList_nodes in Hlist as (ns & -> & Hns). cbn [app].
  destruct ns as [|p ns].
  { apply Forall2_nil_inv_r in Hns. by apply iter_nil in Hns. }
  destruct ns as [|p2 ns]; [by eexists|].
  destruct (GetAnticone_total _ iter_perm _ _ wf fuel t b None)
    as [anticone ->]; [done|done|done| |].
  { intros c. by rewrite b_tip, elem_of_empty. }
  cbn [mbind res_bind].
  destruct (GetAnticone_total _ iter_perm _ _ wf fuel t p (Some anticone))
    as [anOther ->]; [done|done|done| |by eexists].
  destruct (iter (GetParents b)) as [|k ks]; [by inversion Hns|].
  apply Forall2_cons in Hns as [Hp _].
  intros c Hc. rewrite <- (childrenOf_node _ _ _ Hp) in Hc.
  by eapply child_dom.
Qed.

End Count.

(** ** The invariant of the DAG *)

(** *** States with the same graph *)

Lemma sameShape_refl bd : sameShape bd bd.
Proof. done. Qed.

Lemma sameShape_trans bd1 bd2 bd3 :
  sameShape bd1 bd2 -> sameShape bd2 bd3 -> sameShape bd1 bd3.
Proof.
  intros (Hg1 & Ht1 & Hs1) (Hg2 & Ht2 & Hs2).
  split; [congruence|]. split; [congruence|]. intros h. by rewrite Hs2.
Qed.

Section SameShape.

Variables bd bd' : BlockDAG.
Hypothesis same : sameShape bd bd'.

Lemma sameShape_node h node' :
  GetBlock bd' h = Some node' ->
  ∃ node, GetBlock bd h = Some node ∧ shape node = shape node'.
Proof.
  intros Hnode. destruct same as (_ & _ & Hs). specialize (Hs h).
  rewrite Hnode in Hs. destruct (GetBlock bd h) as [node|]; [|done].
  exists node. split; [done|]. simpl in Hs. congruence.
Qed.

Lemma sameShape_parentsOf h : parentsOf bd' h = parentsOf bd h.
Proof.
  destruct same as (_ & _ & Hs). specialize (Hs h). unfold parentsOf.
  destruct (GetBlock bd' h), (GetBlock bd h); try done.
  simpl in Hs. by simplify_eq.
Qed.

Lemma sameShape_childrenOf h : childrenOf bd' h = childrenOf bd h.
Proof.
  destruct same as (_ & _ & Hs). specialize (Hs h). unfold childrenOf.
  destruct (GetBlock bd' h), (GetBlock bd h); try done.
  simpl in Hs. by simplify_eq.
Qed.

Lemma sameShape_dom : dom (bcIndex bd') = dom (bcIndex bd).
Proof.
  destruct same as (_ & _ & Hs). apply set_eq. intros h.
  rewrite !GetBlock_dom. specialize (Hs h). rewrite <- !fmap_is_Some with (f := shape).
  by rewrite Hs.
Qed.

Lemma sameShape_size : size (bcIndex bd') = size (bcIndex bd).
Proof. by rewrite <- !size_dom, sameShape_dom. Qed.

Lemma sameShape_pastOf h : pastOf bd' h = pastOf bd h.
Proof.
  unfold pastOf. rewrite sameShape_size.
  apply traverse_ext, sameShape_parentsOf.
Qed.

Lemma sameShape_wfGraph rank : wfGraph bd rank -> wfGraph bd' rank.
Proof.
  intros [Hhash Hchildren Hparents Hrank Hsize]. split.
  - intros h node' (node & Hnode & Hshape)%sameShape_node.
    apply Hhash in Hnode. by injection Hshape as <- _ _.
  - intros h c. rewrite sameShape_childrenOf, sameShape_parentsOf. apply Hchildren.
  - intros h p. rewrite sameShape_parentsOf, sameShape_dom. apply Hparents.
  - intros h p. rewrite sameShape_parentsOf. apply Hrank.
  - intros h. rewrite sameShape_dom, sameShape_size. apply Hsize.
Qed.

Lemma sameShape_tipsAre t : tipsAre bd t -> tipsAre bd' t.
Proof.
  intros Ht x. rewrite sameShape_dom, sameShape_childrenOf. apply Ht.
Qed.

Lemma sameShape_independent s : independent bd s -> independent bd' s.
Proof.
  intros Hs p Hp q Hq. rewrite sameShape_pastOf. by apply Hs.
Qed.

Lemma sameShape_graphOK : graphOK bd -> graphOK bd'.
Proof.
  intros ([rank Hwf] & Htips & Hpar). split; [|split].
  - exists rank. by apply sameShape_wfGraph.
  - unfold tipsOK in *. destruct same as (Hg & Ht & _). rewrite Ht, Hg.
    destruct (tips bd).
    + rewrite sameShape_dom. destruct Htips as [Hgen Hare].
      split; [done|by apply sameShape_tipsAre].
    + apply dom_empty_iff_L. rewrite sameShape_dom. by apply dom_empty_iff_L.
  - intros h. rewrite sameShape_parentsOf. apply sameShape_independent, Hpar.
Qed.

(** When the sizes are the same too, they stay right. *)
Lemma sameShape_countsOK :
  (∀ h, GetPastSetNum <$> GetBlock bd' h = GetPastSetNum <$> GetBlock bd h) ->
  countsOK bd -> countsOK bd'.
Proof.
  intros Hnum Hcounts h node' Hnode'. rewrite sameShape_pastOf.
  specialize (Hnum h). rewrite Hnode' in Hnum.
  destruct (GetBlock bd h) as [node|] eqn:Hnode; [|done].
  injection Hnum as ->. by apply Hcounts.
Qed.

End SameShape.

(** ** The state after the block has entered the index *)

Lemma addChild_idemp c node : addChild c (addChild c node) = addChild c node.
Proof.
  unfold addChild. cbn. f_equal. apply set_eq. intros x.
  rewrite !elem_of_union. tauto.
Qed.

(** The loop of the index that adds [c] to the children of its parents. *)
Lemma lookup_addChildren (l : list N) c (idx : gmap N BlockNode) x :
  foldr (λ p m, alter (addChild c) p m) idx l !! x
  = if decide (x ∈ l) then addChild c <$> idx !! x else idx !! x.
Proof.
  induction l as [|p l IH]; [done|]. cbn [foldr].
  destruct (decide (x = p)) as [->|Hne].
  - rewrite decide_True by by left. rewrite lookup_alter_eq, IH.
    destruct (decide (p ∈ l)); [|done].
    destruct (idx !! p); [|done]. cbn. by rewrite addChild_idemp.
  - rewrite lookup_alter_ne, IH by done.
    destruct (decide (x ∈ l)) as [Hin|Hnin].
    + by rewrite decide_True by by right.
    + rewrite decide_False; [done|]. by intros [?|?]%elem_of_cons.
Qed.

Lemma updateTips_index iter bd b : bcIndex (updateTips iter bd b) = bcIndex bd.
Proof. unfold updateTips. by destruct (tips bd). Qed.

(** The loop of [updateTips] drops the tips that have children. *)
Lemma updateTips_loop bd (l : list N) (t : gset N) x :
  x ∈ foldl (λ (acc : gset N) k,
               match GetBlock bd k with
               | None => acc
               | Some node =>
                   if negb (bool_decide (GetChildren node = ∅))
                   then acc ∖ {[k]} else acc
               end) t l
  ↔ x ∈ t ∧ ¬ (x ∈ l ∧ childrenOf bd x ≠ ∅).
Proof.
  revert t. induction l as [|k l IH]; intros t.
  - cbn. split; [|by intros []]. intros Hx. split; [done|].
    by intros [?%elem_of_nil _].
  - cbn [foldl]. rewrite IH. unfold childrenOf at 2.
    destruct (GetBlock bd k) as [node|] eqn:Hnode.
    + case_bool_decide as Hkids; cbn [negb].
      * split; intros [Hx Hn]; (split; [done|]).
        -- intros [[->|?]%elem_of_cons Hc]; [|by apply Hn].
           unfold childrenOf in Hc. by rewrite Hnode in Hc.
        -- intros [? ?]. apply Hn. split; [by right|done].
      * rewrite elem_of_difference, not_elem_of_singleton.
        split.
        -- intros [[Hx Hne] Hn]. split; [done|].
           intros [[->|?]%elem_of_cons Hc]; [done|by apply Hn].
        -- intros [Hx Hn]. split; [split; [done|]|].
           ++ intros ->. apply Hn. split; [by left|].
              unfold childrenOf. by rewrite Hnode.
           ++ intros [? ?]. apply Hn. split; [by right|done].
    + split; intros [Hx Hn]; (split; [done|]).
      * intros [[->|?]%elem_of_cons Hc]; [|by apply Hn].
        unfold childrenOf in Hc. by rewrite Hnode in Hc.
      * intros [? ?]. apply Hn. split; [by right|done].
Qed.

Lemma updateTips_genesis iter bd b :
  genesis (updateTips iter bd b)
  = match tips bd with None => GetHash b | Some _ => genesis bd end.
Proof. unfold updateTips. by destruct (tips bd). Qed.

Lemma updateTips_first iter bd b :
  tips bd = None -> tips (updateTips iter bd b) = Some {[GetHash b]}.
Proof. unfold updateTips. by intros ->. Qed.

Section Entered.

Variable iter : gset N -> list N.
Hypothesis iter_perm : ∀ s, iter s ≡ₚ elements s.

(** The new tips are the old ones that have no children, and the block. *)
Lemma updateTips_next bd b t :
  tips bd = Some t -> GetHash b ∉ t ->
  ∃ t', tips (updateTips iter bd b) = Some t'
        ∧ ∀ x, x ∈ t' ↔ (x ∈ t ∧ childrenOf bd x = ∅) ∨ x = GetHash b.
Proof.
  intros Ht Hfresh. unfold updateTips, Has. rewrite Ht.
  rewrite bool_decide_eq_false_2 by done. eexists. split; [done|].
  intros x. rewrite elem_of_union, elem_of_singleton, updateTips_loop,
    (elem_of_iter iter iter_perm).
  split; (intros [[Hx Hn]|?]; [left; split; [done|]|by right]).
  - destruct (decide (childrenOf bd x = ∅)); [done|]. exfalso. by apply Hn.
  - by intros [_ ?].
Qed.

Variables (bd : BlockDAG) (b : BlockNode) (bd1 : BlockDAG).
Hypothesis entered_ok : entered iter bd b = Ok bd1.

(** [entered] succeeds on a new block whose parents are in the index; it
    changes the index, the tips and, the first time, the genesis. *)
Lemma entered_inv :
  (GetHash b ∉ dom (bcIndex bd))
  ∧ GetParents b ⊆ dom (bcIndex bd)
  ∧ ∃ bd0,
      bd1 = updateTips iter bd0 b
      ∧ bcIndex bd0
        = <[GetHash b := b]>
            (foldr (λ p m, alter (addChild (GetHash b)) p m) (bcIndex bd)
               (iter (GetParents b)))
      ∧ tips bd0 = tips bd
      ∧ genesis bd0 = genesis bd.
Proof.
  unfold entered, AddNode in entered_ok.
  case_bool_decide as Hfresh; [done|]. case_bool_decide as Hparents; [|done].
  cbn [negb mbind res_bind] in entered_ok. cbv zeta in entered_ok.
  injection entered_ok as <-.
  split; [done|]. split; [done|]. eexists. split; [done|].
  by destruct (_ <? _)%Z.
Qed.

End Entered.

(** *** The graph with the new block *)

Section EnteredGraph.

Variable iter : gset N -> list N.
Hypothesis iter_perm : ∀ s, iter s ≡ₚ elements s.

Variables (bd : BlockDAG) (b : BlockNode) (bd1 : BlockDAG) (rank : N -> nat).
Hypothesis entered_ok : entered iter bd b = Ok bd1.
Hypothesis wf : wfGraph bd rank.
Hypothesis b_tip : GetChildren b = ∅.

Lemma entered_fresh : GetHash b ∉ dom (bcIndex bd).
Proof. by destruct (entered_inv _ _ _ _ entered_ok) as (? & _). Qed.

Lemma entered_parents : GetParents b ⊆ dom (bcIndex bd).
Proof. by destruct (entered_inv _ _ _ _ entered_ok) as (_ & ? & _). Qed.

Lemma entered_index :
  bcIndex bd1
  = <[GetHash b := b]>
      (foldr (λ p m, alter (addChild (GetHash b)) p m) (bcIndex bd)
         (iter (GetParents b))).
Proof.
  destruct (entered_inv _ _ _ _ entered_ok) as (_ & _ & bd0 & -> & Hidx & _).
  by rewrite updateTips_index.
Qed.

Lemma entered_self : GetBlock bd1 (GetHash b) = Some b.
Proof. unfold GetBlock. by rewrite entered_index, lookup_insert_eq. Qed.

Lemma entered_other x :
  x ≠ GetHash b ->
  GetBlock bd1 x
  = if decide (x ∈ GetParents b) then addChild (GetHash b) <$> GetBlock bd x
    else GetBlock bd x.
Proof.
  intros Hne. unfold GetBlock.
  rewrite entered_index, lookup_insert_ne, lookup_addChildren by done.
  apply decide_ext, (elem_of_iter iter iter_perm).
Qed.

Lemma entered_parentsOf x :
  parentsOf bd1 x = if decide (x = GetHash b) then GetParents b else parentsOf bd x.
Proof.
  unfold parentsOf. destruct (decide (x = GetHash b)) as [->|Hne].
  - by rewrite entered_self.
  - rewrite entered_other by done.
    destruct (decide (x ∈ GetParents b)); [|done]. by destruct (GetBlock bd x).
Qed.

Lemma entered_childrenOf x :
  childrenOf bd1 x
  = if decide (x = GetHash b) then ∅
    else if decide (x ∈ GetParents b) then childrenOf bd x ∪ {[GetHash b]}
         else childrenOf bd x.
Proof.
  unfold childrenOf. destruct (decide (x = GetHash b)) as [->|Hne].
  - by rewrite entered_self.
  - rewrite entered_other by done.
    destruct (decide (x ∈ GetParents b)) as [Hin|]; [|done].
    apply entered_parents, GetBlock_dom in Hin as [node Hnode].
    by rewrite Hnode.
Qed.

Lemma entered_dom : dom (bcIndex bd1) = {[GetHash b]} ∪ dom (bcIndex bd).
Proof.
  apply set_eq. intros x. rewrite elem_of_union, elem_of_singleton, !GetBlock_dom.
  destruct (decide (x = GetHash b)) as [->|Hne].
  - rewrite entered_self. split; [by left|by eexists].
  - rewrite entered_other by done.
    destruct (decide (x ∈ GetParents b)); [rewrite fmap_is_Some|]; tauto.
Qed.

Lemma entered_size : size (bcIndex bd1) = S (size (bcIndex bd)).
Proof.
  rewrite <- !size_dom, entered_dom, size_union, size_singleton; [done|].
  intros x ->%elem_of_singleton. apply entered_fresh.
Qed.

Lemma entered_wf : wfGraph bd1 (enteredRank bd b rank).
Proof.
  pose proof entered_fresh as Hfresh. pose proof entered_parents as Hpar.
  split.
  - intros x node. destruct (decide (x = GetHash b)) as [->|Hne].
    + rewrite entered_self. by intros [= <-].
    + rewrite entered_other by done.
      destruct (decide (x ∈ GetParents b)).
      * destruct (GetBlock bd x) as [n|] eqn:Hn; [|done].
        intros [= <-]. by apply (wf_hash _ _ wf) in Hn.
      * apply (wf_hash _ _ wf).
  - intros x c. rewrite entered_childrenOf, entered_parentsOf.
    destruct (decide (x = GetHash b)) as [->|Hx].
    + rewrite elem_of_empty. split; [done|]. destruct (decide (c = GetHash b)).
      * intros Hin. by apply Hpar in Hin.
      * intros Hin. by apply (wf_parents _ _ wf) in Hin.
    + destruct (decide (c = GetHash b)) as [->|Hc].
      * destruct (decide (x ∈ GetParents b)) as [Hin|Hnin].
        -- rewrite elem_of_union, elem_of_singleton. split; [done|by right].
        -- rewrite (wf_children _ _ wf). split; [|done].
           intros Hin. by apply parentsOf_dom in Hin.
      * destruct (decide (x ∈ GetParents b)).
        -- rewrite elem_of_union, elem_of_singleton, (wf_children _ _ wf). tauto.
        -- apply (wf_children _ _ wf).
  - intros x p. rewrite entered_parentsOf, entered_dom, elem_of_union.
    destruct (decide (x = GetHash b)); intros Hin; right;
      [by apply Hpar|by eapply (wf_parents _ _ wf)].
  - intros x p. rewrite entered_parentsOf. unfold enteredRank.
    destruct (decide (x = GetHash b)) as [->|Hx]; intros Hin.
    + apply Hpar in Hin. rewrite decide_False by (by intros ->).
      by apply (wf_rank_size _ _ wf).
    + pose proof (wf_parents _ _ wf _ _ Hin).
      rewrite decide_False by (by intros ->). by apply (wf_rank _ _ wf).
  - intros x. rewrite entered_dom, entered_size, elem_of_union, elem_of_singleton.
    unfold enteredRank. destruct (decide (x = GetHash b)); [lia|].
    intros [?|Hin]; [done|]. apply (wf_rank_size _ _ wf) in Hin. lia.
Qed.

(** The new block is an ancestor of none; between the other blocks nothing
    changes. *)
Lemma entered_anc x y : y ≠ GetHash b -> anc bd1 x y ↔ anc bd x y.
Proof.
  intros Hy. split.
  - induction 1 as [x y HR|x y z HR _ IH].
    + apply tc_once. unfold parentRel in *.
      by rewrite entered_parentsOf, decide_False in HR.
    + specialize (IH Hy). eapply tc_l; [|exact IH].
      unfold parentRel in *. rewrite entered_parentsOf, decide_False in HR; [done|].
      intros ->. by apply (anc_dom_l _ _ wf), entered_fresh in IH.
  - apply tc_mono. intros p c. unfold parentRel. rewrite entered_parentsOf.
    intros Hp. rewrite decide_False; [done|].
    intros ->. by apply parentsOf_dom, entered_fresh in Hp.
Qed.

Lemma entered_pastOf x : x ≠ GetHash b -> pastOf bd1 x = pastOf bd x.
Proof.
  intros Hx. apply set_eq. intros y.
  rewrite (elem_of_pastOf _ _ entered_wf), (elem_of_pastOf _ _ wf).
  by apply entered_anc.
Qed.

Lemma entered_independent (s : gset N) :
  s ⊆ dom (bcIndex bd) -> independent bd s -> independent bd1 s.
Proof.
  intros Hs Hind p Hp q Hq. rewrite entered_pastOf; [by apply Hind|].
  intros ->. by apply Hs, entered_fresh in Hq.
Qed.

Lemma entered_parentsOK :
  parentsOK bd -> independent bd (GetParents b) -> parentsOK bd1.
Proof.
  intros Hok Hb x. rewrite entered_parentsOf.
  destruct (decide (x = GetHash b)).
  - apply entered_independent; [apply entered_parents|done].
  - apply entered_independent; [|apply Hok].
    intros p. apply (wf_parents _ _ wf).
Qed.

Lemma entered_tipsOK :
  tipsOK bd ->
  ∃ t1, tips bd1 = Some t1 ∧ tipsAre bd1 t1
        ∧ genesis bd1 ∈ dom (bcIndex bd1)
        ∧ (GetHash b = genesis bd1 -> GetParents b = ∅).
Proof.
  pose proof entered_fresh as Hfresh. pose proof entered_parents as Hpar.
  pose proof entered_dom as Hdom. pose proof entered_childrenOf as Hkids.
  destruct (entered_inv _ _ _ _ entered_ok) as (_ & _ & bd0 & -> & Hidx & Ht & Hg).
  unfold tipsOK. intros Hok.
  assert (Hkids0 : ∀ x, childrenOf (updateTips iter bd0 b) x = childrenOf bd0 x).
  { intros x. unfold childrenOf, GetBlock. by rewrite updateTips_index. }
  rewrite updateTips_genesis, Ht. destruct (tips bd) as [t|] eqn:Htips.
  - destruct Hok as [Hgen Hare].
    assert (Hnt : GetHash b ∉ t) by (by intros [? _]%Hare).
    destruct (updateTips_next iter iter_perm bd0 b t Ht Hnt) as (t1 & -> & Ht1).
    exists t1. split; [done|]. split; [|split].
    + intros x. rewrite Ht1, Hdom, <- Hkids0, Hkids, elem_of_union, elem_of_singleton.
      destruct (decide (x = GetHash b)) as [->|Hne]; [tauto|].
      rewrite (Hare x). destruct (decide (x ∈ GetParents b)) as [Hin|Hnin].
      * split; [intros [[_ Hc]|?]; [|done]|intros [_ Hc]];
          exfalso; eapply (not_elem_of_empty (C := gset N)); rewrite <- Hc;
          apply elem_of_union; right; by apply elem_of_singleton.
      * split; [intros [[[Hx _] Hc]|?]; [|done]|intros [[?|Hx] Hc]; [done|left]];
          tauto.
    + rewrite Hdom, Hg. apply elem_of_union. by right.
    + rewrite Hg. intros Heq. by rewrite Heq in Hfresh.
  - rewrite (updateTips_first _ _ _ Ht). eexists. split; [done|].
    assert (Hempty : dom (bcIndex bd) = ∅) by (by apply dom_empty_iff_L).
    split; [|split].
    + intros x. rewrite Hdom, Hempty, Hkids, elem_of_union,
        !elem_of_singleton, elem_of_empty.
      destruct (decide (x = GetHash b)); tauto.
    + rewrite Hdom. apply elem_of_union. left. by apply elem_of_singleton.
    + intros _. apply set_eq. intros p. rewrite elem_of_empty.
      split; [|done]. intros Hp%Hpar. by rewrite Hempty, elem_of_empty in Hp.
Qed.

(** The sizes of the blocks that were in the index are still right. *)
Lemma entered_counts x node :
  countsOK bd -> x ≠ GetHash b ->
  GetBlock bd1 x = Some node ->
  GetPastSetNum node = N.of_nat (size (pastOf bd1 x)) mod 2 ^ 64.
Proof.
  intros Hok Hx. rewrite entered_other, entered_pastOf by done.
  destruct (decide (x ∈ GetParents b)); [|apply Hok].
  destruct (GetBlock bd x) as [n|] eqn:Hn; [|done].
  intros [= <-]. exact (Hok x n Hn).
Qed.

End EnteredGraph.

(** ** What the rest of [AddBlock] leaves alone *)

Lemma keepsGraph_refl bd : keepsGraph bd bd.
Proof. done. Qed.

Lemma keepsGraph_trans bd1 bd2 bd3 :
  keepsGraph bd1 bd2 -> keepsGraph bd2 bd3 -> keepsGraph bd1 bd3.
Proof. intros (? & ? & ?) (? & ? & ?). repeat split; congruence. Qed.

Lemma keepsGraph_setNodeHeight bd h x : keepsGraph bd (setNodeHeight h x bd).
Proof.
  split; [done|]. split; [done|]. cbn. apply map_eq. intros i.
  rewrite !lookup_fmap. destruct (decide (i = h)) as [->|Hne].
  - rewrite lookup_alter_eq. by destruct (bcIndex bd !! h).
  - by rewrite lookup_alter_ne.
Qed.

Lemma keepsGraph_node bd bd' h :
  keepsGraph bd bd' ->
  SetHeight 0 <$> GetBlock bd' h = SetHeight 0 <$> GetBlock bd h.
Proof.
  intros (_ & _ & Hidx). unfold GetBlock. by rewrite <- !lookup_fmap, Hidx.
Qed.

Lemma keepsGraph_sameShape bd bd' : keepsGraph bd bd' -> sameShape bd bd'.
Proof.
  intros Hk. split; [apply Hk|]. split; [apply Hk|]. intros h.
  pose proof (keepsGraph_node _ _ h Hk) as Hh.
  destruct (GetBlock bd' h) as [[]|], (GetBlock bd h) as [[]|]; cbn in *;
    by simplify_eq.
Qed.

Lemma keepsGraph_counts bd bd' h :
  keepsGraph bd bd' ->
  GetPastSetNum <$> GetBlock bd' h = GetPastSetNum <$> GetBlock bd h.
Proof.
  intros Hk. pose proof (keepsGraph_node _ _ h Hk) as Hh.
  destruct (GetBlock bd' h) as [[]|], (GetBlock bd h) as [[]|]; cbn in *;
    by simplify_eq.
Qed.

Lemma keepsGraph_dagOK bd bd' : keepsGraph bd bd' -> dagOK bd -> dagOK bd'.
Proof.
  intros Hk [Hgraph Hcounts].
  pose proof (keepsGraph_sameShape _ _ Hk) as Hshape. split.
  - by apply (sameShape_graphOK bd).
  - apply (sameShape_countsOK bd); [done| |done].
    intros h. by apply keepsGraph_counts.
Qed.

(** One step through a computation that returned: a bind, a test, a match. *)
Ltac step_Ok H :=
  lazymatch type of H with
  | Ok _ = Ok _ => injection H as H; try subst
  | Fail _ = Ok _ => discriminate H
  | mbind _ _ = Ok _ =>
      let a := fresh "a" in
      let Ha := fresh "Ha" in
      apply bind_Ok in H as (a & Ha & H)
  | (if ?c then _ else _) = Ok _ => destruct c
  | match ?x with _ => _ end = Ok _ => destruct x
  | (let _ := _ in _) = Ok _ => cbv zeta in H
  end.

Section Frame.

Variable iter : gset N -> list N.

Lemma updateCommonOrder_keeps fuel bd tip blueSet isRollBack exclude cur start bd' :
  updateCommonOrder iter fuel bd tip blueSet isRollBack exclude cur start = Ok bd' ->
  keepsGraph bd bd'.
Proof.
  unfold updateCommonOrder. intros H.
  step_Ok H; [by step_Ok H|]. step_Ok H. cbv zeta in H.
  match type of H with
  | context [if ?c then setCommonOrder ?x bd else bd] =>
      set (bd0 := if c then setCommonOrder x bd else bd) in H;
      assert (Hkeep : keepsGraph bd bd0) by (subst bd0; by destruct c)
  end.
  clearbody bd0. eapply keepsGraph_trans; [exact Hkeep|].
  step_Ok H.
  - destruct blueSet; [|by step_Ok H]. repeat step_Ok H. done.
  - repeat step_Ok H. done.
Qed.

Lemma updateCommonBlueSet_keeps fuel bd tip bd' :
  updateCommonBlueSet iter fuel bd tip = Ok bd' -> keepsGraph bd bd'.
Proof.
  unfold updateCommonBlueSet. intros H.
  step_Ok H; [by apply updateCommonOrder_keeps in H|].
  step_Ok H. cbv zeta in H.
  step_Ok H; [by apply updateCommonOrder_keeps in H|].
  step_Ok H. step_Ok H; [by step_Ok H|].
  do 2 step_Ok H. step_Ok H; [by step_Ok H|].
  do 2 step_Ok H. step_Ok H.
  - do 4 step_Ok H.
    apply bind_Ok in H as (bd1 & Hbd1%updateCommonOrder_keeps & H).
    step_Ok H. eapply keepsGraph_trans; [exact Hbd1|done].
  - step_Ok H; [|by step_Ok H].
    apply bind_Ok in H as (bd1 & Hbd1%updateCommonOrder_keeps & H).
    step_Ok H. eapply keepsGraph_trans; [exact Hbd1|done].
Qed.

Lemma getTempBS_keeps fuel bd r : getTempBS iter fuel bd = Ok r -> keepsGraph bd r.1.
Proof.
  unfold getTempBS. intros H. step_Ok H; repeat step_Ok H; done.
Qed.

Lemma updateHourglass_keeps fuel bd bd' :
  updateHourglass iter fuel bd = Ok bd' -> keepsGraph bd bd'.
Proof.
  unfold updateHourglass. intros H.
  step_Ok H; [|by step_Ok H]. step_Ok H; [by step_Ok H|]. cbv zeta in H.
  step_Ok H; [by step_Ok H|]. step_Ok H. step_Ok H; [by step_Ok H|].
  apply bind_Ok in H as (r & Hr%getTempBS_keeps & H).
  do 2 step_Ok H. step_Ok H.
  eapply keepsGraph_trans; [|eapply keepsGraph_trans; [exact Hr|done]]. done.
Qed.

Lemma updateOrder_keeps fuel bd h r :
  updateOrder iter fuel bd h = Ok r -> keepsGraph bd r.1.
Proof.
  unfold updateOrder. intros H. cbv zeta in H.
  step_Ok H.
  { step_Ok H. eapply keepsGraph_trans; [|apply keepsGraph_setNodeHeight]. done. }
  apply bind_Ok in H as (r0 & Hr0%getTempBS_keeps & H).
  do 4 step_Ok H.
  apply bind_Ok in H as (bt & Hbt & H).
  assert (Hkeep : keepsGraph bd bt.1).
  { eapply keepsGraph_trans; [exact Hr0|].
    revert Hbt. apply (foldM_invariant (λ bt, keepsGraph r0.1 bt.1)); [|done].
    intros bt0 x bt1 _ Hk Hstep. step_Ok Hstep; [|by step_Ok Hstep].
    do 2 step_Ok Hstep. cbn.
    eapply keepsGraph_trans; [exact Hk|apply keepsGraph_setNodeHeight]. }
  step_Ok H. step_Ok H.
  { step_Ok H. cbn.
    eapply keepsGraph_trans; [|apply keepsGraph_setNodeHeight].
    eapply keepsGraph_trans; [exact Hkeep|done]. }
  step_Ok H; [|by step_Ok H]. step_Ok H.
  - step_Ok H. cbn.
    eapply keepsGraph_trans; [|apply keepsGraph_setNodeHeight].
    eapply keepsGraph_trans; [exact Hkeep|done].
  - step_Ok H. cbn. eapply keepsGraph_trans; [exact Hkeep|done].
Qed.

End Frame.

(** ** The invariant holds in every reachable state *)

Lemma newBlockDAG_dagOK k : dagOK (newBlockDAG k).
Proof.
  assert (Hp : ∀ h, parentsOf (newBlockDAG k) h = ∅) by done.
  assert (Hc : ∀ h, childrenOf (newBlockDAG k) h = ∅) by done.
  split; [split; [|split]|].
  - exists (λ _, 0%nat). split.
    + intros h node. unfold GetBlock. cbn. by rewrite lookup_empty.
    + intros h c. by rewrite Hp, Hc.
    + intros h p. by rewrite Hp, elem_of_empty.
    + intros h p. by rewrite Hp, elem_of_empty.
    + intros h. cbn. by rewrite dom_empty_L, elem_of_empty.
  - done.
  - intros h. rewrite Hp. intros p. by rewrite elem_of_empty.
  - intros h node. unfold GetBlock. cbn. by rewrite lookup_empty.
Qed.

Lemma counted_sameShape bd1 b num : sameShape bd1 (counted bd1 b num).
Proof.
  destruct num as [n|]; [|done]. split; [done|]. split; [done|].
  intros h. unfold GetBlock. cbn. destruct (decide (h = GetHash b)) as [->|Hne].
  - rewrite lookup_alter_eq. by destruct (bcIndex bd1 !! GetHash b).
  - by rewrite lookup_alter_ne.
Qed.

Lemma counted_self bd1 b num :
  GetBlock bd1 (GetHash b) = Some b ->
  GetPastSetNum <$> GetBlock (counted bd1 b num) (GetHash b)
  = Some (default (GetPastSetNum b) num).
Proof.
  intros Hb. destruct num as [n|]; cbn; [|by rewrite Hb].
  unfold GetBlock in *. cbn. by rewrite lookup_alter_eq, Hb.
Qed.

Lemma counted_other bd1 b num h :
  h ≠ GetHash b -> GetBlock (counted bd1 b num) h = GetBlock bd1 h.
Proof.
  intros Hne. destruct num as [n|]; [|done].
  unfold GetBlock. cbn. by rewrite lookup_alter_ne.
Qed.

Section Invariant.

Variable iter : gset N -> list N.
Hypothesis iter_perm : ∀ s, iter s ≡ₚ elements s.

Lemma AddBlock_entered fuel bd b :
  AddBlock iter fuel bd b
  = bd1 ← entered iter bd b;
    num ← calculatePastBlockSetNum iter fuel bd1 b;
    bd3 ← updateCommonBlueSet iter fuel (counted bd1 b num) (GetHash b);
    bd4 ← updateHourglass iter fuel bd3;
    updateOrder iter fuel bd4 (GetHash b).
Proof. unfold AddBlock, entered. by destruct (AddNode _ _ _). Qed.

Section Step.

Variables (bd : BlockDAG) (b : BlockNode) (bd1 : BlockDAG).
Hypothesis bd_ok : dagOK bd.
Hypothesis b_tip : GetChildren b = ∅.
Hypothesis b_fresh : GetPastSetNum b = 0.
Hypothesis b_independent : independent bd (GetParents b).
Hypothesis entered_ok : entered iter bd b = Ok bd1.

(** The size that [calculatePastBlockSetNum] computes for the block that has
    entered is the size of its past. *)
Lemma entered_size_right fuel num :
  calculatePastBlockSetNum iter fuel bd1 b = Ok num ->
  default 0 num = N.of_nat (size (pastOf bd1 (GetHash b))) mod 2 ^ 64.
Proof.
  destruct bd_ok as [([rank Hwf] & Htips & Hpar) Hcounts].
  pose proof (entered_wf iter iter_perm bd b bd1 rank entered_ok Hwf b_tip) as Hwf1.
  pose proof (entered_tipsOK iter iter_perm bd b bd1 entered_ok b_tip Htips)
    as (t1 & Ht1 & Hare & _ & Hgen).
  pose proof (entered_self iter bd b bd1 entered_ok) as Hself.
  pose proof (entered_parents iter bd b bd1 entered_ok) as Hparents.
  pose proof (entered_fresh iter bd b bd1 entered_ok) as Hnew.
  intros Hnum. rewrite <- b_fresh.
  apply (calculatePastBlockSetNum_size iter iter_perm bd1 _ Hwf1 b t1 Hself b_tip
           b_fresh Hgen) with (fuel := fuel); [|done|done| |done].
  - by apply (entered_independent iter iter_perm bd b bd1 rank).
  - intros p node Hp.
    apply (entered_counts iter iter_perm bd b bd1 rank); [done..|].
    intros ->. by apply Hnew, Hparents.
Qed.

(** With enough fuel it does compute one. *)
Lemma entered_size_computed fuel :
  (size (bcIndex bd1) < fuel)%nat ->
  ∃ num, calculatePastBlockSetNum iter fuel bd1 b = Ok num.
Proof.
  destruct bd_ok as [([rank Hwf] & Htips & Hpar) Hcounts].
  pose proof (entered_wf iter iter_perm bd b bd1 rank entered_ok Hwf b_tip) as Hwf1.
  pose proof (entered_tipsOK iter iter_perm bd b bd1 entered_ok b_tip Htips)
    as (t1 & Ht1 & Hare & _ & Hgen).
  pose proof (entered_self iter bd b bd1 entered_ok) as Hself.
  by apply (calculatePastBlockSetNum_total iter iter_perm bd1 _ Hwf1 b t1).
Qed.

Lemma counted_dagOK fuel num :
  calculatePastBlockSetNum iter fuel bd1 b = Ok num ->
  dagOK (counted bd1 b num).
Proof.
  intros Hnum. pose proof (entered_size_right _ _ Hnum) as Hsize.
  destruct bd_ok as [([rank Hwf] & Htips & Hpar) Hcounts].
  pose proof (entered_wf iter iter_perm bd b bd1 rank entered_ok Hwf b_tip) as Hwf1.
  pose proof (entered_tipsOK iter iter_perm bd b bd1 entered_ok b_tip Htips)
    as (t1 & Ht1 & Hare & Hgen & _).
  pose proof (entered_self iter bd b bd1 entered_ok) as Hself.
  pose proof (counted_sameShape bd1 b num) as Hshape.
  split.
  - apply (sameShape_graphOK bd1); [done|]. split; [|split].
    + by eexists.
    + unfold tipsOK. by rewrite Ht1.
    + by apply (entered_parentsOK iter iter_perm bd b bd1 rank).
  - intros h node Hnode. rewrite (sameShape_pastOf bd1) by done.
    destruct (decide (h = GetHash b)) as [->|Hne].
    + pose proof (counted_self bd1 b num Hself) as Hcount.
      rewrite Hnode in Hcount. injection Hcount as ->. by rewrite b_fresh.
    + rewrite counted_other in Hnode by done.
      by apply (entered_counts iter iter_perm bd b bd1 rank).
Qed.

End Step.

Lemma AddBlock_dagOK fuel bd b bd' refNodes :
  dagOK bd ->
  GetChildren b = ∅ -> GetPastSetNum b = 0 -> independent bd (GetParents b) ->
  AddBlock iter fuel bd b = Ok (bd', refNodes) ->
  dagOK bd'.
Proof.
  intros Hok Htip Hfresh Hind. rewrite AddBlock_entered.
  intros (bd1 & Hentered & H)%bind_Ok.
  apply bind_Ok in H as (num & Hnum & H).
  apply bind_Ok in H as (bd3 & H3%updateCommonBlueSet_keeps & H).
  apply bind_Ok in H as (bd4 & H4%updateHourglass_keeps & H5%updateOrder_keeps).
  apply (keepsGraph_dagOK bd4); [done|].
  apply (keepsGraph_dagOK bd3); [done|].
  apply (keepsGraph_dagOK (counted bd1 b num)); [done|].
  by eapply counted_dagOK.
Qed.

Lemma reachable_dagOK bd : reachable iter bd -> dagOK bd.
Proof.
  induction 1 as [k|fuel bd b bd' refNodes _ IH Htip Hfresh Hind Hadd].
  - apply newBlockDAG_dagOK.
  - by eapply AddBlock_dagOK.
Qed.

End Invariant.

Lemma AddBlocks_reachable iter fuel blocks bd bd' :
  reachable iter bd -> arrivals iter fuel bd blocks = true ->
  AddBlocks iter fuel bd blocks = Ok bd' -> reachable iter bd'.
Proof.
  revert bd. induction blocks as [|b rest IH]; intros bd Hbd Harr Hadd.
  - by injection Hadd as <-.
  - cbn [arrivals AddBlocks] in Harr, Hadd.
    destruct (AddBlock iter fuel bd b) as [[bd1 refNodes]|] eqn:Hb;
      [|by rewrite andb_false_r in Harr].
    apply andb_prop in Harr as [Harr Hrest].
    apply andb_prop in Harr as [Harr Hind%bool_decide_eq_true_1].
    apply andb_prop in Harr as [Htip%bool_decide_eq_true_1
                                Hfresh%bool_decide_eq_true_1].
    eapply IH; [|exact Hrest|exact Hadd]. by eapply reachable_add.
Qed.

(** ** The past-set size of the accepted blocks *)


(** Remark: the formula needs the antichain. The blocks 0; 1 on 0; 2 on 0
    and 1 are not blocks of the data model, block 2 naming a parent of its
    other parent. When the map of the parents of block 2 is visited by
    ascending hash, [parentsList[0]] is the genesis, whose anticone is
    empty, and block 2 gets the past-set size 1 while its past holds the 2
    blocks 0 and 1; visited by descending hash, [parentsList[0]] is block 1
    and block 2 gets the size 2. *)
Lemma past_count_of_redundant_parents :
  (∃ bd node,
     AddBlocks ascending 10 (newBlockDAG 3) redundantParent = Ok bd
     ∧ GetBlock bd 2 = Some node
     ∧ GetParents node = {[0; 1]}
     ∧ pastOf bd 2 = {[0; 1]}
     ∧ size (pastOf bd 2) = 2%nat
     ∧ GetPastSetNum node = 1
     ∧ GetPastSetNum node ≠ N.of_nat (size (pastOf bd 2)))
  ∧ (∃ bd node,
       AddBlocks descending 10 (newBlockDAG 3) redundantParent = Ok bd
       ∧ GetBlock bd 2 = Some node
       ∧ GetPastSetNum node = 2).
Proof.
  split.
  - eexists _, _. split; [vm_compute; reflexivity|].
    split; [vm_compute; reflexivity|].
    repeat split; try (vm_compute; reflexivity). vm_compute. discriminate.
  - eexists _, _. split; [vm_compute; reflexivity|].
    split; vm_compute; reflexivity.
Qed.


(* ===================================================================== *)
(** * Further properties of the block DAG engine *)
(* ===================================================================== *)

(** ** The counters of the DAG *)

Lemma sameTotals_refl bd : sameTotals bd bd.
Proof. done. Qed.

Lemma sameTotals_trans bd1 bd2 bd3 :
  sameTotals bd1 bd2 -> sameTotals bd2 bd3 -> sameTotals bd1 bd3.
Proof. intros (? & ? & ?) (? & ? & ?). repeat split; congruence. Qed.

Lemma sameTotals_setNodeHeight bd h x : sameTotals bd (setNodeHeight h x bd).
Proof. done. Qed.

Section Totals.

Variable iter : gset N -> list N.

Lemma updateCommonOrder_totals fuel bd tip blueSet isRollBack exclude cur start bd' :
  updateCommonOrder iter fuel bd tip blueSet isRollBack exclude cur start = Ok bd' ->
  sameTotals bd bd'.
Proof.
  unfold updateCommonOrder. intros H.
  step_Ok H; [by step_Ok H|]. step_Ok H. cbv zeta in H.
  match type of H with
  | context [if ?c then setCommonOrder ?x bd else bd] =>
      set (bd0 := if c then setCommonOrder x bd else bd) in H;
      assert (Hkeep : sameTotals bd bd0) by (subst bd0; by destruct c)
  end.
  clearbody bd0. eapply sameTotals_trans; [exact Hkeep|].
  step_Ok H.
  - destruct blueSet; [|by step_Ok H]. repeat step_Ok H. done.
  - repeat step_Ok H. done.
Qed.

Lemma updateCommonBlueSet_totals fuel bd tip bd' :
  updateCommonBlueSet iter fuel bd tip = Ok bd' -> sameTotals bd bd'.
Proof.
  unfold updateCommonBlueSet. intros H.
  step_Ok H; [by apply updateCommonOrder_totals in H|].
  step_Ok H. cbv zeta in H.
  step_Ok H; [by apply updateCommonOrder_totals in H|].
  step_Ok H. step_Ok H; [by step_Ok H|].
  do 2 step_Ok H. step_Ok H; [by step_Ok H|].
  do 2 step_Ok H. step_Ok H.
  - do 4 step_Ok H.
    apply bind_Ok in H as (bd1 & Hbd1%updateCommonOrder_totals & H).
    step_Ok H. eapply sameTotals_trans; [exact Hbd1|done].
  - step_Ok H; [|by step_Ok H].
    apply bind_Ok in H as (bd1 & Hbd1%updateCommonOrder_totals & H).
    step_Ok H. eapply sameTotals_trans; [exact Hbd1|done].
Qed.

Lemma getTempBS_totals fuel bd r : getTempBS iter fuel bd = Ok r -> sameTotals bd r.1.
Proof.
  unfold getTempBS. intros H. step_Ok H; repeat step_Ok H; done.
Qed.

Lemma updateHourglass_totals fuel bd bd' :
  updateHourglass iter fuel bd = Ok bd' -> sameTotals bd bd'.
Proof.
  unfold updateHourglass. intros H.
  step_Ok H; [|by step_Ok H]. step_Ok H; [by step_Ok H|]. cbv zeta in H.
  step_Ok H; [by step_Ok H|]. step_Ok H. step_Ok H; [by step_Ok H|].
  apply bind_Ok in H as (r & Hr%getTempBS_totals & H).
  do 2 step_Ok H. step_Ok H.
  eapply sameTotals_trans; [|eapply sameTotals_trans; [exact Hr|done]]. done.
Qed.

Lemma updateOrder_totals fuel bd h r :
  updateOrder iter fuel bd h = Ok r -> sameTotals bd r.1.
Proof.
  unfold updateOrder. intros H. cbv zeta in H.
  step_Ok H.
  { step_Ok H. eapply sameTotals_trans; [|apply sameTotals_setNodeHeight]. done. }
  apply bind_Ok in H as (r0 & Hr0%getTempBS_totals & H).
  do 4 step_Ok H.
  apply bind_Ok in H as (bt & Hbt & H).
  assert (Hkeep : sameTotals bd bt.1).
  { eapply sameTotals_trans; [exact Hr0|].
    revert Hbt. apply (foldM_invariant (λ bt, sameTotals r0.1 bt.1)); [|done].
    intros bt0 x bt1 _ Hk Hstep. step_Ok Hstep; [|by step_Ok Hstep].
    do 2 step_Ok Hstep. cbn.
    eapply sameTotals_trans; [exact Hk|apply sameTotals_setNodeHeight]. }
  step_Ok H. step_Ok H.
  { step_Ok H. cbn.
    eapply sameTotals_trans; [|apply sameTotals_setNodeHeight].
    eapply sameTotals_trans; [exact Hkeep|done]. }
  step_Ok H; [|by step_Ok H]. step_Ok H.
  - step_Ok H. cbn.
    eapply sameTotals_trans; [|apply sameTotals_setNodeHeight].
    eapply sameTotals_trans; [exact Hkeep|done].
  - step_Ok H. cbn. eapply sameTotals_trans; [exact Hkeep|done].
Qed.

End Totals.

(** ** The invariant of the inserted states *)

Lemma sameShape_shapeOK bd bd' : sameShape bd bd' -> shapeOK bd -> shapeOK bd'.
Proof.
  intros Hsame [[rank Hwf] Htips]. split.
  - exists rank. by apply (sameShape_wfGraph bd).
  - unfold tipsOK in *. pose proof Hsame as (Hg & Ht & Hs). rewrite Ht, Hg.
    assert (Hdom : dom (bcIndex bd') = dom (bcIndex bd))
      by (by apply sameShape_dom).
    destruct (tips bd).
    + rewrite Hdom. destruct Htips as [Hgen Hare].
      split; [done|by apply (sameShape_tipsAre bd)].
    + apply dom_empty_iff_L. rewrite Hdom. by apply dom_empty_iff_L.
Qed.

Lemma newBlockDAG_shapeOK k : shapeOK (newBlockDAG k).
Proof. destruct (newBlockDAG_dagOK k) as [(Hwf & Htips & _) _]. by split. Qed.

Lemma updateTips_totals iter bd b : sameTotals bd (updateTips iter bd b).
Proof. unfold updateTips. by destruct (tips bd). Qed.

Lemma counted_totals bd1 b num : sameTotals bd1 (counted bd1 b num).
Proof. by destruct num. Qed.

Lemma keepsGraph_lookup bd bd' h node :
  keepsGraph bd bd' -> GetBlock bd h = Some node ->
  ∃ node', GetBlock bd' h = Some node'
           ∧ SetHeight 0 node' = SetHeight 0 node.
Proof.
  intros Hk Hnode. pose proof (keepsGraph_node _ _ h Hk) as Hh.
  rewrite Hnode in Hh. destruct (GetBlock bd' h) as [node'|]; [|done].
  exists node'. split; [done|]. cbn in Hh. congruence.
Qed.

Section Inserted.

Variable iter : gset N -> list N.
Hypothesis iter_perm : ∀ s, iter s ≡ₚ elements s.

Lemma entered_total bd b bd1 :
  entered iter bd b = Ok bd1 ->
  totalBlocks bd1 = (totalBlocks bd + 1) mod 2 ^ 64
  ∧ anticoneSize bd1 = anticoneSize bd.
Proof.
  unfold entered. intros (idx & _ & H)%bind_Ok. cbv zeta in H.
  injection H as <-.
  match goal with
  | |- context [updateTips iter ?x b] =>
      destruct (updateTips_totals iter x b) as (Ht & _ & Ha)
  end.
  rewrite Ht, Ha. by destruct (_ <? _)%Z.
Qed.

Lemma entered_genesis bd b bd1 :
  entered iter bd b = Ok bd1 ->
  genesis bd1 = match tips bd with None => GetHash b | Some _ => genesis bd end.
Proof.
  intros (_ & _ & bd0 & -> & _ & Ht & Hg)%entered_inv.
  by rewrite updateTips_genesis, Ht, Hg.
Qed.

(** The phases of [AddBlock]: the states in between. *)
Lemma AddBlock_phases fuel bd b bd' refNodes :
  AddBlock iter fuel bd b = Ok (bd', refNodes) ->
  ∃ bd1 num,
    entered iter bd b = Ok bd1
    ∧ calculatePastBlockSetNum iter fuel bd1 b = Ok num
    ∧ keepsGraph (counted bd1 b num) bd'
    ∧ sameTotals (counted bd1 b num) bd'.
Proof.
  rewrite AddBlock_entered.
  intros (bd1 & Hentered & H)%bind_Ok.
  apply bind_Ok in H as (num & Hnum & H).
  apply bind_Ok in H as (bd3 & H3 & H).
  apply bind_Ok in H as (bd4 & H4 & H5).
  exists bd1, num. split; [done|]. split; [done|]. split.
  - eapply keepsGraph_trans; [by eapply updateCommonBlueSet_keeps|].
    eapply keepsGraph_trans; [by eapply updateHourglass_keeps|].
    by apply updateOrder_keeps in H5.
  - eapply sameTotals_trans; [by eapply updateCommonBlueSet_totals|].
    eapply sameTotals_trans; [by eapply updateHourglass_totals|].
    by apply updateOrder_totals in H5.
Qed.

(** The index after [AddBlock]: the block is new, its parents are not. *)
Lemma AddBlock_dom fuel bd b bd' refNodes :
  AddBlock iter fuel bd b = Ok (bd', refNodes) ->
  (GetHash b ∉ dom (bcIndex bd))
  ∧ GetParents b ⊆ dom (bcIndex bd)
  ∧ dom (bcIndex bd') = {[GetHash b]} ∪ dom (bcIndex bd).
Proof.
  intros Hadd.
  destruct (AddBlock_phases _ _ _ _ _ Hadd) as (bd1 & num & Hent & _ & Hk & _).
  destruct (entered_inv iter bd b bd1 Hent) as (Hfresh & Hparents & _).
  split; [done|]. split; [done|].
  rewrite <- (entered_dom iter iter_perm bd b bd1 Hent).
  rewrite (sameShape_dom (counted bd1 b num) bd')
    by by apply keepsGraph_sameShape.
  apply sameShape_dom, counted_sameShape.
Qed.

Lemma AddBlock_totalOK fuel bd b bd' refNodes :
  AddBlock iter fuel bd b = Ok (bd', refNodes) -> totalOK bd -> totalOK bd'.
Proof.
  unfold totalOK. intros Hadd Htotal.
  destruct (AddBlock_phases _ _ _ _ _ Hadd) as (bd1 & num & Hent & _ & Hk & Ht).
  destruct Ht as (-> & _). destruct (counted_totals bd1 b num) as (-> & _).
  destruct (entered_total _ _ _ Hent) as [-> _]. rewrite Htotal.
  assert (Hsize : size (bcIndex bd') = S (size (bcIndex bd))).
  { rewrite <- (entered_size iter iter_perm bd b bd1 Hent).
    rewrite (sameShape_size (counted bd1 b num) bd')
      by by apply keepsGraph_sameShape.
    apply sameShape_size, counted_sameShape. }
  rewrite Hsize, N.Div0.add_mod_idemp_l. f_equal. lia.
Qed.

(** The blocks of a list inserted one after the other: the index and the
    counter. *)
Lemma AddBlocks_dom fuel blocks bd bd' :
  AddBlocks iter fuel bd blocks = Ok bd' ->
  dom (bcIndex bd') = list_to_set (GetHash <$> blocks) ∪ dom (bcIndex bd)
  ∧ NoDup (GetHash <$> blocks)
  ∧ (∀ h, h ∈ GetHash <$> blocks -> h ∉ dom (bcIndex bd))
  ∧ (totalOK bd -> totalOK bd').
Proof.
  revert bd. induction blocks as [|b rest IH]; intros bd Hadd.
  - injection Hadd as <-. cbn. split; [set_solver|]. split; [constructor|].
    split; [|done]. by intros h ?%elem_of_nil.
  - cbn [AddBlocks] in Hadd.
    destruct (AddBlock iter fuel bd b) as [[bd1 refNodes]|] eqn:Hb; [|done].
    destruct (AddBlock_dom _ _ _ _ _ Hb) as (Hfresh & _ & Hdom1).
    destruct (IH _ Hadd) as (Hdom & Hnodup & Hnew & Htotal).
    cbn [fmap list_fmap list_to_set]. split; [|split; [|split]].
    + rewrite Hdom, Hdom1. set_solver.
    + constructor; [|done]. intros Hin%Hnew. apply Hin. rewrite Hdom1.
      apply elem_of_union. left. by apply elem_of_singleton.
    + intros h [->|Hin]%elem_of_cons; [done|]. apply Hnew in Hin.
      rewrite Hdom1 in Hin. set_solver.
    + intros Hok. by eapply Htotal, AddBlock_totalOK.
Qed.

Section Step.

Variables (fuel : nat) (bd : BlockDAG) (b : BlockNode) (bd' : BlockDAG)
  (refNodes : list N).
Hypothesis b_tip : GetChildren b = ∅.
Hypothesis added : AddBlock iter fuel bd b = Ok (bd', refNodes).

Lemma AddBlock_shapeOK : shapeOK bd -> shapeOK bd'.
Proof.
  intros [[rank Hwf] Htips].
  destruct (AddBlock_phases _ _ _ _ _ added) as (bd1 & num & Hent & _ & Hk & _).
  apply (sameShape_shapeOK (counted bd1 b num)); [by apply keepsGraph_sameShape|].
  apply (sameShape_shapeOK bd1); [apply counted_sameShape|].
  destruct (entered_tipsOK iter iter_perm bd b bd1 Hent b_tip Htips)
    as (t1 & Ht1 & Hare & Hgen & _).
  split.
  - eexists. by apply (entered_wf iter iter_perm bd b bd1 rank Hent Hwf b_tip).
  - unfold tipsOK. by rewrite Ht1.
Qed.

(** The block that was added is a tip. *)
Lemma AddBlock_new_tip :
  shapeOK bd -> ∃ t, tips bd' = Some t ∧ GetHash b ∈ t.
Proof.
  intros [[rank Hwf] Htips].
  destruct (AddBlock_phases _ _ _ _ _ added) as (bd1 & num & Hent & _ & Hk & _).
  destruct (entered_tipsOK iter iter_perm bd b bd1 Hent b_tip Htips)
    as (t1 & Ht1 & Hare & _ & _).
  exists t1. split.
  - destruct Hk as (_ & -> & _). by destruct num.
  - apply Hare. rewrite (entered_dom iter iter_perm bd b bd1 Hent).
    split; [apply elem_of_union; left; by apply elem_of_singleton|].
    rewrite (entered_childrenOf iter iter_perm bd b bd1 Hent b_tip).
    by rewrite decide_True.
Qed.

Lemma AddBlock_genesis :
  genesis bd' = match tips bd with None => GetHash b | Some _ => genesis bd end.
Proof.
  destruct (AddBlock_phases _ _ _ _ _ added) as (bd1 & num & Hent & _ & Hk & _).
  destruct Hk as (-> & _). rewrite <- (entered_genesis _ _ _ Hent).
  by destruct num.
Qed.

Lemma AddBlock_genesisOK : shapeOK bd -> genesisOK bd -> genesisOK bd'.
Proof.
  intros [[rank Hwf] Htips] Hgen _.
  destruct (AddBlock_phases _ _ _ _ _ added) as (bd1 & num & Hent & Hnum & Hk & _).
  pose proof (entered_genesis _ _ _ Hent) as Hg1.
  assert (Hg' : genesis bd' = genesis bd1).
  { destruct Hk as (-> & _). by destruct num. }
  assert (∃ node, GetBlock (counted bd1 b num) (genesis bd1) = Some node
                  ∧ GetParents node = ∅ ∧ GetPastSetNum node = 0)
    as (node & Hnode & Hpar & Hcount).
  { pose proof (entered_self iter bd b bd1 Hent) as Hself.
    pose proof (entered_parents iter bd b bd1 Hent) as Hparents.
    pose proof (entered_fresh iter bd b bd1 Hent) as Hfresh.
    unfold tipsOK in Htips. destruct (tips bd) as [t|] eqn:Ht.
    - destruct Htips as [Hin _]. rewrite Hg1.
      assert (Hne : genesis bd ≠ GetHash b) by (by intros Heq; rewrite Heq in Hin).
      destruct Hgen as (node & Hnode & Hpar & Hcount).
      { intros Hempty. by rewrite Hempty, dom_empty_L, elem_of_empty in Hin. }
      rewrite counted_other by done.
      rewrite (entered_other iter iter_perm bd b bd1 Hent) by done.
      rewrite Hnode. destruct (decide (genesis bd ∈ GetParents b)); by eexists.
    - rewrite Hg1. unfold calculatePastBlockSetNum in Hnum.
      rewrite Hg1, N.eqb_refl in Hnum. injection Hnum as <-.
      exists (SetPastSetNum 0 b). split; [|split; [|done]].
      + unfold counted, GetBlock in *. cbn. by rewrite lookup_alter_eq, Hself.
      + cbn. apply set_eq. intros p. rewrite elem_of_empty. split; [|done].
        intros Hp%Hparents. by rewrite Htips, dom_empty_L, elem_of_empty in Hp. }
  destruct (keepsGraph_lookup _ _ _ _ Hk Hnode) as (node' & Hnode' & Heq).
  exists node'. rewrite Hg'. split; [done|].
  destruct node as [h1 p1 c1 t1 n1 g1], node' as [h2 p2 c2 t2 n2 g2].
  cbn in *. by simplify_eq.
Qed.

End Step.

Lemma inserted_invariant bd :
  inserted iter bd -> shapeOK bd ∧ genesisOK bd ∧ totalOK bd.
Proof.
  induction 1 as [k|fuel bd b bd' refNodes _ (Hshape & Hgen & Htotal) Htip Hadd].
  - split; [apply newBlockDAG_shapeOK|]. split; [by intros []|done].
  - split; [by eapply AddBlock_shapeOK|].
    split; [by eapply AddBlock_genesisOK|by eapply AddBlock_totalOK].
Qed.

End Inserted.

Lemma reachable_inserted iter bd : reachable iter bd -> inserted iter bd.
Proof.
  induction 1 as [k|fuel bd b bd' refNodes _ IH Htip _ _ Hadd];
    [apply inserted_new|by eapply inserted_add].
Qed.

Lemma AddBlocks_inserted iter fuel blocks bd bd' :
  inserted iter bd -> insertions iter fuel bd blocks = true ->
  AddBlocks iter fuel bd blocks = Ok bd' -> inserted iter bd'.
Proof.
  revert bd. induction blocks as [|b rest IH]; intros bd Hbd Harr Hadd.
  - by injection Hadd as <-.
  - cbn [insertions AddBlocks] in Harr, Hadd.
    destruct (AddBlock iter fuel bd b) as [[bd1 refNodes]|] eqn:Hb;
      [|by rewrite andb_false_r in Harr].
    apply andb_prop in Harr as [Htip%bool_decide_eq_true_1 Hrest].
    eapply IH; [|exact Hrest|exact Hadd]. by eapply inserted_add.
Qed.

(** ** The graph queries in the inserted states *)

Lemma built_inserted iter blocks :
  insertions iter 10 (newBlockDAG 3) blocks = true -> inserted iter (built iter blocks).
Proof.
  intros Hins. unfold built.
  destruct (AddBlocks iter 10 (newBlockDAG 3) blocks) as [bd|] eqn:Hadd;
    [|apply inserted_new].
  eapply AddBlocks_inserted; [apply inserted_new|exact Hins|exact Hadd].
Qed.

Lemma diamondDAG_inserted : inserted ascending diamondDAG.
Proof. apply built_inserted. vm_compute. reflexivity. Qed.

(** X1. In every state built from the empty DAG by insertions that
    [AddBlock] accepts, of blocks that arrive without children, and for every
    order of map iteration: [tips] is [nil] exactly as long as the index is
    empty, and after that it is the set of the blocks of the index that have
    no children, which is never empty. *)
Theorem tips_are_the_childless_blocks (iter : gset N -> list N) (bd : BlockDAG) :
  (∀ s, iter s ≡ₚ elements s) ->
  inserted iter bd ->
  match tips bd with
  | None => bcIndex bd = ∅
  | Some t =>
      bcIndex bd ≠ ∅ ∧ t ≠ ∅
      ∧ ∀ h, h ∈ t ↔ h ∈ dom (bcIndex bd) ∧ childrenOf bd h = ∅
  end.
Proof.
  intros iter_perm Hins.
  destruct (inserted_invariant iter iter_perm bd Hins) as ([_ Htips] & _ & _).
  unfold tipsOK in Htips. destruct (tips bd) as [t|] eqn:Ht; [|done].
  destruct Htips as [Hgen Hare]. split; [|split; [|exact Hare]].
  - intros Hempty. by rewrite Hempty, dom_empty_L, elem_of_empty in Hgen.
  - inversion Hins as [k Hk|fuel bd0 b bd1 refNodes Hins0 Htip Hadd Hbd];
      [by subst bd|]. subst bd1.
    destruct (inserted_invariant iter iter_perm bd0 Hins0) as (Hshape0 & _ & _).
    destruct (AddBlock_new_tip iter iter_perm fuel bd0 b bd refNodes Htip Hadd
                Hshape0) as (t' & Ht' & Hin).
    rewrite Ht in Ht'. injection Ht' as <-. intros Hempty.
    by rewrite Hempty, elem_of_empty in Hin.
Qed.

(** The theorem at the diamond: block 3 is its only tip. *)
Lemma tips_are_the_childless_blocks_witness :
  match tips diamondDAG with
  | None => bcIndex diamondDAG = ∅
  | Some t =>
      bcIndex diamondDAG ≠ ∅ ∧ t ≠ ∅
      ∧ ∀ h, h ∈ t ↔ h ∈ dom (bcIndex diamondDAG) ∧ childrenOf diamondDAG h = ∅
  end.
Proof.
  apply (tips_are_the_childless_blocks ascending diamondDAG);
    [exact ascending_perm|exact diamondDAG_inserted].
Defined.

(** X2. In every inserted state and for every order of map iteration,
    [GetFutureSet], called with an empty set on a block of the index and with
    more fuel than the index has blocks, returns, and the set it returns
    holds exactly the descendants of the block: the blocks from which a path
    of parent links leads to it. *)
Theorem GetFutureSet_collects_the_descendants (iter : gset N -> list N)
    (bd : BlockDAG) (h : N) (node : BlockNode) (fuel : nat) :
  (∀ s, iter s ≡ₚ elements s) ->
  inserted iter bd ->
  GetBlock bd h = Some node ->
  (size (bcIndex bd) < fuel)%nat ->
  ∃ fs, GetFutureSet iter fuel bd ∅ node = Ok fs
        ∧ fs = futureOf bd h
        ∧ ∀ x, x ∈ fs ↔ anc bd h x.
Proof.
  intros iter_perm Hins Hnode Hfuel.
  destruct (inserted_invariant iter iter_perm bd Hins) as ([[rank Hwf] _] & _ & _).
  pose proof (childrenOf_node _ _ _ Hnode) as Hkids.
  destruct fuel as [|fuel]; [lia|].
  destruct (GetFutureSet_total iter iter_perm bd rank Hwf fuel ∅ node)
    as [fs Hfs].
  { intros c Hc. rewrite <- Hkids in Hc. split; [by eapply child_dom|lia]. }
  exists fs. split; [done|].
  assert (Heq : fs = futureOf bd h)
    by (by eapply (GetFutureSet_future iter iter_perm bd rank Hwf)).
  split; [done|]. intros x. rewrite Heq. by eapply elem_of_futureOf.
Qed.

(** The theorem at the diamond: the future of block 1 is block 3. *)
Lemma GetFutureSet_collects_the_descendants_witness :
  ∃ node fs,
    GetBlock diamondDAG 1 = Some node
    ∧ GetFutureSet ascending 10 diamondDAG ∅ node = Ok fs
    ∧ fs = futureOf diamondDAG 1
    ∧ ∀ x, x ∈ fs ↔ anc diamondDAG 1 x.
Proof.
  assert (∃ node, GetBlock diamondDAG 1 = Some node) as [node Hnode]
    by (eexists; vm_compute; reflexivity).
  destruct (GetFutureSet_collects_the_descendants ascending diamondDAG 1 node 10
              ascending_perm diamondDAG_inserted Hnode) as (fs & Hfs);
    [vm_compute; lia|].
  exists node, fs. split; [exact Hnode|exact Hfs].
Defined.

(** X3. In every inserted state and for every order of map iteration,
    [GetAnticone], called on a block [h] of the index with more fuel than the
    index has blocks, returns, and the set it returns holds exactly the
    blocks of the index other than [h] that are neither ancestors nor
    descendants of [h] and are not in the [exclude] set. *)
Theorem GetAnticone_is_the_anticone (iter : gset N -> list N) (bd : BlockDAG)
    (h : N) (node : BlockNode) (exclude : option (gset N)) (fuel : nat) :
  (∀ s, iter s ≡ₚ elements s) ->
  inserted iter bd ->
  GetBlock bd h = Some node ->
  (size (bcIndex bd) < fuel)%nat ->
  ∃ r, GetAnticone iter fuel bd node exclude = Ok r
       ∧ ∀ x, x ∈ r
              ↔ x ∈ dom (bcIndex bd) ∧ x ≠ h ∧ ¬ anc bd x h ∧ ¬ anc bd h x
                ∧ match exclude with Some e => x ∉ e | None => True end.
Proof.
  intros iter_perm Hins Hnode Hfuel.
  destruct (inserted_invariant iter iter_perm bd Hins)
    as ([[rank Hwf] Htips] & _ & _).
  pose proof (childrenOf_node _ _ _ Hnode) as Hkids.
  unfold tipsOK in Htips. destruct (tips bd) as [t|] eqn:Ht.
  - destruct Htips as [_ Hare].
    destruct (GetAnticone_total iter iter_perm bd rank Hwf fuel t node exclude
                Ht Hare Hfuel) as [r Hr].
    { intros c Hc. rewrite <- Hkids in Hc. by eapply child_dom. }
    exists r. split; [done|].
    apply (GetAnticone_anticone iter iter_perm bd rank Hwf fuel t node h exclude r
             Ht Hare) in Hr; [|by eapply (wf_hash _ _ Hwf)|by rewrite Hkids].
    intros x. rewrite Hr. destruct exclude as [e|]; cbn.
    + rewrite elem_of_difference, (elem_of_anticoneOf bd rank Hwf). tauto.
    + rewrite (elem_of_anticoneOf bd rank Hwf). tauto.
  - unfold GetBlock in Hnode. by rewrite Htips, lookup_empty in Hnode.
Qed.

(** The theorem at the diamond: the anticone of block 1 is block 2. *)
Lemma GetAnticone_is_the_anticone_witness :
  ∃ node r,
    GetBlock diamondDAG 1 = Some node
    ∧ GetAnticone ascending 10 diamondDAG node None = Ok r
    ∧ ∀ x, x ∈ r
           ↔ x ∈ dom (bcIndex diamondDAG) ∧ x ≠ 1
             ∧ ¬ anc diamondDAG x 1 ∧ ¬ anc diamondDAG 1 x ∧ True.
Proof.
  assert (∃ node, GetBlock diamondDAG 1 = Some node) as [node Hnode]
    by (eexists; vm_compute; reflexivity).
  destruct (GetAnticone_is_the_anticone ascending diamondDAG 1 node None 10
              ascending_perm diamondDAG_inserted Hnode) as (r & Hr);
    [vm_compute; lia|].
  exists node, r. split; [exact Hnode|exact Hr].
Defined.

(** X4. When [AddBlock] accepts a block, for every order of map iteration:
    the block was not in the index and its parents were; the index holds the
    blocks it held and the new one; every block it held keeps its hash, its
    parents, its timestamp and its past-set size, and its children are the
    old ones, with the new block added when it is one of the parents of the
    new block. *)
Theorem AddBlock_keeps_the_old_blocks (iter : gset N -> list N) (fuel : nat)
    (bd : BlockDAG) (b : BlockNode) (bd' : BlockDAG) (refNodes : list N) :
  (∀ s, iter s ≡ₚ elements s) ->
  AddBlock iter fuel bd b = Ok (bd', refNodes) ->
  (GetHash b ∉ dom (bcIndex bd))
  ∧ GetParents b ⊆ dom (bcIndex bd)
  ∧ dom (bcIndex bd') = {[GetHash b]} ∪ dom (bcIndex bd)
  ∧ ∀ x node,
      GetBlock bd x = Some node ->
      ∃ node',
        GetBlock bd' x = Some node'
        ∧ GetHash node' = GetHash node
        ∧ GetParents node' = GetParents node
        ∧ GetTimestamp node' = GetTimestamp node
        ∧ GetPastSetNum node' = GetPastSetNum node
        ∧ GetChildren node'
          = if decide (x ∈ GetParents b)
            then GetChildren node ∪ {[GetHash b]} else GetChildren node.
Proof.
  intros iter_perm Hadd.
  destruct (AddBlock_dom iter iter_perm fuel bd b bd' refNodes Hadd)
    as (Hfresh & Hparents & Hdom).
  destruct (AddBlock_phases iter fuel bd b bd' refNodes Hadd)
    as (bd1 & num & Hent & _ & Hk & _).
  split; [done|]. split; [done|]. split; [done|].
  - intros x node Hnode.
    assert (Hne : x ≠ GetHash b).
    { intros ->. apply Hfresh, GetBlock_dom. by eexists. }
    assert (∃ node1, GetBlock (counted bd1 b num) x = Some node1
                     ∧ node1 = if decide (x ∈ GetParents b)
                               then addChild (GetHash b) node else node)
      as (node1 & Hnode1 & Heq).
    { rewrite counted_other by done.
      rewrite (entered_other iter iter_perm bd b bd1 Hent) by done.
      rewrite Hnode. destruct (decide (x ∈ GetParents b)); by eexists. }
    destruct (keepsGraph_lookup _ _ _ _ Hk Hnode1) as (node' & Hnode' & Hsame).
    exists node'. split; [done|]. subst node1.
    destruct (decide (x ∈ GetParents b));
      destruct node' as [h1 p1 c1 t1 n1 g1], node as [h2 p2 c2 t2 n2 g2];
      cbn in *; by simplify_eq.
Qed.

(** The theorem at the last insertion of the diamond: blocks 1 and 2 get the
    child 3. *)
Lemma AddBlock_keeps_the_old_blocks_witness :
  ∃ bd' refNodes,
    AddBlock ascending 10 (built ascending redundantParent) (arriving 3 [1; 2])
    = Ok (bd', refNodes)
    ∧ dom (bcIndex bd')
      = {[GetHash (arriving 3 [1; 2])]}
        ∪ dom (bcIndex (built ascending redundantParent)).
Proof.
  eexists _, _. split; [vm_compute; reflexivity|].
  eapply (AddBlock_keeps_the_old_blocks ascending 10
            (built ascending redundantParent) (arriving 3 [1; 2]));
    [exact ascending_perm|vm_compute; reflexivity].
Defined.

(** X5. After the blocks of a list are inserted one after the other into
    the empty DAG, every insertion accepted by [AddBlock], and for every
    order of map iteration: [GetBlockCount] is the number of the blocks of
    the list, as a [uint64]; the hashes of the blocks are distinct; and
    [HasBlock] holds of the hashes of the blocks of the list and of no
    other. *)
Theorem GetBlockCount_counts_the_insertions (iter : gset N -> list N)
    (fuel : nat) (k : Z) (blocks : list BlockNode) (bd : BlockDAG) :
  (∀ s, iter s ≡ₚ elements s) ->
  AddBlocks iter fuel (newBlockDAG k) blocks = Ok bd ->
  GetBlockCount bd = N.of_nat (length blocks) mod 2 ^ 64
  ∧ NoDup (GetHash <$> blocks)
  ∧ ∀ h, HasBlock bd h = true ↔ h ∈ GetHash <$> blocks.
Proof.
  intros iter_perm Hadd.
  destruct (AddBlocks_dom iter iter_perm fuel blocks _ _ Hadd)
    as (Hdom & Hnodup & _ & Htotal).
  assert (Hdom' : dom (bcIndex bd) = list_to_set (GetHash <$> blocks)).
  { rewrite Hdom. cbn. rewrite dom_empty_L. set_solver. }
  split; [|split; [done|]].
  - unfold GetBlockCount. rewrite Htotal by done.
    rewrite <- size_dom, Hdom', size_list_to_set by done.
    by rewrite length_fmap.
  - intros h. rewrite <- (elem_of_list_to_set (C := gset N)), <- Hdom', GetBlock_dom.
    unfold HasBlock. destruct (GetBlock bd h); split; done || by intros [? ?].
Qed.

(** The theorem at the diamond: 4 blocks. *)
Lemma GetBlockCount_counts_the_insertions_witness :
  ∃ bd, AddBlocks ascending 10 (newBlockDAG 3) diamond = Ok bd
        ∧ GetBlockCount bd = N.of_nat (length diamond) mod 2 ^ 64.
Proof.
  eexists. split; [vm_compute; reflexivity|].
  eapply (GetBlockCount_counts_the_insertions ascending 10 3 diamond);
    [exact ascending_perm|vm_compute; reflexivity].
Defined.

(** X6. In every inserted state and for every order of map iteration: the
    genesis of a DAG that is not empty is a block of the index, without
    parents and with the past-set size 0; the first block that [AddBlock]
    accepts becomes the genesis, and a later insertion never changes it. *)
Theorem genesis_is_the_first_block (iter : gset N -> list N) (bd : BlockDAG) :
  (∀ s, iter s ≡ₚ elements s) ->
  inserted iter bd ->
  (bcIndex bd ≠ ∅ ->
   ∃ node, GetBlock bd (genesis bd) = Some node
           ∧ GetParents node = ∅ ∧ GetPastSetNum node = 0)
  ∧ ∀ fuel b bd' refNodes,
      AddBlock iter fuel bd b = Ok (bd', refNodes) ->
      genesis bd' = if bool_decide (bcIndex bd = ∅) then GetHash b else genesis bd.
Proof.
  intros iter_perm Hins.
  destruct (inserted_invariant iter iter_perm bd Hins) as ([_ Htips] & Hgen & _).
  split; [exact Hgen|]. intros fuel b bd' refNodes Hadd.
  rewrite (AddBlock_genesis iter fuel bd b bd' refNodes Hadd).
  unfold tipsOK in Htips. destruct (tips bd) as [t|].
  - destruct Htips as [Hin _]. rewrite bool_decide_eq_false_2; [done|].
    intros Hempty. by rewrite Hempty, dom_empty_L, elem_of_empty in Hin.
  - by rewrite bool_decide_eq_true_2.
Qed.

(** The theorem at the diamond: block 0 is the genesis. *)
Lemma genesis_is_the_first_block_witness :
  ∃ node, GetBlock diamondDAG (genesis diamondDAG) = Some node
          ∧ GetParents node = ∅ ∧ GetPastSetNum node = 0.
Proof.
  apply (genesis_is_the_first_block ascending diamondDAG);
    [exact ascending_perm|exact diamondDAG_inserted|].
  vm_compute. discriminate.
Defined.

(** ** The sort of a block set *)

Lemma sbLess_irrefl a : sbLess a a = false.
Proof. unfold sbLess. rewrite N.eqb_refl. apply N.ltb_irrefl. Qed.

Lemma sbLess_total a b : sbLess a b = false -> sbLe b a.
Proof.
  unfold sbLe, sbLess. destruct a as [h1 n1], b as [h2 n2]. cbn.
  destruct (N.eqb_spec n1 n2) as [->|Hne].
  - rewrite N.eqb_refl. intros Hlt%N.ltb_ge.
    destruct (decide (h1 = h2)) as [->|Hh]; [by right|].
    left. apply N.ltb_lt. lia.
  - intros Hlt%N.ltb_ge. left.
    destruct (N.eqb_spec n2 n1) as [?|_]; [congruence|]. apply N.ltb_lt. lia.
Qed.

Lemma sbLe_trans : Transitive sbLe.
Proof.
  intros a b c [Hab| ->] [Hbc| ->]; [|by left|by left|by right].
  left. unfold sbLess in *. destruct a as [h1 n1], b as [h2 n2], c as [h3 n3].
  cbn in *.
  destruct (N.eqb_spec n1 n2), (N.eqb_spec n2 n3), (N.eqb_spec n1 n3);
    try apply N.ltb_lt in Hab; try apply N.ltb_lt in Hbc;
    try apply N.ltb_lt; lia.
Qed.

Lemma sbLe_antisymm : AntiSymm (=) sbLe.
Proof.
  intros a b [Hab|?] [Hba|?]; try done.
  unfold sbLess in *. destruct a as [h1 n1], b as [h2 n2]. cbn in *.
  destruct (N.eqb_spec n1 n2), (N.eqb_spec n2 n1);
    apply N.ltb_lt in Hab; apply N.ltb_lt in Hba; lia.
Qed.

Lemma sbInsert_perm x l : sbInsert x l ≡ₚ x :: l.
Proof.
  induction l as [|y l IH]; [done|]. cbn.
  destruct (sbLess x y); [done|]. rewrite IH. apply perm_swap.
Qed.

Lemma sbInsert_sorted x l : Sorted sbLe l -> Sorted sbLe (sbInsert x l).
Proof.
  induction l as [|y l IH]; intros Hl; [by repeat constructor|]. cbn.
  destruct (sbLess x y) eqn:Hxy.
  - constructor; [done|]. constructor. by left.
  - apply Sorted_inv in Hl as [Hl Hhd]. constructor; [by apply IH|].
    destruct l as [|z l]; cbn.
    + constructor. by apply sbLess_total.
    + destruct (sbLess x z); constructor; [by apply sbLess_total|].
      by apply HdRel_inv in Hhd.
Qed.

Lemma sortBlocks_perm l : sortBlocks l ≡ₚ l.
Proof.
  induction l as [|x l IH]; [done|]. cbn. by rewrite sbInsert_perm, IH.
Qed.

Lemma sortBlocks_sorted l : Sorted sbLe (sortBlocks l).
Proof.
  induction l as [|x l IH]; [constructor|]. cbn. by apply sbInsert_sorted.
Qed.

(** Two lists with the same records are sorted into the same sequence. *)
Lemma sortBlocks_unique l1 l2 : l1 ≡ₚ l2 -> sortBlocks l1 = sortBlocks l2.
Proof.
  intros Hperm.
  apply (@Sorted_unique _ sbLe sbLe_trans sbLe_antisymm);
    try apply sortBlocks_sorted.
  by rewrite !sortBlocks_perm.
Qed.

(** The loop of [sortBlockSet]. *)
Lemma sortBlockSet_loop bd bs (l : list N) (acc : list SortBlock * list SortBlock) :
  foldM (λ (acc : list SortBlock * list SortBlock) k,
           node ← derefBlock bd k;
           if hasOpt bs k
           then Ok (acc.1 ++ [mkSortBlock k (GetPastSetNum node)], acc.2)
           else Ok (acc.1, acc.2 ++ [mkSortBlock k (GetPastSetNum node)]))
    acc l
  = if bool_decide (Forall (λ k, is_Some (GetBlock bd k)) l)
    then Ok (acc.1 ++ (sortKey bd <$> filter (λ k, hasOpt bs k = true) l),
             acc.2 ++ (sortKey bd <$> filter (λ k, hasOpt bs k ≠ true) l))
    else Fail NilDeref.
Proof.
  revert acc. induction l as [|k l IH]; intros acc.
  - cbn [foldM]. rewrite bool_decide_eq_true_2 by constructor.
    rewrite !filter_nil. cbn [fmap list_fmap]. rewrite !app_nil_r.
    by destruct acc.
  - cbn [foldM]. destruct (GetBlock bd k) as [node|] eqn:Hnode.
    + assert (Hkey : sortKey bd k = mkSortBlock k (GetPastSetNum node))
        by (unfold sortKey; by rewrite Hnode).
      rewrite (proj2 (derefBlock_Ok bd k node) Hnode). cbn [mbind res_bind].
      destruct (hasOpt bs k) eqn:Hk; cbn [mbind res_bind]; rewrite IH;
        cbn [fst snd].
      * rewrite filter_cons_True by done.
        rewrite (filter_cons_False (λ k, hasOpt bs k ≠ true)) by (by intros []).
        case_bool_decide as Hall.
        -- rewrite bool_decide_eq_true_2 by (constructor; [by eexists|done]).
           cbn [fmap list_fmap]. by rewrite Hkey, <- app_assoc.
        -- rewrite bool_decide_eq_false_2; [done|].
           intros Hall'. apply Hall. by apply Forall_cons in Hall' as [_ ?].
      * rewrite filter_cons_False by (by rewrite Hk).
        rewrite (filter_cons_True (λ k, hasOpt bs k ≠ true)) by (by rewrite Hk).
        case_bool_decide as Hall.
        -- rewrite bool_decide_eq_true_2 by (constructor; [by eexists|done]).
           cbn [fmap list_fmap]. by rewrite Hkey, <- app_assoc.
        -- rewrite bool_decide_eq_false_2; [done|].
           intros Hall'. apply Hall. by apply Forall_cons in Hall' as [_ ?].
    + assert (Hfail : derefBlock bd k = Fail NilDeref)
        by (unfold derefBlock; by rewrite Hnode).
      rewrite Hfail. cbn [mbind res_bind]. rewrite bool_decide_eq_false_2; [done|].
      intros Hall. apply Forall_cons in Hall as [[? Hsome] _]. congruence.
Qed.

Lemma sortBlockSet_eq iter bd set bs :
  sortBlockSet iter bd set bs
  = if bool_decide (Forall (λ k, is_Some (GetBlock bd k)) (iter set))
    then Ok (sortBlocks (sortKey bd <$> filter (λ k, hasOpt bs k = true) (iter set))
             ++ sortBlocks
                  (sortKey bd <$> filter (λ k, hasOpt bs k ≠ true) (iter set)))
    else Fail NilDeref.
Proof.
  unfold sortBlockSet. rewrite sortBlockSet_loop. by case_bool_decide.
Qed.

(** X7. [sortBlockSet] does not depend on the order in which the map of the
    set is visited: for any two orders of map iteration it returns the same
    sequence, or fails alike. *)
Theorem sortBlockSet_ignores_the_iteration_order (iter1 iter2 : gset N -> list N)
    (bd : BlockDAG) (set : gset N) (bs : option (gset N)) :
  (∀ s, iter1 s ≡ₚ elements s) ->
  (∀ s, iter2 s ≡ₚ elements s) ->
  sortBlockSet iter1 bd set bs = sortBlockSet iter2 bd set bs.
Proof.
  intros Hperm1 Hperm2. rewrite !sortBlockSet_eq.
  assert (Hperm : iter1 set ≡ₚ iter2 set) by (by rewrite Hperm1, Hperm2).
  rewrite (bool_decide_ext _ (Forall (λ k, is_Some (GetBlock bd k)) (iter2 set)))
    by (by rewrite Hperm).
  case_bool_decide; [|done]. do 2 f_equal.
  - apply sortBlocks_unique. by rewrite Hperm.
  - apply sortBlocks_unique. by rewrite Hperm.
Qed.

(** The theorem on the blocks of the diamond, visited by ascending and by
    descending hash. *)
Lemma sortBlockSet_ignores_the_iteration_order_witness :
  sortBlockSet ascending diamondDAG {[1; 2; 3]} (Some {[2]})
  = sortBlockSet descending diamondDAG {[1; 2; 3]} (Some {[2]}).
Proof.
  apply (sortBlockSet_ignores_the_iteration_order ascending descending);
    [exact ascending_perm|exact descending_perm].
Defined.

(** X8. On a set of blocks of the index, and for every order of map
    iteration, [sortBlockSet] returns one record for each block of the set,
    with the past-set size of the block; the records of the blocks of [bs]
    come first; among these, and among the others, a record comes before
    another one when its past-set size is smaller or, the sizes being the
    same, its hash is. On a set with a block that is not in the index it
    fails by a [nil] dereference. *)
Theorem sortBlockSet_sorts_blue_first (iter : gset N -> list N) (bd : BlockDAG)
    (set : gset N) (bs : option (gset N)) :
  (∀ s, iter s ≡ₚ elements s) ->
  (set ⊆ dom (bcIndex bd) ->
   ∃ blue red,
     sortBlockSet iter bd set bs = Ok (blue ++ red)
     ∧ sbH <$> (blue ++ red) ≡ₚ elements set
     ∧ (∀ sb, sb ∈ blue ++ red ->
          ∃ node, GetBlock bd (sbH sb) = Some node
                  ∧ sbPastSetNum sb = GetPastSetNum node)
     ∧ (∀ sb, sb ∈ blue -> hasOpt bs (sbH sb) = true)
     ∧ (∀ sb, sb ∈ red -> hasOpt bs (sbH sb) = false)
     ∧ StronglySorted (λ a b, sbLess a b = true) blue
     ∧ StronglySorted (λ a b, sbLess a b = true) red)
  ∧ (¬ set ⊆ dom (bcIndex bd) -> sortBlockSet iter bd set bs = Fail NilDeref).
Proof.
  intros iter_perm. rewrite sortBlockSet_eq.
  assert (Hall : Forall (λ k, is_Some (GetBlock bd k)) (iter set)
                 ↔ set ⊆ dom (bcIndex bd)).
  { rewrite Forall_forall. split.
    - intros H k Hk. apply GetBlock_dom, H. by rewrite iter_perm, elem_of_elements.
    - intros H k Hk. apply GetBlock_dom, H.
      by rewrite iter_perm, elem_of_elements in Hk. }
  split; intros Hset; [|by rewrite bool_decide_eq_false_2 by by rewrite Hall].
  rewrite bool_decide_eq_true_2 by by rewrite Hall.
  set (lb := filter (λ k, hasOpt bs k = true) (iter set)).
  set (lr := filter (λ k, hasOpt bs k ≠ true) (iter set)).
  assert (Hnodup : NoDup (iter set)) by (rewrite iter_perm; apply NoDup_elements).
  assert (Hkey : ∀ l : list N, sbH <$> (sortKey bd <$> l) = l).
  { intros l. rewrite <- list_fmap_compose. apply list_fmap_id. }
  assert (Hsorted : ∀ l : list N, NoDup l ->
            StronglySorted (λ a b, sbLess a b = true)
              (sortBlocks (sortKey bd <$> l))).
  { intros l Hl.
    assert (Hnd : NoDup (sortBlocks (sortKey bd <$> l))).
    { rewrite sortBlocks_perm. apply (NoDup_fmap_1 sbH). by rewrite Hkey. }
    pose proof (@Sorted_StronglySorted _ sbLe sbLe_trans _
                  (sortBlocks_sorted (sortKey bd <$> l))) as Hs.
    revert Hnd Hs. generalize (sortBlocks (sortKey bd <$> l)).
    induction 2 as [|a l0 Hl0 IH Ha]; [constructor|].
    apply NoDup_cons in Hnd as [Hnotin Hnd]. constructor; [by apply IH|].
    rewrite Forall_forall in Ha |- *. intros b Hb.
    destruct (Ha b Hb) as [?| ->]; [done|]. by destruct Hnotin. }
  assert (Hin : ∀ (P : N -> Prop) `{!∀ k, Decision (P k)} sb,
            sb ∈ sortBlocks (sortKey bd <$> filter P (iter set)) ->
            P (sbH sb) ∧ sbH sb ∈ set ∧ sb = sortKey bd (sbH sb)).
  { intros P ? sb. rewrite sortBlocks_perm.
    intros (k & -> & [Hk Hkin]%list_elem_of_filter)%list_elem_of_fmap.
    cbn. split; [done|]. split; [|done].
    by rewrite iter_perm, elem_of_elements in Hkin. }
  eexists _, _. split; [done|]. split; [|split; [|split; [|split; [|split]]]].
  - rewrite fmap_app, !sortBlocks_perm, !Hkey, <- iter_perm.
    subst lb lr. apply filter_app_complement.
  - intros sb [Hsb|Hsb]%elem_of_app; apply Hin in Hsb as (_ & Hk & ->);
      apply Hset, GetBlock_dom in Hk as [node Hnode]; exists node;
      cbn; by rewrite Hnode.
  - by intros sb (? & _)%Hin.
  - intros sb (Hne & _)%Hin. by destruct (hasOpt bs (sbH sb)).
  - apply Hsorted. by apply NoDup_filter.
  - apply Hsorted. by apply NoDup_filter.
Qed.

(** The theorem on the blocks 1, 2 and 3 of the diamond, with the blue
    set {2}. *)
Lemma sortBlockSet_sorts_blue_first_witness :
  ∃ blue red,
    sortBlockSet ascending diamondDAG {[1; 2; 3]} (Some {[2]}) = Ok (blue ++ red)
    ∧ sbH <$> (blue ++ red) ≡ₚ elements ({[1; 2; 3]} : gset N).
Proof.
  destruct (sortBlockSet_sorts_blue_first ascending diamondDAG {[1; 2; 3]}
              (Some {[2]}) ascending_perm) as [Hok _].
  destruct Hok as (blue & red & Heq & Hperm & _);
    [apply (bool_decide_unpack _); vm_compute; exact I|].
  exists blue, red. split; [exact Heq|exact Hperm].
Defined.

(** ** Reading the order back *)

(** The loop of [getPastSetByOrder] over the parents: every call on a parent
    returns at once, the parent being in the set already. *)
Lemma getPastSetByOrder_loop iter fuel bd exclude (l : list N) (ps : gset N) :
  foldM (λ ps v, getPastSetByOrder iter (S fuel) bd (ps ∪ {[v]}) exclude v) ps l
  = Ok (ps ∪ list_to_set l).
Proof.
  revert ps. induction l as [|v l IH]; intros ps.
  - cbn. f_equal. set_solver.
  - cbn [foldM getPastSetByOrder].
    assert (Hin : Has (ps ∪ {[v]}) v = true)
      by (unfold Has; rewrite bool_decide_eq_true_2; [done|set_solver]).
    rewrite Hin, orb_true_r. cbn [mbind res_bind]. rewrite IH.
    f_equal. set_solver.
Qed.

(** X9. [getPastSetByOrder] adds the parents of the block to the set and
    nothing else, for every order of map iteration and with fuel for two
    calls or more: the call on a parent returns at once, because the parent
    has just been added. A block that is excluded, in the set already or
    the genesis leaves the set as it is; a block that is not in the index
    is a [nil] dereference. *)
Theorem getPastSetByOrder_adds_the_parents_only (iter : gset N -> list N)
    (fuel : nat) (bd : BlockDAG) (pastSet exclude : gset N) (h : N) :
  (∀ s, iter s ≡ₚ elements s) ->
  getPastSetByOrder iter (S (S fuel)) bd pastSet exclude h
  = if bool_decide (h ∈ exclude ∨ h ∈ pastSet ∨ h = genesis bd) then Ok pastSet
    else match GetBlock bd h with
         | Some node => Ok (pastSet ∪ GetParents node)
         | None => Fail NilDeref
         end.
Proof.
  intros iter_perm. cbn [getPastSetByOrder]. unfold Has.
  destruct (decide (h ∈ exclude)) as [He|He].
  { rewrite (bool_decide_eq_true_2 (h ∈ exclude)) by done. cbn.
    by rewrite bool_decide_eq_true_2 by by left. }
  rewrite (bool_decide_eq_false_2 (h ∈ exclude)) by done.
  destruct (decide (h ∈ pastSet)) as [Hp|Hp].
  { rewrite (bool_decide_eq_true_2 (h ∈ pastSet)) by done. cbn.
    by rewrite bool_decide_eq_true_2 by by right; left. }
  rewrite (bool_decide_eq_false_2 (h ∈ pastSet)) by done. cbn [orb].
  destruct (N.eqb_spec h (genesis bd)) as [Hg|Hg].
  { by rewrite bool_decide_eq_true_2 by by right; right. }
  rewrite bool_decide_eq_false_2 by (by intros [?|[?|?]]).
  unfold derefBlock. destruct (GetBlock bd h) as [node|]; [|done].
  cbn [mbind res_bind].
  change (foldM (λ ps v, getPastSetByOrder iter (S fuel) bd (ps ∪ {[v]}) exclude v)
            pastSet (iter (GetParents node))
          = Ok (pastSet ∪ GetParents node)).
  rewrite getPastSetByOrder_loop. f_equal. f_equal.
  apply set_eq. intros x. by rewrite elem_of_list_to_set, iter_perm, elem_of_elements.
Qed.

(** The theorem at block 3 of the diamond: of its past {0, 1, 2}, the
    parents 1 and 2 only. *)
Lemma getPastSetByOrder_adds_the_parents_only_witness :
  getPastSetByOrder ascending 10 diamondDAG ∅ ∅ 3 = Ok {[1; 2]}.
Proof.
  rewrite (getPastSetByOrder_adds_the_parents_only ascending 8 diamondDAG ∅ ∅ 3
             ascending_perm).
  vm_compute. reflexivity.
Defined.

(** The scan of [GetCommonOrderNum], on the reversed order. *)
Lemma commonOrderNumRev_spec (coRev : list (option N)) :
  ∃ k rest,
    coRev = replicate k None ++ rest
    ∧ commonOrderNumRev coRev = length rest
    ∧ lastOrdered coRev = head rest ≫= id
    ∧ (rest = [] ∨ ∃ h r, rest = Some h :: r).
Proof.
  induction coRev as [|[h|] coRev (k & rest & -> & Hnum & Hlast & Hrest)].
  - exists 0%nat, []. split; [done|]. split; [done|]. split; [done|by left].
  - exists 0%nat, (Some h :: replicate k None ++ rest).
    split; [done|]. split; [done|]. split; [done|]. right. by eexists _, _.
  - exists (S k), rest. split; [done|]. split; [done|]. by split.
Qed.

(** The common order without the [nil] entries at its end. *)
Lemma GetCommonOrderNum_take bd :
  ∃ k, commonOrder bd
       = take (GetCommonOrderNum bd) (commonOrder bd) ++ replicate k None
       ∧ (GetCommonOrderNum bd <= length (commonOrder bd))%nat
       ∧ lastOrdered (rev (commonOrder bd))
         = last (take (GetCommonOrderNum bd) (commonOrder bd)) ≫= id
       ∧ (GetCommonOrderNum bd = 0%nat
          ∨ ∃ h, last (take (GetCommonOrderNum bd) (commonOrder bd))
                 = Some (Some h)).
Proof.
  unfold GetCommonOrderNum.
  destruct (commonOrderNumRev_spec (rev (commonOrder bd)))
    as (k & rest & Hrev & -> & -> & Hrest).
  assert (Hco : commonOrder bd = rev rest ++ replicate k None).
  { rewrite <- (rev_involutive (commonOrder bd)), Hrev, rev_app_distr.
    f_equal. clear. induction k as [|k IH]; [done|]. cbn. rewrite IH.
    clear. induction k as [|k IH]; [done|]. cbn. by rewrite <- IH. }
  assert (Htake : take (length rest) (commonOrder bd) = rev rest).
  { rewrite Hco. rewrite take_app_length'; [done|]. by rewrite length_rev. }
  exists k. rewrite Htake. split; [done|]. split.
  { rewrite Hco, length_app, length_rev. lia. }
  assert (Hlast : last (rev rest) = head rest).
  { destruct rest as [|x rest]; [done|]. cbn. by rewrite last_snoc. }
  rewrite Hlast. split; [done|].
  destruct Hrest as [->|(h & r & ->)]; [by left|]. right. by exists h.
Qed.

(** X10. [GetCommonOrderNum] is the length of the common order without the
    [nil] entries at its end: it is at most the length of the order, every
    entry from this position on is [nil], and the entry before it, when
    there is one, is not. *)
Theorem GetCommonOrderNum_skips_the_last_nils (bd : BlockDAG) :
  (GetCommonOrderNum bd <= length (commonOrder bd))%nat
  ∧ (∀ i entry,
       (GetCommonOrderNum bd <= i)%nat ->
       commonOrder bd !! i = Some entry -> entry = None)
  ∧ (GetCommonOrderNum bd = 0%nat
     ∨ ∃ h, commonOrder bd !! (GetCommonOrderNum bd - 1)%nat = Some (Some h)).
Proof.
  destruct (GetCommonOrderNum_take bd) as (k & Hco & Hle & _ & Hlast).
  assert (Hlen : length (take (GetCommonOrderNum bd) (commonOrder bd))
                 = GetCommonOrderNum bd) by (rewrite length_take; lia).
  split; [done|]. split.
  - intros i entry Hi. rewrite Hco, lookup_app_r by lia.
    by intros [-> _]%lookup_replicate_1.
  - destruct Hlast as [?|[h Hh]]; [by left|]. right. exists h.
    rewrite Hco, lookup_app_l.
    + rewrite last_lookup, Hlen in Hh. by rewrite Nat.sub_1_r.
    + rewrite Hlen. destruct (GetCommonOrderNum bd); [|lia].
      by rewrite take_0 in Hh.
Qed.

(** The entry that [GetBlockByOrder] returns at a position that is not
    negative. *)
Lemma GetBlockByOrder_at (bd : BlockDAG) (t : list N) (order : Z) :
  tempOrder bd = Some t -> (0 <= order)%Z ->
  GetBlockByOrder bd order
  = Ok (default None
          ((take (GetCommonOrderNum bd) (commonOrder bd) ++ (Some <$> t))
             !! Z.to_nat order)).
Proof.
  intros Ht Hpos. unfold GetBlockByOrder. rewrite Ht.
  destruct (Z.ltb_spec order 0) as [Hneg|_]; [lia|].
  destruct (GetCommonOrderNum_take bd) as (k & Hco & Hle & _).
  assert (Hlen : length (take (GetCommonOrderNum bd) (commonOrder bd))
                 = GetCommonOrderNum bd) by (rewrite length_take; lia).
  destruct (Z.ltb_spec order (Z.of_nat (GetCommonOrderNum bd))) as [Hlt|Hge].
  - rewrite lookup_app_l by lia. rewrite lookup_take_lt by lia.
    destruct (lookup_lt_is_Some_2 (commonOrder bd) (Z.to_nat order)) as [e He];
      [lia|]. by rewrite He.
  - rewrite lookup_app_r by lia. rewrite Hlen, list_lookup_fmap.
    replace (Z.to_nat order - GetCommonOrderNum bd)%nat
      with (Z.to_nat (order - Z.of_nat (GetCommonOrderNum bd))) by lia.
    destruct (Z.ltb_spec (order - Z.of_nat (GetCommonOrderNum bd))
                (Z.of_nat (length t))) as [Hlt|Hge'].
    + destruct (lookup_lt_is_Some_2 t
                  (Z.to_nat (order - Z.of_nat (GetCommonOrderNum bd))))
        as [e He]; [lia|]. by rewrite He.
    + by rewrite lookup_ge_None_2 by lia.
Qed.

(** X11. [GetBlockByOrder] never indexes a slice out of its range: for
    every state and every number it returns, and what it returns is the
    entry at this position of the common order, cut after its last entry
    that is not [nil], followed by the temp order; [nil] when the position
    is negative or beyond the end, or when there is no temp order. *)
Theorem GetBlockByOrder_reads_the_order (bd : BlockDAG) (order : Z) :
  GetBlockByOrder bd order
  = Ok (match tempOrder bd with
        | None => None
        | Some t =>
            if (order <? 0)%Z then None
            else default None
                   ((take (GetCommonOrderNum bd) (commonOrder bd) ++ (Some <$> t))
                      !! Z.to_nat order)
        end).
Proof.
  destruct (tempOrder bd) as [t|] eqn:Ht.
  - destruct (Z.ltb_spec order 0) as [Hneg|Hpos].
    + unfold GetBlockByOrder. rewrite Ht.
      by destruct (Z.ltb_spec order 0) as [_|?]; [|lia].
    + by apply GetBlockByOrder_at.
  - unfold GetBlockByOrder. by rewrite Ht.
Qed.

(** X12. [GetLastBlock] is the block at the last position of the order
    that [GetBlockByOrder] reads: the position before the sum of
    [GetCommonOrderNum] and of the length of the temp order; [nil] when
    there is no such position. *)
Theorem GetLastBlock_is_the_last_of_the_order (bd : BlockDAG) :
  GetLastBlock bd
  = match GetBlockByOrder bd
            (Z.of_nat (GetCommonOrderNum bd)
             + Z.of_nat (length (default [] (tempOrder bd))) - 1) with
    | Ok (Some h) => GetBlock bd h
    | _ => None
    end.
Proof.
  unfold GetLastBlock.
  destruct (tempOrder bd) as [t|] eqn:Htemp;
    [|unfold GetBlockByOrder; by rewrite Htemp].
  cbn [default from_option id].
  destruct (GetCommonOrderNum_take bd) as (k & Hco & Hle & Hlast & Hnum).
  assert (Hlen : length (take (GetCommonOrderNum bd) (commonOrder bd))
                 = GetCommonOrderNum bd) by (rewrite length_take; lia).
  destruct (last t) as [h|] eqn:Ht.
  - assert (0 < length t)%nat by (destruct t; [done|cbn; lia]).
    rewrite (GetBlockByOrder_at bd t) by (done || lia).
    rewrite lookup_app_r by lia. rewrite Hlen, list_lookup_fmap.
    replace (Z.to_nat (Z.of_nat (GetCommonOrderNum bd) + Z.of_nat (length t) - 1)
             - GetCommonOrderNum bd)%nat with (pred (length t)) by lia.
    rewrite last_lookup in Ht. by rewrite Ht.
  - apply last_None in Ht. subst t. cbn [length]. rewrite Hlast.
    change (Z.of_nat 0) with 0%Z. rewrite Z.add_0_r.
    destruct Hnum as [Hzero|[h Hh]].
    + rewrite Hzero, take_0. unfold GetBlockByOrder. rewrite Htemp. by cbn.
    + rewrite Hh. cbn [mbind option_bind id].
      destruct (Z.ltb_spec (Z.of_nat (GetCommonOrderNum bd) - 1) 0) as [Hneg|Hpos].
      { assert (GetCommonOrderNum bd = 0%nat) as Hzero by lia.
        by rewrite Hzero, take_0 in Hh. }
      rewrite (GetBlockByOrder_at bd []) by done.
      cbn [fmap list_fmap]. rewrite app_nil_r. rewrite last_lookup, Hlen in Hh.
      replace (Z.to_nat (Z.of_nat (GetCommonOrderNum bd) - 1))
        with (pred (GetCommonOrderNum bd)) by lia.
      by rewrite Hh.
Qed.

Lemma elem_of_rev {A} (l : list A) (x : A) : x ∈ l ↔ x ∈ rev l.
Proof. rewrite !list_elem_of_In. apply in_rev. Qed.

(** The first loop of [GetPrevious]. *)
Lemma previousInTemp_skip h (l : list N) rest isEnd :
  h ∉ l -> previousInTemp h (l ++ rest) isEnd = previousInTemp h rest isEnd.
Proof.
  induction l as [|x l IH]; intros Hnotin; [done|]. cbn.
  apply not_elem_of_cons in Hnotin as [Hne Hnotin].
  destruct (N.eqb_spec h x); [done|]. by apply IH.
Qed.

(** The second loop of [GetPrevious]. *)
Lemma previousInCommon_skip h (l rest : list (option N)) :
  Some h ∉ l ->
  previousInCommon h false (l ++ rest) = previousInCommon h false rest.
Proof.
  induction l as [|[x|] l IH]; intros Hnotin; [done| |].
  - cbn. apply not_elem_of_cons in Hnotin as [Hne Hnotin].
    destruct (N.eqb_spec h x) as [->|_]; [done|]. by apply IH.
  - cbn. apply not_elem_of_cons in Hnotin as [_ Hnotin]. by apply IH.
Qed.

Lemma previousInCommon_end h (l : list (option N)) :
  previousInCommon h true l = lastOrdered l.
Proof. induction l as [|[x|] l IH]; done. Qed.

(** X13. [GetPrevious] steps back from the last occurrence of the hash:
    in the temp order it returns the entry before it; from the first entry
    of the temp order it returns the last entry of the common order that is
    not [nil]; for a hash that is in the common order only it returns the
    entry before its last occurrence there, which can be [nil]; and it
    returns [nil] for a hash that is in neither order. *)
Theorem GetPrevious_steps_back (bd : BlockDAG) (h : N) (t : list N) :
  tempOrder bd = Some t ->
  (∀ l1 y l2, t = l1 ++ y :: h :: l2 -> h ∉ l2 -> GetPrevious bd h = Some y)
  ∧ (∀ l2, t = h :: l2 -> h ∉ l2 ->
       GetPrevious bd h = lastOrdered (rev (commonOrder bd)))
  ∧ (h ∉ t ->
     (∀ c1 y c2,
        commonOrder bd = c1 ++ y :: Some h :: c2 -> Some h ∉ c2 ->
        GetPrevious bd h = y)
     ∧ (Some h ∉ commonOrder bd -> GetPrevious bd h = None)).
Proof.
  intros Ht. unfold GetPrevious. rewrite Ht. split; [|split].
  - intros l1 y l2 -> Hnotin.
    rewrite rev_app_distr. cbn [rev]. rewrite <- !app_assoc. cbn [app].
    rewrite previousInTemp_skip by (by rewrite elem_of_rev in Hnotin).
    cbn. by rewrite N.eqb_refl.
  - intros l2 -> Hnotin. cbn [rev].
    rewrite previousInTemp_skip by (by rewrite elem_of_rev in Hnotin).
    cbn. rewrite N.eqb_refl. apply previousInCommon_end.
  - intros Hnotin.
    assert (Htemp : previousInTemp h (rev t) false = inr false).
    { rewrite <- (app_nil_r (rev t)).
      by rewrite previousInTemp_skip by (by rewrite elem_of_rev in Hnotin). }
    rewrite Htemp. split.
    + intros c1 y c2 -> Hc2.
      rewrite rev_app_distr. cbn [rev]. rewrite <- !app_assoc. cbn [app].
      rewrite previousInCommon_skip by (by rewrite elem_of_rev in Hc2).
      cbn. by rewrite N.eqb_refl.
    + intros Hco. rewrite <- (app_nil_r (rev (commonOrder bd))).
      by rewrite previousInCommon_skip by (by rewrite elem_of_rev in Hco).
Qed.

(** The theorem at the chain 0, 1, 2, whose common order is 0 and whose
    temp order is 1, 2: block 1 comes before block 2, and block 0 before
    block 1. *)
Lemma GetPrevious_steps_back_witness :
  GetPrevious chainDAG 2 = Some 1
  ∧ GetPrevious chainDAG 1 = lastOrdered (rev (commonOrder chainDAG)).
Proof.
  split.
  - destruct (GetPrevious_steps_back chainDAG 2 [1; 2]) as (Hprev & _);
      [vm_compute; reflexivity|].
    apply (Hprev [] 1 []); [reflexivity|]. apply not_elem_of_nil.
  - destruct (GetPrevious_steps_back chainDAG 1 [1; 2]) as (_ & Hfirst & _);
      [vm_compute; reflexivity|].
    apply (Hfirst [2]); [reflexivity|].
    apply (bool_decide_unpack _). vm_compute. exact I.
Defined.

(* ===================================================================== *)
(** * Further properties of the UTXO viewpoint *)
(* ===================================================================== *)

(** ** [commit] *)

(** X14. [commit] is idempotent, and a committed view is clean: every key
    it binds was bound, before, to an entry that was not both modified and
    fully spent, and is bound to this entry with the modified flag off; no
    key is bound to [nil]; the best hash is the one of the view. *)
Theorem commit_is_idempotent (view : UtxoViewpoint) :
  commit (commit view) = commit view
  ∧ bestHash (commit view) = bestHash view
  ∧ ∀ (k : N) p,
      entries (commit view) !! k = Some p ->
      ∃ e, entries view !! k = Some (Some e)
           ∧ modified e && IsFullySpent e = false
           ∧ p = Some (setModified false e).
Proof.
  split; [|split; [done|]].
  - assert (Heq : entries (commit (commit view)) = entries (commit view)).
    { apply map_eq. intros k. rewrite (commit_lookup (commit view)), commit_lookup.
      destruct (entries view !! k) as [[e|]|]; simpl; [|done..].
      destruct (modified e && IsFullySpent e) eqn:He; simpl; [done|].
      by destruct e. }
    transitivity (mkUtxoViewpoint (entries (commit (commit view)))
                    (bestHash (commit (commit view)))); [done|].
    by rewrite Heq.
  - intros k p. rewrite commit_lookup.
    destruct (entries view !! k) as [[e|]|]; simpl; [|done..].
    destruct (modified e && IsFullySpent e) eqn:He; [done|].
    intros [= <-]. by exists e.
Qed.

Section ConnectProperties.

Variable IsUnspendable : N -> bytes -> bool.
Variable IsCoinBaseTx : Transaction -> bool.
Variable DetermineTxType : Transaction -> TxType.

Local Abbreviation AddTxOuts' :=
  (AddTxOuts IsUnspendable IsCoinBaseTx DetermineTxType).
Local Abbreviation connectTransaction' :=
  (connectTransaction IsUnspendable IsCoinBaseTx DetermineTxType).

(** ** [AddTxOuts] *)

(** The binding of the key [k] after the output loop. *)
Lemma addOutputs_lookup outs txOutIdx (m : gmap N utxoOutput) (k : N) :
  addOutputs IsUnspendable outs txOutIdx m !! k
  = match lastOutput IsUnspendable outs txOutIdx k with
    | Some txOut =>
        Some (mkUtxoOutput (default 0 (scriptVersion <$> m !! k))
                (PkScript txOut) (Amount txOut) false)
    | None => m !! k
    end.
Proof.
  revert txOutIdx m. induction outs as [|o outs IH]; intros i m; [done|].
  cbn [addOutputs lastOutput].
  destruct (IsUnspendable (Amount o) (PkScript o)); cbn [negb andb].
  { rewrite IH. by destruct (lastOutput _ _ _ _). }
  case_bool_decide as Hk.
  - subst k.
    destruct (m !! uint32 (Z.of_nat i)) as [output|] eqn:Hm; rewrite IH;
      rewrite lookup_insert_eq; cbn; by destruct (lastOutput _ _ _ _).
  - destruct (m !! uint32 (Z.of_nat i)) as [output|] eqn:Hm; rewrite IH;
      rewrite lookup_insert_ne by done; by destruct (lastOutput _ _ _ _).
Qed.

Lemma addOutputs_idemp outs txOutIdx (m : gmap N utxoOutput) :
  addOutputs IsUnspendable outs txOutIdx (addOutputs IsUnspendable outs txOutIdx m)
  = addOutputs IsUnspendable outs txOutIdx m.
Proof.
  apply map_eq. intros k. rewrite !addOutputs_lookup.
  by destruct (lastOutput _ _ _ _).
Qed.

(** X15. [AddTxOuts] is idempotent: a second call with the same
    transaction, order and index leaves the view as the first call made
    it. This holds for every view, whether or not it had an entry for the
    transaction, and for every number of outputs. *)
Theorem AddTxOuts_is_idempotent (view : UtxoViewpoint) (theTx : Tx)
    (blockOrder : Z) (blockIndex : N) :
  AddTxOuts' (AddTxOuts' view theTx blockOrder blockIndex) theTx blockOrder
    blockIndex
  = AddTxOuts' view theTx blockOrder blockIndex.
Proof.
  unfold AddTxOuts. cbv zeta.
  rewrite (LookupEntry_entryAt (setEntry _ _ _)), entryAt_setEntry_eq.
  unfold setEntry. cbn [entries bestHash]. rewrite insert_insert_eq.
  do 3 f_equal.
  destruct (LookupEntry view (txHash theTx)) as [e|]; cbn;
    by rewrite addOutputs_idemp.
Qed.

(** ** [connectTransaction] *)

(** The input loop binds no key that was not bound to an entry, and takes no
    entry away. *)
Lemma connectInputs_entryAt ins : ∀ view inIndex blockIndex stxos (k : N),
  entryAt (connectInputs view ins inIndex blockIndex stxos).1.1 k = None
  ↔ entryAt view k = None.
Proof.
  induction ins as [|txIn rest IH]; intros view i bi stxos k; [done|].
  cbn [connectInputs].
  destruct (entryAt view (opHash (PreviousOut txIn))) as [e0|] eqn:He0; [|done].
  assert (Hset : entryAt (setEntry (opHash (PreviousOut txIn))
                            (SpendOutput e0 (OutIndex (PreviousOut txIn))) view) k
                 = None ↔ entryAt view k = None).
  { destruct (decide (opHash (PreviousOut txIn) = k)) as [<-|Hne].
    - rewrite entryAt_setEntry_eq, He0. done.
    - by rewrite entryAt_setEntry_ne. }
  destruct stxos as [l|]; by rewrite IH.
Qed.

Lemma connectInputs_dom ins : ∀ view inIndex blockIndex stxos,
  dom (entries (connectInputs view ins inIndex blockIndex stxos).1.1)
  = dom (entries view)
  ∧ bestHash (connectInputs view ins inIndex blockIndex stxos).1.1
    = bestHash view.
Proof.
  induction ins as [|txIn rest IH]; intros view i bi stxos; [done|].
  cbn [connectInputs].
  destruct (entryAt view (opHash (PreviousOut txIn))) as [e0|] eqn:He0; [|done].
  assert (Hdom : dom (entries (setEntry (opHash (PreviousOut txIn))
                                 (SpendOutput e0 (OutIndex (PreviousOut txIn)))
                                 view))
                 = dom (entries view)).
  { unfold setEntry. cbn. rewrite dom_insert_L.
    apply entryAt_Some in He0. apply elem_of_dom_2 in He0. set_solver. }
  destruct stxos as [l|].
  - destruct (IH (setEntry (opHash (PreviousOut txIn))
                    (SpendOutput e0 (OutIndex (PreviousOut txIn))) view)
                (S i) bi
                (Some (l ++ [mkSpentTxOut
                   (AmountByIndex (SpendOutput e0 (OutIndex (PreviousOut txIn)))
                      (OutIndex (PreviousOut txIn)))
                   (ScriptVersionByIndex
                      (SpendOutput e0 (OutIndex (PreviousOut txIn)))
                      (OutIndex (PreviousOut txIn)))
                   (PkScriptByIndex (SpendOutput e0 (OutIndex (PreviousOut txIn)))
                      (OutIndex (PreviousOut txIn)))
                   bi (uint32 (Z.of_nat i))
                   (txVersion (SpendOutput e0 (OutIndex (PreviousOut txIn))))
                   (uint32 (Z.of_N (order (SpendOutput e0
                                             (OutIndex (PreviousOut txIn))))))
                   (isCoinBase (SpendOutput e0 (OutIndex (PreviousOut txIn))))
                   (hasExpiry (SpendOutput e0 (OutIndex (PreviousOut txIn))))
                   (txType (SpendOutput e0 (OutIndex (PreviousOut txIn))))
                   (IsFullySpent (SpendOutput e0 (OutIndex (PreviousOut txIn))))])))
      as [-> ->].
    by rewrite Hdom.
  - destruct (IH (setEntry (opHash (PreviousOut txIn))
                    (SpendOutput e0 (OutIndex (PreviousOut txIn))) view)
                (S i) bi None) as [-> ->].
    by rewrite Hdom.
Qed.

(** The loop over a list of inputs followed by another one. *)
Lemma connectInputs_app l1 l2 : ∀ view inIndex blockIndex stxos,
  connectInputs view (l1 ++ l2) inIndex blockIndex stxos
  = match connectInputs view l1 inIndex blockIndex stxos with
    | (view1, stxos1, None) =>
        connectInputs view1 l2 (inIndex + length l1) blockIndex stxos1
    | r => r
    end.
Proof.
  induction l1 as [|txIn rest IH]; intros view i bi stxos.
  - cbn. by rewrite Nat.add_0_r.
  - cbn [app connectInputs length].
    destruct (entryAt view (opHash (PreviousOut txIn))) as [e0|]; [|done].
    destruct stxos as [l|]; rewrite IH;
      by replace (S i + length rest)%nat with (i + S (length rest))%nat by lia.
Qed.

(** The loop succeeds when every input finds an entry, and only then. *)
Lemma connectInputs_held ins : ∀ view inIndex blockIndex stxos,
  (connectInputs view ins inIndex blockIndex stxos).2 = None
  ↔ inputsHeld view ins.
Proof.
  unfold inputsHeld.
  induction ins as [|txIn rest IH]; intros view i bi stxos.
  - cbn. split; [constructor|done].
  - cbn [connectInputs]. rewrite Forall_cons.
    destruct (entryAt view (opHash (PreviousOut txIn))) as [e0|] eqn:He0.
    + assert (Hrest : Forall (λ txIn0, entryAt
                  (setEntry (opHash (PreviousOut txIn))
                     (SpendOutput e0 (OutIndex (PreviousOut txIn))) view)
                  (opHash (PreviousOut txIn0)) ≠ None) rest
                ↔ Forall (λ txIn0, entryAt view (opHash (PreviousOut txIn0)) ≠ None)
                    rest).
      { apply Forall_proper; [|done]. intros x.
        destruct (decide (opHash (PreviousOut txIn) = opHash (PreviousOut x)))
          as [<-|Hne].
        - rewrite entryAt_setEntry_eq, He0. done.
        - by rewrite entryAt_setEntry_ne. }
      destruct stxos as [l|]; rewrite IH, Hrest; naive_solver.
    + cbn. naive_solver.
Qed.

(** The journal argument changes neither the view nor the error. *)
Lemma connectInputs_journal_free ins : ∀ view inIndex blockIndex stxos,
  (connectInputs view ins inIndex blockIndex stxos).1.1
  = (connectInputs view ins inIndex blockIndex None).1.1
  ∧ (connectInputs view ins inIndex blockIndex stxos).2
    = (connectInputs view ins inIndex blockIndex None).2.
Proof.
  induction ins as [|txIn rest IH]; intros view i bi stxos; [done|].
  cbn [connectInputs].
  destruct (entryAt view (opHash (PreviousOut txIn))) as [e0|]; [|done].
  destruct stxos as [l|]; [apply IH|done].
Qed.

(** The records that the loop appends. *)
Lemma connectInputs_records ins : ∀ view inIndex blockIndex J0 view' J',
  connectInputs view ins inIndex blockIndex (Some J0) = (view', J', None) ->
  ∃ recs,
    J' = Some (J0 ++ recs) ∧ length recs = length ins
    ∧ ∀ j r, recs !! j = Some r ->
             stxoTxIndex r = blockIndex
             ∧ stxoInIndex r = uint32 (Z.of_nat (inIndex + j)).
Proof.
  induction ins as [|txIn rest IH]; intros view i bi J0 view' J';
    cbn [connectInputs].
  - intros [= <- <-]. exists []. rewrite app_nil_r. split; [done|].
    split; [done|]. by intros j r.
  - destruct (entryAt view (opHash (PreviousOut txIn))) as [e0|]; [|done].
    intros (recs & -> & Hlen & Hrecs)%IH. eexists (_ :: recs).
    rewrite <- app_assoc. split; [reflexivity|]. split; [cbn; by rewrite Hlen|].
    intros [|j] r; cbn.
    + intros [= <-]. cbn. by rewrite Nat.add_0_r.
    + intros Hr. apply Hrecs in Hr as [-> ->].
      split; [done|]. f_equal. lia.
Qed.

(** X16. [connectTransaction] fails exactly when the transaction is not a
    coinbase and one of its inputs refers to a transaction for which the
    view has no entry (no key, or a key bound to [nil]). The error names the
    first such input, and the call is not undone: the view and the journal
    are returned as the loop over the inputs before it left them, and the
    outputs of the transaction are not added. *)
Theorem connectTransaction_fails_on_the_first_missing_input
    (view : UtxoViewpoint) (tx : Tx) (blockOrder blockIndex : N)
    (stxos : option (list SpentTxOut)) :
  ((connectTransaction' view tx blockOrder blockIndex stxos).2 = None
   ↔ IsCoinBaseTx (msgTx tx) = true ∨ inputsHeld view (TxIn (msgTx tx)))
  ∧ ∀ pre txIn post,
      IsCoinBaseTx (msgTx tx) = false ->
      TxIn (msgTx tx) = pre ++ txIn :: post ->
      inputsHeld view pre ->
      entryAt view (opHash (PreviousOut txIn)) = None ->
      connectTransaction' view tx blockOrder blockIndex stxos
      = ((connectInputs view pre 0 blockIndex stxos).1,
         Some (ErrViewMissingInput (PreviousOut txIn))).
Proof.
  split.
  - unfold connectTransaction.
    destruct (IsCoinBaseTx (msgTx tx)); [cbn; naive_solver|].
    rewrite <- (connectInputs_held _ view 0 blockIndex stxos).
    destruct (connectInputs view (TxIn (msgTx tx)) 0 blockIndex stxos)
      as [[v j] [err|]]; cbn; naive_solver.
  - intros pre txIn post Hcoin Hins Hpre Hmiss.
    unfold connectTransaction. rewrite Hcoin, Hins, connectInputs_app.
    apply (connectInputs_held _ _ 0 blockIndex stxos) in Hpre.
    pose proof (connectInputs_entryAt pre view 0 blockIndex stxos
                  (opHash (PreviousOut txIn))) as Hkeep.
    destruct (connectInputs view pre 0 blockIndex stxos) as [[v j] err].
    cbn in Hpre, Hkeep. subst err. cbn [connectInputs].
    by rewrite (proj2 Hkeep Hmiss).
Qed.

(** X17. The journal argument of [connectTransaction] is an output only:
    with or without a journal, and whatever the journal holds, the call
    returns the same view and the same error. *)
Theorem connectTransaction_ignores_the_journal (view : UtxoViewpoint)
    (tx : Tx) (blockOrder blockIndex : N) (stxos : option (list SpentTxOut)) :
  (connectTransaction' view tx blockOrder blockIndex stxos).1.1
  = (connectTransaction' view tx blockOrder blockIndex None).1.1
  ∧ (connectTransaction' view tx blockOrder blockIndex stxos).2
    = (connectTransaction' view tx blockOrder blockIndex None).2.
Proof.
  unfold connectTransaction. destruct (IsCoinBaseTx (msgTx tx)); [done|].
  destruct (connectInputs_journal_free (TxIn (msgTx tx)) view 0 blockIndex stxos)
    as [Hview Herr].
  destruct (connectInputs view (TxIn (msgTx tx)) 0 blockIndex stxos)
    as [[v j] err].
  destruct (connectInputs view (TxIn (msgTx tx)) 0 blockIndex None)
    as [[v0 j0] err0].
  cbn in Hview, Herr. subst v0 err0. by destruct err.
Qed.

(** X18. The records that [connectTransaction] appends to the journal are
    found again by [GetSpentTxOut]. When a transaction that is not a
    coinbase, with at most 2^32 inputs, is connected with a block index
    below 2^32 and a journal that has no record of this block index, the
    journal grows by one record per input, and the lookup of the block index
    and of an input position returns the record appended for this input,
    which carries this block index and this position. *)
Theorem connectTransaction_journal_is_found_again (view : UtxoViewpoint)
    (tx : Tx) (blockOrder blockIndex : N) (J0 : list SpentTxOut)
    (view' : UtxoViewpoint) (J' : option (list SpentTxOut)) :
  IsCoinBaseTx (msgTx tx) = false ->
  (blockIndex < 2 ^ 32) ->
  (Z.of_nat (length (TxIn (msgTx tx))) <= 2 ^ 32)%Z ->
  Forall (λ r, stxoTxIndex r ≠ blockIndex) J0 ->
  connectTransaction' view tx blockOrder blockIndex (Some J0) = (view', J', None) ->
  ∃ recs,
    J' = Some (J0 ++ recs)
    ∧ length recs = length (TxIn (msgTx tx))
    ∧ ∀ i r, recs !! i = Some r ->
             GetSpentTxOut blockIndex (N.of_nat i) (J0 ++ recs) = Some r
             ∧ stxoTxIndex r = blockIndex ∧ stxoInIndex r = N.of_nat i.
Proof.
  intros Hcoin Hbi Hlen HJ0. unfold connectTransaction. rewrite Hcoin.
  destruct (connectInputs view (TxIn (msgTx tx)) 0 blockIndex (Some J0))
    as [[v j] [err|]] eqn:Hc; [done|].
  intros [= <- <-].
  apply connectInputs_records in Hc as (recs & -> & Hrecs & Hfields).
  exists recs. split; [done|]. split; [done|]. intros i r Hr.
  assert (Hi : (i < length recs)%nat) by (by eapply lookup_lt_Some).
  assert (Hu : ∀ j, (j < length recs)%nat ->
            uint32 (Z.of_nat j) = N.of_nat j).
  { intros j Hj. rewrite uint32_small by lia. lia. }
  assert (Hbi' : uint32 (Z.of_N blockIndex) = blockIndex).
  { rewrite uint32_small by lia. lia. }
  assert (Hi' : uint32 (Z.of_N (N.of_nat i)) = N.of_nat i).
  { rewrite uint32_small by lia. lia. }
  destruct (Hfields i r Hr) as [Hti Hii]. cbn in Hii. rewrite Hu in Hii by done.
  split; [|done].
  pose proof (take_drop_middle recs i r Hr) as Hsplit.
  unfold GetSpentTxOut.
  destruct (J0 ++ recs) as [|s0 l0] eqn:Hnil.
  { apply app_eq_nil in Hnil as [_ ->]. by rewrite lookup_nil in Hr. }
  cbn [length Nat.eqb]. rewrite <- Hnil. f_equal.
  rewrite <- Hsplit, app_assoc.
  apply scanSpentTxOut_first_match.
  - apply Forall_app. split.
    + eapply Forall_impl; [exact HJ0|]. intros s Hs. unfold stxoMatches.
      rewrite Hbi'. destruct (N.eqb_spec (stxoTxIndex s) blockIndex); done.
    + apply Forall_forall. intros s Hs.
      apply list_elem_of_lookup in Hs as [j Hj].
      pose proof (lookup_lt_Some _ _ _ Hj) as Hjlt. rewrite length_take in Hjlt.
      rewrite lookup_take_lt in Hj by lia.
      destruct (Hfields j s Hj) as [_ Hsi]. cbn in Hsi.
      rewrite Hu in Hsi by lia. unfold stxoMatches.
      rewrite Hsi, Hi'.
      destruct (N.eqb_spec (N.of_nat j) (N.of_nat i)); [lia|].
      by rewrite andb_false_r.
  - unfold stxoMatches. rewrite Hti, Hii, Hbi', Hi'.
    by rewrite !N.eqb_refl.
Qed.

End ConnectProperties.

(** The theorem at the sample transaction that spends output 0 of
    transaction 7, which the sample view lacks once its key is bound to
    [nil]. *)
Lemma connectTransaction_fails_on_the_first_missing_input_witness :
  connectTransaction sampleIsUnspendable sampleIsCoinBaseTx sampleDetermineTxType
    (mkUtxoViewpoint {[ 7 := None ]} 1) spendingTx 2 1 (Some [])
  = ((connectInputs (mkUtxoViewpoint {[ 7 := None ]} 1) [] 0 1 (Some [])).1,
     Some (ErrViewMissingInput (mkTxOutPoint 7 0))).
Proof.
  apply (proj2 (connectTransaction_fails_on_the_first_missing_input
                  sampleIsUnspendable sampleIsCoinBaseTx sampleDetermineTxType
                  (mkUtxoViewpoint {[ 7 := None ]} 1) spendingTx 2 1 (Some []))
           [] (mkTxInput (mkTxOutPoint 7 0) 50) []).
  - reflexivity.
  - reflexivity.
  - constructor.
  - vm_compute. reflexivity.
Defined.

(** The theorem at the sample transaction connected to the sample view: its
    single input is found again. *)
Lemma connectTransaction_journal_is_found_again_witness :
  ∃ recs,
    Some spentJournal = Some ([] ++ recs)
    ∧ length recs = length (TxIn (msgTx spendingTx))
    ∧ ∀ i r, recs !! i = Some r ->
             GetSpentTxOut 1 (N.of_nat i) ([] ++ recs) = Some r
             ∧ stxoTxIndex r = 1 ∧ stxoInIndex r = N.of_nat i.
Proof.
  apply (connectTransaction_journal_is_found_again sampleIsUnspendable
           sampleIsCoinBaseTx sampleDetermineTxType liveView spendingTx 2 1 []
           spentView (Some spentJournal)).
  - reflexivity.
  - reflexivity.
  - vm_compute. discriminate.
  - constructor.
  - vm_compute. reflexivity.
Defined.

(** ** Loading from the store *)

Section LoadProperties.

Variable deserializeUtxoEntry : bytes -> Error + UtxoEntry.
Variable isDeserializeErr : Error -> bool.

Local Abbreviation dbFetchUtxoEntry' :=
  (dbFetchUtxoEntry deserializeUtxoEntry isDeserializeErr).
Local Abbreviation fetchUtxosLoop' :=
  (fetchUtxosLoop deserializeUtxoEntry isDeserializeErr).
Local Abbreviation fetchUtxosMain' :=
  (fetchUtxosMain deserializeUtxoEntry isDeserializeErr).
Local Abbreviation loadable' := (loadable deserializeUtxoEntry isDeserializeErr).
Local Abbreviation loaded' := (loaded deserializeUtxoEntry isDeserializeErr).

(** The hashes of [txSet] that the view lacks can be loaded. *)
Local Abbreviation allLoadable view utxoBucket txSet :=
  (Forall (λ h : N, entries view !! h = None -> loadable' utxoBucket h) txSet).

(** What the loop of [fetchUtxosMain] does. *)
Lemma fetchUtxosLoop_spec utxoBucket txSet : ∀ view,
  ((fetchUtxosLoop' view utxoBucket txSet).2 = None
   ↔ allLoadable view utxoBucket txSet)
  ∧ ((fetchUtxosLoop' view utxoBucket txSet).2 = None ->
     bestHash (fetchUtxosLoop' view utxoBucket txSet).1 = bestHash view
     ∧ ∀ k, entries (fetchUtxosLoop' view utxoBucket txSet).1 !! k
            = loaded' view utxoBucket txSet k).
Proof.
  induction txSet as [|h rest IH]; intros view.
  - cbn. split; [split; [constructor|done]|]. intros _. split; [done|].
    intros k. unfold loaded. destruct (entries view !! k); [done|].
    by rewrite bool_decide_eq_false_2 by apply not_elem_of_nil.
  - cbn [fetchUtxosLoop]. rewrite Forall_cons.
    destruct (entries view !! h) as [p|] eqn:Hh.
    + destruct (IH view) as [Hok Hafter]. split.
      * rewrite Hok. naive_solver.
      * intros Hnone. destruct (Hafter Hnone) as [Hbest Hk].
        split; [done|]. intros k. rewrite Hk. unfold loaded.
        destruct (entries view !! k) as [q|] eqn:Hq; [done|].
        assert (k ≠ h) by congruence.
        rewrite (bool_decide_ext (k ∈ rest) (k ∈ h :: rest)); [done|].
              rewrite elem_of_cons. naive_solver.
    + destruct (dbFetchUtxoEntry' utxoBucket h) as [err|p] eqn:Hdb.
      * cbn. split; [|done]. split; [done|]. intros [Hload _].
        destruct (Hload eq_refl) as [p Hp]. unfold loadable in Hp. congruence.
      * set (view1 := mkUtxoViewpoint (<[h:=p]> (entries view)) (bestHash view)).
        destruct (IH view1) as [Hok Hafter].
        assert (Hrest : allLoadable view1 utxoBucket rest
                        ↔ allLoadable view utxoBucket rest).
        { apply Forall_proper; [|done]. intros x. subst view1. cbn.
          destruct (decide (x = h)) as [->|Hne].
          - rewrite lookup_insert_eq. split; [|done]. intros _ _. by exists p.
          - by rewrite lookup_insert_ne. }
        split.
        -- rewrite Hok, Hrest. split; [|naive_solver].
           intros Hall. split; [|done]. intros _. by exists p.
        -- intros Hnone. destruct (Hafter Hnone) as [Hbest Hk].
           split; [done|]. intros k. rewrite Hk. unfold loaded. subst view1. cbn.
           destruct (decide (k = h)) as [->|Hne].
           ++ rewrite lookup_insert_eq, Hh.
              rewrite bool_decide_eq_true_2 by (by left). by rewrite Hdb.
           ++ rewrite lookup_insert_ne by done.
              destruct (entries view !! k); [done|].
              rewrite (bool_decide_ext (k ∈ rest) (k ∈ h :: rest)); [done|].
              rewrite elem_of_cons. naive_solver.
Qed.

Lemma fetchUtxosMain_loop view utxoBucket txSet :
  fetchUtxosMain' view utxoBucket txSet = fetchUtxosLoop' view utxoBucket txSet.
Proof. unfold fetchUtxosMain. by destruct txSet. Qed.

(** Two views with the same best hash and the same bindings. *)
Lemma view_eq (v1 v2 : UtxoViewpoint) :
  bestHash v1 = bestHash v2 -> (∀ k, entries v1 !! k = entries v2 !! k) -> v1 = v2.
Proof.
  destruct v1 as [e1 b1], v2 as [e2 b2]. cbn. intros -> Hk. f_equal.
  by apply map_eq.
Qed.

Lemma loaded_ext view utxoBucket l1 l2 k :
  (∀ h, entries view !! h = None -> h ∈ l1 ↔ h ∈ l2) ->
  loaded' view utxoBucket l1 k = loaded' view utxoBucket l2 k.
Proof.
  intros Hmem. unfold loaded. destruct (entries view !! k) eqn:Hk; [done|].
  by rewrite (bool_decide_ext _ _ (Hmem k Hk)).
Qed.

Lemma allLoadable_ext view utxoBucket l1 l2 :
  (∀ h, entries view !! h = None -> h ∈ l1 ↔ h ∈ l2) ->
  allLoadable view utxoBucket l1 ↔ allLoadable view utxoBucket l2.
Proof.
  intros Hmem. rewrite !Forall_forall. split; intros Hall h Hin Hnone;
    apply Hall; try done; by apply (Hmem h Hnone).
Qed.

(** Two requests for the same hashes that the view lacks fare alike, and
    give the same view when they succeed. *)
Lemma fetchUtxosMain_ext view utxoBucket l1 l2 :
  (∀ h, entries view !! h = None -> h ∈ l1 ↔ h ∈ l2) ->
  ((fetchUtxosMain' view utxoBucket l1).2 = None
   ↔ (fetchUtxosMain' view utxoBucket l2).2 = None)
  ∧ ((fetchUtxosMain' view utxoBucket l1).2 = None ->
     fetchUtxosMain' view utxoBucket l2 = fetchUtxosMain' view utxoBucket l1).
Proof.
  intros Hmem. rewrite !fetchUtxosMain_loop.
  destruct (fetchUtxosLoop_spec utxoBucket l1 view) as [Hok1 Hafter1].
  destruct (fetchUtxosLoop_spec utxoBucket l2 view) as [Hok2 Hafter2].
  assert (Hiff : (fetchUtxosLoop' view utxoBucket l1).2 = None
                 ↔ (fetchUtxosLoop' view utxoBucket l2).2 = None).
  { rewrite Hok1, Hok2. by apply allLoadable_ext. }
  split; [done|]. intros H1. pose proof (proj1 Hiff H1) as H2.
  destruct (Hafter1 H1) as [Hb1 Hk1]. destruct (Hafter2 H2) as [Hb2 Hk2].
  destruct (fetchUtxosLoop' view utxoBucket l1) as [v1 e1].
  destruct (fetchUtxosLoop' view utxoBucket l2) as [v2 e2].
  cbn in *. subst e1 e2. f_equal. apply view_eq; [congruence|].
  intros k. rewrite Hk1, Hk2. symmetry. by apply loaded_ext.
Qed.

(** X19. [fetchUtxosMain] succeeds exactly when the store can answer for
    every requested hash that the view lacks: it has no record for it, or a
    record that decodes. After a success the best hash is unchanged, a key
    that the view had keeps its binding, a requested hash that the view
    lacked is bound to the entry of the store, or to [nil] when the store
    has none, and no other key is added. *)
Theorem fetchUtxosMain_loads_what_the_view_lacks (view : UtxoViewpoint)
    (utxoBucket : gmap N bytes) (txSet : list N) :
  ((fetchUtxosMain' view utxoBucket txSet).2 = None
   ↔ ∀ h, h ∈ txSet -> entries view !! h = None ->
          ∃ p, dbFetchUtxoEntry' utxoBucket h = inr p)
  ∧ ((fetchUtxosMain' view utxoBucket txSet).2 = None ->
     bestHash (fetchUtxosMain' view utxoBucket txSet).1 = bestHash view
     ∧ ∀ k, entries (fetchUtxosMain' view utxoBucket txSet).1 !! k
            = match entries view !! k with
              | Some p => Some p
              | None =>
                  if bool_decide (k ∈ txSet) then
                    match dbFetchUtxoEntry' utxoBucket k with
                    | inr p => Some p
                    | inl _ => None
                    end
                  else None
              end).
Proof.
  rewrite fetchUtxosMain_loop.
  destruct (fetchUtxosLoop_spec utxoBucket txSet view) as [Hok Hafter].
  split; [|exact Hafter]. rewrite Hok, Forall_forall. done.
Qed.

(** X20. A successful [fetchUtxosMain] does not depend on the order in
    which the map of the requested hashes is visited: when it succeeds for
    one order, it succeeds for every other order of the same hashes, with
    the same view. *)
Theorem fetchUtxosMain_ignores_the_order (view : UtxoViewpoint)
    (utxoBucket : gmap N bytes) (txSet1 txSet2 : list N) :
  txSet1 ≡ₚ txSet2 ->
  (fetchUtxosMain' view utxoBucket txSet1).2 = None ->
  fetchUtxosMain' view utxoBucket txSet2 = fetchUtxosMain' view utxoBucket txSet1.
Proof.
  intros Hperm. apply fetchUtxosMain_ext. intros h _. by rewrite Hperm.
Qed.

Section WithIteration.

Variable IsCoinBaseTx : Transaction -> bool.
Variable iter : gset N -> list N.
Hypothesis iter_perm : ∀ s, iter s ≡ₚ elements s.

Local Abbreviation fetchUtxos' :=
  (fetchUtxos deserializeUtxoEntry isDeserializeErr iter).
Local Abbreviation FetchUtxoView' :=
  (FetchUtxoView IsCoinBaseTx deserializeUtxoEntry isDeserializeErr iter).

(** The set [txNeededSet] of [fetchUtxos]. *)
Lemma elem_of_needed view (txSet : list N) (s0 : gset N) (x : N) :
  x ∈ foldl (λ (s : gset N) h,
               match entries view !! h with
               | Some _ => s
               | None => s ∪ {[h]}
               end) s0 txSet
  ↔ x ∈ s0 ∨ (x ∈ txSet ∧ entries view !! x = None).
Proof.
  revert s0. induction txSet as [|h rest IH]; intros s0; cbn [foldl].
  - rewrite elem_of_nil. naive_solver.
  - rewrite IH, elem_of_cons. destruct (entries view !! h) eqn:Hh.
    + split; [naive_solver|]. intros [?|[[->|?] Hx]]; [by left|congruence|].
      right. done.
    + rewrite elem_of_union, elem_of_singleton. naive_solver.
Qed.

(** X21. [fetchUtxos], which drops the hashes that the view has before it
    asks the store, fares as [fetchUtxosMain] does on the whole set, for
    every order of map iteration: the one succeeds exactly when the other
    does, and then with the same view. *)
Theorem fetchUtxos_is_fetchUtxosMain (view : UtxoViewpoint)
    (utxoBucket : gmap N bytes) (txSet : list N) :
  ((fetchUtxos' view utxoBucket txSet).2 = None
   ↔ (fetchUtxosMain' view utxoBucket txSet).2 = None)
  ∧ ((fetchUtxosMain' view utxoBucket txSet).2 = None ->
     fetchUtxos' view utxoBucket txSet = fetchUtxosMain' view utxoBucket txSet).
Proof.
  unfold fetchUtxos. destruct txSet as [|h0 rest]; [done|].
  cbn [length Nat.eqb].
  match goal with
  | |- context [iter ?s] =>
      destruct (fetchUtxosMain_ext view utxoBucket (h0 :: rest) (iter s))
        as [Hiff Heq]
  end.
  { intros h Hnone.
    rewrite iter_perm, elem_of_elements, elem_of_needed, elem_of_empty.
    naive_solver. }
  split; [by symmetry|done].
Qed.

(** The set [txNeededSet] of [FetchUtxoView]. *)
Lemma elem_of_origins (ins : list TxInput) (s0 : gset N) (x : N) :
  x ∈ foldl (λ (s : gset N) txIn, s ∪ {[opHash (PreviousOut txIn)]}) s0 ins
  ↔ x ∈ s0 ∨ x ∈ (λ txIn, opHash (PreviousOut txIn)) <$> ins.
Proof.
  revert s0. induction ins as [|txIn rest IH]; intros s0; cbn [foldl].
  - rewrite fmap_nil, elem_of_nil. naive_solver.
  - rewrite IH, fmap_cons, elem_of_cons, elem_of_union, elem_of_singleton.
    naive_solver.
Qed.

(** X22. [FetchUtxoView] succeeds exactly when the store can answer for the
    hash of the transaction and, unless the transaction is a coinbase, for
    the hashes its inputs spend from. The view it returns then has the zero
    best hash and binds exactly these hashes, each to the entry of the
    store, or to [nil] when the store has none: so the lookup of the
    transaction itself finds an entry exactly when the store holds one
    under its hash. This for every order of map iteration. *)
Theorem FetchUtxoView_loads_the_transaction_and_its_origins
    (utxoBucket : gmap N bytes) (tx : Tx) :
  ((FetchUtxoView' utxoBucket tx).2 = None
   ↔ ∀ h, h ∈ neededBy IsCoinBaseTx tx ->
          ∃ p, dbFetchUtxoEntry' utxoBucket h = inr p)
  ∧ ((FetchUtxoView' utxoBucket tx).2 = None ->
     bestHash (FetchUtxoView' utxoBucket tx).1 = 0
     ∧ dom (entries (FetchUtxoView' utxoBucket tx).1) = neededBy IsCoinBaseTx tx
     ∧ (∀ h, h ∈ neededBy IsCoinBaseTx tx ->
          dbFetchUtxoEntry' utxoBucket h
          = inr (LookupEntry (FetchUtxoView' utxoBucket tx).1 h))).
Proof.
  unfold FetchUtxoView. cbv zeta.
  set (needed := if negb (IsCoinBaseTx (msgTx tx))
                 then foldl (λ (s : gset N) txIn, s ∪ {[opHash (PreviousOut txIn)]})
                        {[txHash tx]} (TxIn (msgTx tx))
                 else {[txHash tx]}).
  assert (Hneeded : ∀ h, h ∈ iter needed ↔ h ∈ neededBy IsCoinBaseTx tx).
  { intros h. rewrite iter_perm, elem_of_elements. subst needed.
    unfold neededBy. destruct (IsCoinBaseTx (msgTx tx)); cbn [negb].
    - set_solver.
    - rewrite elem_of_origins, elem_of_union, elem_of_list_to_set. done. }
  rewrite fetchUtxosMain_loop.
  destruct (fetchUtxosLoop_spec utxoBucket (iter needed) NewUtxoViewpoint)
    as [Hok Hafter].
  rewrite Forall_forall in Hok. unfold loaded, loadable in Hok, Hafter.
  split.
  - rewrite Hok. split.
    + intros H h Hh. apply H; [by apply Hneeded|done].
    + intros H h Hh _. by apply H, Hneeded.
  - intros Hnone. destruct (Hafter Hnone) as [Hbest Hk]. split; [done|].
    assert (Hload : ∀ h, h ∈ neededBy IsCoinBaseTx tx ->
              ∃ p, dbFetchUtxoEntry' utxoBucket h = inr p).
    { intros h Hh. apply (proj1 Hok Hnone); [by apply Hneeded|done]. }
    split.
    + apply set_eq. intros h. rewrite elem_of_dom, Hk. cbn. rewrite lookup_empty.
      case_bool_decide as Hin.
      * destruct (Hload h) as [p Hp]; [by apply Hneeded|]. rewrite Hp.
        split; [intros _; by apply Hneeded|by eexists].
      * split; [by intros [? ?]|]. by intros ?%Hneeded.
    + intros h Hh. destruct (Hload h Hh) as [p Hp]. rewrite Hp. f_equal.
      unfold LookupEntry. rewrite Hk. cbn. rewrite lookup_empty.
      rewrite bool_decide_eq_true_2 by (by apply Hneeded). by rewrite Hp.
Qed.

End WithIteration.

End LoadProperties.

(** The theorem at the sample view and an empty store, asked for the hashes
    8 and 9 in both orders. *)
Lemma fetchUtxosMain_ignores_the_order_witness :
  fetchUtxosMain sampleDeserialize sampleIsDeserializeErr liveView ∅ [9; 8]
  = fetchUtxosMain sampleDeserialize sampleIsDeserializeErr liveView ∅ [8; 9].
Proof.
  apply (fetchUtxosMain_ignores_the_order sampleDeserialize sampleIsDeserializeErr
           liveView ∅ [8; 9] [9; 8]).
  - apply perm_swap.
  - vm_compute. reflexivity.
Defined.

(** The theorem at the sample view, which holds hash 7, asked for the
    hashes 7 and 8. *)
Lemma fetchUtxos_is_fetchUtxosMain_witness :
  fetchUtxos sampleDeserialize sampleIsDeserializeErr ascending liveView ∅ [7; 8]
  = fetchUtxosMain sampleDeserialize sampleIsDeserializeErr liveView ∅ [7; 8].
Proof.
  apply (fetchUtxos_is_fetchUtxosMain sampleDeserialize sampleIsDeserializeErr
           ascending ascending_perm liveView ∅ [7; 8]).
  vm_compute. reflexivity.
Defined.

(** The theorem at the sample transaction, which spends from transaction 7,
    and a store whose record for 7 does not decode: the call fails. *)
Lemma FetchUtxoView_loads_the_transaction_and_its_origins_witness :
  (FetchUtxoView sampleIsCoinBaseTx sampleDeserialize sampleIsDeserializeErr
     ascending sampleBucket spendingTx).2 = None
  ↔ ∀ h, h ∈ neededBy sampleIsCoinBaseTx spendingTx ->
         ∃ p, dbFetchUtxoEntry sampleDeserialize sampleIsDeserializeErr
                sampleBucket h = inr p.
Proof.
  apply (FetchUtxoView_loads_the_transaction_and_its_origins sampleDeserialize
           sampleIsDeserializeErr sampleIsCoinBaseTx ascending ascending_perm
           sampleBucket spendingTx).
Defined.

(** ** [disconnectTransactionSlice] *)

Lemma sum_list_snoc (l : list nat) x : sum_list (l ++ [x]) = (sum_list l + x)%nat.
Proof. induction l as [|y l IH]; cbn; [lia|]. rewrite IH. lia. Qed.

Lemma sum_list_rev (l : list nat) : sum_list (rev l) = sum_list l.
Proof.
  induction l as [|x l IH]; [done|]. cbn. rewrite sum_list_snoc, IH. lia.
Qed.

Lemma sliceNeeds_rev txs : sliceNeeds (rev txs) = sliceNeeds txs.
Proof. unfold sliceNeeds. by rewrite fmap_rev, sum_list_rev. Qed.

Lemma sliceNeeds_from i (txs : list Tx) :
  (0 < i)%nat ->
  sliceNeeds (indexFrom i txs)
  = length (concat ((λ tx, TxIn (msgTx tx)) <$> txs)).
Proof.
  revert i. induction txs as [|tx rest IH]; intros i Hi; [done|].
  cbn [indexFrom]. unfold sliceNeeds in *. cbn. rewrite length_app.
  rewrite IH by lia. by destruct i; [lia|].
Qed.

Lemma sliceNeeds_spentInputs (txs : list Tx) :
  sliceNeeds (rev (indexFrom 0 txs)) = spentInputs txs.
Proof.
  rewrite sliceNeeds_rev. unfold spentInputs. destruct txs as [|tx rest]; [done|].
  cbn [indexFrom tail]. rewrite <- (sliceNeeds_from 1) by lia. done.
Qed.

Lemma flagged_setEntry view (h k : N) e :
  modified e = true -> flagged view k -> flagged (setEntry h e view) k.
Proof.
  intros He (e0 & Hk & Hm). destruct (decide (h = k)) as [->|Hne].
  - exists e. by rewrite entryAt_setEntry_eq.
  - exists e0. by rewrite entryAt_setEntry_ne.
Qed.

Lemma flagged_setEntry_eq view (h : N) e :
  modified e = true -> flagged (setEntry h e view) h.
Proof. intros He. exists e. by rewrite entryAt_setEntry_eq. Qed.

Lemma dom_setEntry view (h : N) e :
  dom (entries (setEntry h e view)) = {[h]} ∪ dom (entries view).
Proof. unfold setEntry. cbn. by rewrite dom_insert_L. Qed.

Section SliceProperties.

Variable IsCoinBaseTx : Transaction -> bool.
Variable DetermineTxType : Transaction -> TxType.

Local Abbreviation sliceTxs' := (sliceTxs IsCoinBaseTx DetermineTxType).
Local Abbreviation disconnectTransactionSlice' :=
  (disconnectTransactionSlice IsCoinBaseTx DetermineTxType).

(** The inner loop takes one record per input, from the end of the journal
    down, and panics when the journal has no record left. *)
Lemma sliceInputs_count stxos insRev : ∀ view stxoIdx,
  (-1 <= stxoIdx < Z.of_nat (length stxos))%Z ->
  if decide (Z.of_nat (length insRev) <= stxoIdx + 1)%Z
  then ∃ view',
         sliceInputs view insRev stxos stxoIdx
         = Ok (view', (stxoIdx - Z.of_nat (length insRev))%Z)
         ∧ bestHash view' = bestHash view
         ∧ dom (entries view) ⊆ dom (entries view')
         ∧ (∀ k, flagged view k -> flagged view' k)
         ∧ (∀ txIn, txIn ∈ insRev -> flagged view' (opHash (PreviousOut txIn)))
  else sliceInputs view insRev stxos stxoIdx = Fail IndexOutOfRange.
Proof.
  induction insRev as [|txIn rest IH]; intros view idx Hidx.
  - cbn. rewrite decide_True by lia. exists view. rewrite Z.sub_0_r.
    split; [done|]. split; [done|]. split; [done|]. split; [done|].
    by intros txIn ?%elem_of_nil.
  - cbn [sliceInputs length].
    destruct (Z.ltb_spec idx 0) as [Hneg|Hpos].
    { rewrite decide_False by lia. done. }
    destruct (lookup_lt_is_Some_2 stxos (Z.to_nat idx)) as [stxo Hstxo]; [lia|].
    rewrite Hstxo. cbv zeta.
    match goal with
    | |- context [sliceInputs (setEntry ?h ?e view) rest stxos (idx - 1)] =>
        specialize (IH (setEntry h e view) (idx - 1)%Z);
          assert (He : modified e = true)
            by (by destruct (sparseOutputs (setModified true _) !! _));
          pose proof (dom_setEntry view h e) as Hdom;
          pose proof (λ k, flagged_setEntry view h k e He) as Hkeep;
          pose proof (flagged_setEntry_eq view h e He) as Hnew
    end.
    destruct (decide (Z.of_nat (length rest) <= idx - 1 + 1)%Z) as [Hle|Hgt].
    + rewrite decide_True by lia.
      destruct IH as (view' & -> & Hbest & Hsub & Hflag & Hins); [lia|].
      exists view'. split; [f_equal; f_equal; lia|]. split; [done|].
      split; [set_solver|]. split; [by intros k Hk; apply Hflag, Hkeep|].
      intros x [->|Hx]%elem_of_cons; [by apply Hflag|by apply Hins].
    + rewrite decide_False by lia. apply IH. lia.
Qed.

(** The outer loop. *)
Lemma sliceTxs_count stxos height txsRev : ∀ view stxoIdx,
  (-1 <= stxoIdx < Z.of_nat (length stxos))%Z ->
  if decide (Z.of_nat (sliceNeeds txsRev) <= stxoIdx + 1)%Z
  then ∃ view',
         sliceTxs' view height txsRev stxos stxoIdx
         = Ok (view', (stxoIdx - Z.of_nat (sliceNeeds txsRev))%Z)
         ∧ bestHash view' = bestHash view
         ∧ dom (entries view) ⊆ dom (entries view')
         ∧ (∀ k, flagged view k -> flagged view' k)
         ∧ (∀ itx, itx ∈ txsRev ->
              flagged view' (txHash itx.2)
              ∧ (itx.1 ≠ 0%nat ->
                 ∀ txIn, txIn ∈ TxIn (msgTx itx.2) ->
                         flagged view' (opHash (PreviousOut txIn))))
  else sliceTxs' view height txsRev stxos stxoIdx = Fail IndexOutOfRange.
Proof.
  induction txsRev as [|[i tx] rest IH]; intros view idx Hidx.
  - cbn. rewrite decide_True by lia. exists view. rewrite Z.sub_0_r.
    split; [done|]. split; [done|]. split; [done|]. split; [done|].
    by intros itx ?%elem_of_nil.
  - cbn [sliceTxs]. cbv zeta.
    match goal with
    | |- context [setEntry (txHash tx) ?e view] =>
        set (view0 := setEntry (txHash tx) e view);
          assert (He : modified e = true) by done;
          pose proof (dom_setEntry view (txHash tx) e) as Hdom;
          pose proof (λ k, flagged_setEntry view (txHash tx) k e He) as Hkeep;
          pose proof (flagged_setEntry_eq view (txHash tx) e He) as Hnew
    end.
    fold view0 in Hdom, Hkeep, Hnew.
    assert (Hneeds : sliceNeeds ((i, tx) :: rest)
                     = ((if (i =? 0)%nat then 0 else length (TxIn (msgTx tx)))
                        + sliceNeeds rest)%nat) by done.
    rewrite Hneeds. destruct (Nat.eqb_spec i 0) as [->|Hi].
    + specialize (IH view0 idx Hidx). cbn [Nat.add].
      destruct (decide (Z.of_nat (sliceNeeds rest) <= idx + 1)%Z); [|done].
      destruct IH as (view' & -> & Hbest & Hsub & Hflag & Htxs).
      exists view'. split; [done|]. split; [done|]. split; [set_solver|].
      split; [by intros k Hk; apply Hflag, Hkeep|].
      intros itx [->|Hitx]%elem_of_cons; [|by apply Htxs].
      split; [by apply Hflag|done].
    + pose proof (sliceInputs_count stxos (rev (TxIn (msgTx tx))) view0 idx Hidx)
        as Hin.
      rewrite length_rev in Hin.
      destruct (decide (Z.of_nat (length (TxIn (msgTx tx))) <= idx + 1)%Z)
        as [Hle|Hgt].
      * destruct Hin as (view1 & -> & Hbest1 & Hsub1 & Hflag1 & Hins1).
        cbn [mbind res_bind fst snd].
        specialize (IH view1 (idx - Z.of_nat (length (TxIn (msgTx tx))))%Z).
        destruct (decide (Z.of_nat (sliceNeeds rest)
                          <= idx - Z.of_nat (length (TxIn (msgTx tx))) + 1)%Z)
          as [Hle2|Hgt2].
        -- rewrite decide_True by lia.
           destruct IH as (view' & -> & Hbest & Hsub & Hflag & Htxs); [lia|].
           exists view'. split; [f_equal; f_equal; lia|].
           split; [by rewrite Hbest, Hbest1|]. split; [set_solver|].
           split; [by intros k Hk; apply Hflag, Hflag1, Hkeep|].
           intros itx [->|Hitx]%elem_of_cons; [|by apply Htxs].
           split; [by apply Hflag, Hflag1|]. intros _ txIn Htx.
           apply Hflag, Hins1. by rewrite <- elem_of_rev.
        -- rewrite decide_False by lia. apply IH. lia.
      * rewrite decide_False by lia. by rewrite Hin.
Qed.

(** X23. [disconnectTransactionSlice] walks the journal down from its end
    and takes one record for each input of the transactions after the
    first one. With a journal that is not empty and has as many records as
    these inputs or more, it returns the number of the records it has not
    taken, and no error; with fewer records it panics on an index out of
    range. With an empty journal it returns 0 and leaves the view as it is,
    and with a [nil] pointer it returns the error. *)
Theorem disconnectTransactionSlice_counts_the_journal (view : UtxoViewpoint)
    (transactions : list Tx) (height : Z) (stxos : list SpentTxOut) :
  disconnectTransactionSlice' view transactions height None
  = Ok (view, 0%Z, Some ErrNoJournal)
  ∧ disconnectTransactionSlice' view transactions height (Some [])
    = Ok (view, 0%Z, None)
  ∧ (stxos ≠ [] ->
     ((spentInputs transactions <= length stxos)%nat ->
      ∃ view',
        disconnectTransactionSlice' view transactions height (Some stxos)
        = Ok (view', Z.of_nat (length stxos - spentInputs transactions), None))
     ∧ ((length stxos < spentInputs transactions)%nat ->
        disconnectTransactionSlice' view transactions height (Some stxos)
        = Fail IndexOutOfRange)).
Proof.
  split; [done|]. split; [done|]. intros Hne.
  assert (Hlen : (0 < length stxos)%nat) by (destruct stxos; [done|cbn; lia]).
  unfold disconnectTransactionSlice. cbv zeta.
  destruct (Z.eqb_spec (Z.of_nat (length stxos) - 1) (-1)) as [?|_]; [lia|].
  pose proof (sliceTxs_count stxos height (rev (indexFrom 0 transactions)) view
                (Z.of_nat (length stxos) - 1)) as Hcount.
  rewrite sliceNeeds_spentInputs in Hcount. split.
  - intros Hle. rewrite decide_True in Hcount by lia.
    destruct Hcount as (view' & -> & _); [lia|]. exists view'.
    cbn. do 3 f_equal. lia.
  - intros Hlt. rewrite decide_False in Hcount by lia.
    rewrite Hcount by lia. done.
Qed.

(** X24. When [disconnectTransactionSlice] returns on a journal that is
    not empty, the best hash of the view is the one it had, no key of the
    view is removed, and every transaction of the slice, as well as every
    transaction that an input of a transaction after the first one spends
    from, is bound to an entry that is flagged modified. *)
Theorem disconnectTransactionSlice_flags_what_it_touches (view : UtxoViewpoint)
    (transactions : list Tx) (height : Z) (stxos : list SpentTxOut)
    (view' : UtxoViewpoint) (n : Z) (err : option SliceError) :
  stxos ≠ [] ->
  disconnectTransactionSlice' view transactions height (Some stxos)
  = Ok (view', n, err) ->
  err = None
  ∧ bestHash view' = bestHash view
  ∧ dom (entries view) ⊆ dom (entries view')
  ∧ (∀ tx, tx ∈ transactions -> flagged view' (txHash tx))
  ∧ (∀ tx txIn,
       tx ∈ tail transactions -> txIn ∈ TxIn (msgTx tx) ->
       flagged view' (opHash (PreviousOut txIn))).
Proof.
  intros Hne.
  assert (Hlen : (0 < length stxos)%nat) by (destruct stxos; [done|cbn; lia]).
  unfold disconnectTransactionSlice. cbv zeta.
  destruct (Z.eqb_spec (Z.of_nat (length stxos) - 1) (-1)) as [?|_]; [lia|].
  pose proof (sliceTxs_count stxos height (rev (indexFrom 0 transactions)) view
                (Z.of_nat (length stxos) - 1)) as Hcount.
  destruct (decide _) as [Hle|Hgt] in Hcount; [|by rewrite Hcount by lia].
  destruct Hcount as (view1 & -> & Hbest & Hsub & _ & Htxs); [lia|].
  cbn. intros [= <- <- <-]. split; [done|]. split; [done|]. split; [done|].
  assert (Hmem : ∀ tx (l : list Tx) j, tx ∈ l -> ∃ i, (i, tx) ∈ indexFrom j l
                                                     ∧ (j <= i)%nat).
  { intros tx l. induction l as [|x l IH]; intros j; [by intros ?%elem_of_nil|].
    intros [->|Hin]%elem_of_cons.
    - exists j. split; [by left|lia].
    - destruct (IH (S j) Hin) as (i & Hi & Hji). exists i.
      split; [by right|lia]. }
  split.
  - intros tx Htx. destruct (Hmem tx transactions 0%nat Htx) as (i & Hi & _).
    apply elem_of_rev, Htxs in Hi. apply Hi.
  - intros tx txIn Htx Hin.
    destruct transactions as [|tx0 rest]; [by apply elem_of_nil in Htx|].
    cbn [tail] in Htx. destruct (Hmem tx rest 1%nat Htx) as (i & Hi & Hpos).
    assert (Hi' : (i, tx) ∈ rev (indexFrom 0 (tx0 :: rest)))
      by (apply (proj1 (elem_of_rev _ _)); cbn; by right).
    apply Htxs in Hi' as [_ Hins]. apply Hins; [cbn; lia|done].
Qed.

End SliceProperties.

(** The theorem at the sample block, whose second transaction has one
    input, and a journal of two records: one record is left. *)
Lemma disconnectTransactionSlice_counts_the_journal_witness :
  ∃ view',
    disconnectTransactionSlice sampleIsCoinBaseTx sampleDetermineTxType liveView
      (blockTransactions spendingBlock) 2 (Some twoRecords)
    = Ok (view',
          Z.of_nat (length twoRecords
                    - spentInputs (blockTransactions spendingBlock)), None).
Proof.
  apply (disconnectTransactionSlice_counts_the_journal sampleIsCoinBaseTx
           sampleDetermineTxType liveView (blockTransactions spendingBlock) 2
           twoRecords).
  - discriminate.
  - vm_compute. lia.
Defined.

(** The theorem at the same call: the best hash of the view is still 1. *)
Lemma disconnectTransactionSlice_flags_what_it_touches_witness :
  ∃ view' n,
    disconnectTransactionSlice sampleIsCoinBaseTx sampleDetermineTxType liveView
      (blockTransactions spendingBlock) 2 (Some twoRecords)
    = Ok (view', n, None)
    ∧ bestHash view' = bestHash liveView.
Proof.
  eexists _, _. split; [vm_compute; reflexivity|].
  eapply (disconnectTransactionSlice_flags_what_it_touches sampleIsCoinBaseTx
            sampleDetermineTxType liveView (blockTransactions spendingBlock) 2
            twoRecords);
    [discriminate|vm_compute; reflexivity].
Defined.

(** ** Loading the inputs of a block and connecting its parent *)

Section ChainProperties.

Variable IsUnspendable : N -> bytes -> bool.
Variable IsCoinBaseTx : Transaction -> bool.
Variable DetermineTxType : Transaction -> TxType.
Variable deserializeUtxoEntry : bytes -> Error + UtxoEntry.
Variable isDeserializeErr : Error -> bool.
Variable iter : gset N -> list N.
Variable BadTxs : Type.
Variable IsBadTx : BadTxs -> N -> bool.
Variable AddBadTx : BadTxs -> N -> N -> BadTxs.

Hypothesis iter_perm : ∀ s, iter s ≡ₚ elements s.

Local Abbreviation AddTxOuts' :=
  (AddTxOuts IsUnspendable IsCoinBaseTx DetermineTxType).
Local Abbreviation connectTxs' :=
  (connectTxs IsUnspendable IsCoinBaseTx DetermineTxType).
Local Abbreviation inputsOfTx' :=
  (inputsOfTx IsUnspendable IsCoinBaseTx DetermineTxType BadTxs IsBadTx AddBadTx).
Local Abbreviation inputsOfTxs' :=
  (inputsOfTxs IsUnspendable IsCoinBaseTx DetermineTxType BadTxs IsBadTx AddBadTx).
Local Abbreviation fetchInputUtxos' :=
  (fetchInputUtxos IsUnspendable IsCoinBaseTx DetermineTxType deserializeUtxoEntry
     isDeserializeErr iter BadTxs IsBadTx AddBadTx).
Local Abbreviation connectTransactions' :=
  (connectTransactions IsUnspendable IsCoinBaseTx DetermineTxType
     deserializeUtxoEntry isDeserializeErr iter BadTxs IsBadTx AddBadTx).

(** A position that [txInFlight] holds is a position of the block, and the
    transaction there has the hash. *)
Lemma inFlight_from (l : list Tx) : ∀ (j : nat) (m : gmap N nat) (h : N) (i : nat),
  foldl (λ (m : gmap N nat) (itx : nat * Tx), <[txHash itx.2 := itx.1]> m) m
    (indexFrom j l) !! h = Some i ->
  m !! h = Some i
  ∨ ∃ tx, (j <= i)%nat ∧ l !! (i - j)%nat = Some tx ∧ txHash tx = h.
Proof.
  induction l as [|x l IH]; intros j m h i; cbn [indexFrom foldl]; [by left|].
  intros [Hm|(tx & Hle & Htx & Hh)]%IH.
  - cbn in Hm. destruct (decide (txHash x = h)) as [<-|Hne].
    + rewrite lookup_insert_eq in Hm. injection Hm as <-. right. exists x.
      split; [lia|]. by rewrite Nat.sub_diag.
    + rewrite lookup_insert_ne in Hm by done. by left.
  - right. exists tx. split; [lia|]. split; [|done].
    by replace (i - j)%nat with (S (i - S j)) by lia.
Qed.

Lemma inFlight_lookup (txs : list Tx) (h : N) (i : nat) :
  inFlight txs !! h = Some i -> ∃ tx, txs !! i = Some tx ∧ txHash tx = h.
Proof.
  unfold inFlight. intros [Hm|(tx & _ & Htx & Hh)]%inFlight_from; [done|].
  exists tx. by rewrite Nat.sub_0_r in Htx.
Qed.

Lemma dom_AddTxOuts view tx blockOrder blockIndex :
  dom (entries (AddTxOuts' view tx blockOrder blockIndex))
  = {[txHash tx]} ∪ dom (entries view).
Proof. unfold AddTxOuts. cbv zeta. apply dom_setEntry. Qed.

(** The loop over the inputs of a transaction never indexes the block out of
    its range; it takes no key from the view and no hash from the set of
    the needed ones; and, when the chain knows no bad transaction, it does
    not change the chain, and after it the origin of every input is a key of
    the view or a needed hash. *)
Lemma inputsOfTx_spec block i tx ins : ∀ st,
  ∃ st',
    inputsOfTx' block i tx ins st = Ok st'
    ∧ dom (entries st.1.1) ⊆ dom (entries st'.1.1)
    ∧ st.2 ⊆ st'.2
    ∧ ((∀ h, IsBadTx st.1.2 h = false) ->
       st'.1.2 = st.1.2
       ∧ ∀ txIn, txIn ∈ ins ->
                 opHash (PreviousOut txIn) ∈ dom (entries st'.1.1) ∪ st'.2).
Proof.
  induction ins as [|txIn rest IH]; intros [[view bc] needed].
  - eexists. split; [done|]. split; [done|]. split; [done|]. intros _.
    split; [done|]. by intros txIn ?%elem_of_nil.
  - cbn [inputsOfTx fst snd].
    destruct (IsBadTx bc (opHash (PreviousOut txIn))) eqn:Hbad.
    { eexists. split; [done|]. split; [done|]. split; [done|]. intros Hno.
      by rewrite Hno in Hbad. }
    assert (Hneeded : ∃ st',
      match entries view !! opHash (PreviousOut txIn) with
      | Some _ => inputsOfTx' block i tx rest (view, bc, needed)
      | None =>
          inputsOfTx' block i tx rest
            (view, bc, needed ∪ {[opHash (PreviousOut txIn)]})
      end = Ok st'
      ∧ dom (entries view) ⊆ dom (entries st'.1.1)
      ∧ needed ⊆ st'.2
      ∧ ((∀ h, IsBadTx bc h = false) ->
         st'.1.2 = bc
         ∧ ∀ x, x ∈ txIn :: rest ->
                opHash (PreviousOut x) ∈ dom (entries st'.1.1) ∪ st'.2)).
    { destruct (entries view !! opHash (PreviousOut txIn)) as [p|] eqn:Hview.
      - destruct (IH (view, bc, needed)) as (st' & Hst & Hdom & Hsub & Hno).
        exists st'. split; [done|]. split; [done|]. split; [done|].
        intros Hnobad. destruct (Hno Hnobad) as [Hbc Hins]. split; [done|].
        intros x [->|Hx]%elem_of_cons; [|by apply Hins].
        apply elem_of_union. left. apply Hdom. by apply elem_of_dom_2 in Hview.
      - destruct (IH (view, bc, needed ∪ {[opHash (PreviousOut txIn)]}))
          as (st' & Hst & Hdom & Hsub & Hno).
        exists st'. split; [done|]. split; [done|]. cbn in Hsub.
        split; [set_solver|].
        intros Hnobad. destruct (Hno Hnobad) as [Hbc Hins]. split; [done|].
        intros x [->|Hx]%elem_of_cons; [|by apply Hins]. set_solver. }
    destruct (inFlight (blockTransactions block) !! opHash (PreviousOut txIn))
      as [inFlightIndex|] eqn:Hflight; [|exact Hneeded].
    destruct (inFlightIndex <=? i)%nat; [|exact Hneeded].
    destruct (inFlight_lookup _ _ _ Hflight) as (originTx & -> & Hhash).
    match goal with
    | |- context [inputsOfTx' block i tx rest ?st] =>
        destruct (IH st) as (st' & Hst & Hdom & Hsub & Hno)
    end.
    cbn [fst snd] in Hdom, Hsub, Hno. rewrite dom_AddTxOuts in Hdom.
    exists st'. split; [done|]. split; [set_solver|]. split; [done|].
    intros Hnobad. destruct (Hno Hnobad) as [Hbc Hins]. split; [done|].
    intros x [->|Hx]%elem_of_cons; [|by apply Hins]. set_solver.
Qed.

(** The loop over the transactions after the first one. *)
Lemma inputsOfTxs_spec block txs : ∀ st,
  ∃ st',
    inputsOfTxs' block txs st = Ok st'
    ∧ dom (entries st.1.1) ⊆ dom (entries st'.1.1)
    ∧ st.2 ⊆ st'.2
    ∧ ((∀ h, IsBadTx st.1.2 h = false) ->
       st'.1.2 = st.1.2
       ∧ ∀ itx txIn, itx ∈ txs -> txIn ∈ TxIn (msgTx itx.2) ->
                     opHash (PreviousOut txIn) ∈ dom (entries st'.1.1) ∪ st'.2).
Proof.
  unfold inputsOfTxs.
  induction txs as [|[i tx] rest IH]; intros st.
  - exists st. split; [done|]. split; [done|]. split; [done|]. intros _.
    split; [done|]. by intros itx txIn ?%elem_of_nil.
  - cbn [foldM fst snd].
    destruct (IsBadTx st.1.2 (txHash tx)) eqn:Hbad.
    + cbn [mbind res_bind].
      destruct (IH st) as (st' & Hst & Hdom & Hsub & Hno).
      exists st'. split; [done|]. split; [done|]. split; [done|].
      intros Hnobad. by rewrite Hnobad in Hbad.
    + destruct (inputsOfTx_spec block i tx (TxIn (msgTx tx)) st)
        as (st1 & -> & Hdom1 & Hsub1 & Hno1).
      cbn [mbind res_bind].
      destruct (IH st1) as (st' & Hst & Hdom & Hsub & Hno).
      exists st'. split; [done|]. split; [set_solver|]. split; [set_solver|].
      intros Hnobad. destruct (Hno1 Hnobad) as [Hbc1 Hins1].
      rewrite Hbc1 in Hno. destruct (Hno Hnobad) as [Hbc Hins].
      split; [done|].
      intros itx txIn [->|Hitx]%elem_of_cons Hin; [|by eapply Hins].
      specialize (Hins1 txIn Hin). set_solver.
Qed.

Lemma fetchUtxosMain_dom view utxoBucket txSet :
  dom (entries view)
  ⊆ dom (entries (fetchUtxosMain deserializeUtxoEntry isDeserializeErr view
                    utxoBucket txSet).1).
Proof.
  rewrite fetchUtxosMain_loop.
  destruct (fetchUtxosLoop deserializeUtxoEntry isDeserializeErr view utxoBucket
              txSet) as [view' err] eqn:Hloop.
  intros h [p Hp]%elem_of_dom. apply elem_of_dom. exists p.
  by eapply fetchUtxosLoop_keeps.
Qed.

Lemma indexFrom_elem {A} (l : list A) (x : A) : ∀ j,
  x ∈ l -> ∃ i, (i, x) ∈ indexFrom j l.
Proof.
  induction l as [|y l IH]; intros j; [by intros ?%elem_of_nil|].
  intros [->|Hin]%elem_of_cons.
  - exists j. by left.
  - destruct (IH (S j) Hin) as [i Hi]. exists i. by right.
Qed.

(** What [fetchInputUtxos] returns. *)
Lemma fetchInputUtxos_spec view utxoBucket block bc :
  blockTransactions block ≠ [] ->
  ∃ r,
    fetchInputUtxos' view utxoBucket block bc = Ok r
    ∧ dom (entries view) ⊆ dom (entries r.1.1)
    ∧ ((∀ h, IsBadTx bc h = false) ->
       r.1.2 = bc
       ∧ (r.2 = None ->
          ∀ tx txIn,
            tx ∈ tail (blockTransactions block) -> txIn ∈ TxIn (msgTx tx) ->
            opHash (PreviousOut txIn) ∈ dom (entries r.1.1))).
Proof.
  intros Hne. unfold fetchInputUtxos.
  destruct (blockTransactions block) as [|tx0 rest] eqn:Htxs; [done|].
  destruct (inputsOfTxs_spec block (indexFrom 0 rest) (view, bc, ∅))
    as (st & Hst & Hdom & _ & Hno).
  rewrite <- Htxs, Hst. cbn [mbind res_bind]. cbv zeta. eexists.
  split; [done|]. cbn [fst snd] in *.
  pose proof (fetchUtxosMain_dom st.1.1 utxoBucket (iter st.2)) as Hkeep.
  split; [set_solver|]. intros Hnobad. destruct (Hno Hnobad) as [Hbc Hins].
  split; [done|]. intros Hnone tx txIn Htx Hin.
  rewrite Htxs in Htx. cbn [tail] in Htx.
  destruct (indexFrom_elem rest tx 0%nat Htx) as [i Hi].
  specialize (Hins (i, tx) txIn Hi Hin).
  apply elem_of_union in Hins as [Hview|Hneeded]; [by apply Hkeep|].
  rewrite fetchUtxosMain_loop in Hnone |- *.
  destruct (fetchUtxosLoop_spec deserializeUtxoEntry isDeserializeErr utxoBucket
              (iter st.2) st.1.1) as [Hok Hafter].
  destruct (Hafter Hnone) as [_ Hk]. apply elem_of_dom. rewrite Hk.
  unfold loaded.
  destruct (entries st.1.1 !! opHash (PreviousOut txIn)) as [p|] eqn:He;
    [by eexists|].
  rewrite bool_decide_eq_true_2 by (by rewrite iter_perm, elem_of_elements).
  apply Hok in Hnone. rewrite Forall_forall in Hnone.
  destruct (Hnone (opHash (PreviousOut txIn))) as [p Hp];
    [by rewrite iter_perm, elem_of_elements|done|].
  rewrite Hp. by eexists.
Qed.

(** X25. [fetchInputUtxos] panics on a block without transactions, on the
    slice of the transactions after the first one. On any other block it
    returns, for every order of map iteration and whatever the chain says
    about bad transactions: the positions it takes from the in-flight map
    are positions of the block. It removes no key from the view. When the
    chain knows no bad transaction, it leaves the chain as it is, and after
    a success the view has a key for every transaction that an input of a
    transaction after the first one spends from. *)
Theorem fetchInputUtxos_loads_the_inputs (view : UtxoViewpoint)
    (utxoBucket : gmap N bytes) (block : SerializedBlock) (bc : BadTxs) :
  (blockTransactions block = [] ->
   fetchInputUtxos' view utxoBucket block bc = Fail IndexOutOfRange)
  ∧ (blockTransactions block ≠ [] ->
     ∃ view' bc' err,
       fetchInputUtxos' view utxoBucket block bc = Ok (view', bc', err)
       ∧ dom (entries view) ⊆ dom (entries view')
       ∧ ((∀ h, IsBadTx bc h = false) ->
          bc' = bc
          ∧ (err = None ->
             ∀ tx txIn,
               tx ∈ tail (blockTransactions block) -> txIn ∈ TxIn (msgTx tx) ->
               opHash (PreviousOut txIn) ∈ dom (entries view')))).
Proof.
  split.
  - intros Hnil. unfold fetchInputUtxos. by rewrite Hnil.
  - intros Hne.
    destruct (fetchInputUtxos_spec view utxoBucket block bc Hne)
      as ([[view' bc'] err] & Hr & Hrest).
    by exists view', bc', err.
Qed.

(** The journal after the transactions of a list are connected. *)
Lemma connectTxs_journal txs : ∀ view blockOrd txIdx J0 view' J',
  connectTxs' view blockOrd txs txIdx (Some J0) = (view', J', None) ->
  ∃ recs, J' = Some (J0 ++ recs)
          ∧ length recs = connectedInputs IsCoinBaseTx txs.
Proof.
  induction txs as [|tx rest IH]; intros view bo i J0 view' J'; cbn [connectTxs].
  - intros [= <- <-]. exists []. by rewrite app_nil_r.
  - unfold connectTransaction. unfold connectedInputs. cbn [fmap list_fmap sum_list].
    fold (connectedInputs IsCoinBaseTx rest).
    destruct (IsCoinBaseTx (msgTx tx)).
    + intros (recs & -> & Hlen)%IH. by exists recs.
    + destruct (connectInputs view (TxIn (msgTx tx)) 0 (uint32 (Z.of_nat i))
                  (Some J0)) as [[v j] [err|]] eqn:Hc; [done|].
      apply connectInputs_records in Hc as (recs1 & -> & Hlen1 & _).
      intros (recs & -> & Hlen)%IH. exists (recs1 ++ recs).
      rewrite <- app_assoc, length_app. split; [done|]. unfold id. lia.
Qed.

(** X26. [connectTransactions] panics on a block without transactions and
    returns on any other block. After a success the best hash of the view
    is the hash of the block. The transactions it connects are those of
    the parent, and only when there is a parent and the order of the block
    is not 0: the journal then grows by one record for each input of the
    transactions of the parent that are not coinbases; without a parent, or
    for a block of order 0, the journal is returned as it was passed. This
    holds for every order of map iteration. *)
Theorem connectTransactions_connects_the_parent (view : UtxoViewpoint)
    (utxoBucket : gmap N bytes) (bc : BadTxs) (block : SerializedBlock)
    (parent : option SerializedBlock) (J0 : list SpentTxOut) :
  (blockTransactions block = [] ->
   connectTransactions' view utxoBucket bc block parent (Some J0)
   = Fail IndexOutOfRange)
  ∧ (blockTransactions block ≠ [] ->
     ∃ view' bc' stxos' err,
       connectTransactions' view utxoBucket bc block parent (Some J0)
       = Ok (view', bc', stxos', err)
       ∧ (err = None ->
          BestHash view' = blockHash block
          ∧ ∃ recs,
              stxos' = Some (J0 ++ recs)
              ∧ length recs
                = match parent with
                  | Some p =>
                      if blockOrder block =? 0 then 0%nat
                      else connectedInputs IsCoinBaseTx (blockTransactions p)
                  | None => 0%nat
                  end)).
Proof.
  split.
  - intros Hnil. unfold connectTransactions, fetchInputUtxos. rewrite Hnil.
    destruct parent as [p|]; [|done]. by destruct (blockOrder block =? 0).
  - intros Hne. unfold connectTransactions.
    assert (Hsecond : ∀ v1 bc1 j1 (recs : list SpentTxOut) (n : nat),
      j1 = Some (J0 ++ recs) -> length recs = n ->
      ∃ view' bc' stxos' err,
        (f ← fetchInputUtxos' v1 utxoBucket block bc1;
         match f.2 with
         | Some err => Ok (f.1.1, f.1.2, j1, Some err)
         | None => Ok (SetBestHash f.1.1 (blockHash block), f.1.2, j1, None)
         end) = Ok (view', bc', stxos', err)
        ∧ (err = None ->
           BestHash view' = blockHash block
           ∧ ∃ recs', stxos' = Some (J0 ++ recs') ∧ length recs' = n)).
    { intros v1 bc1 j1 recs n -> Hn.
      destruct (fetchInputUtxos_spec v1 utxoBucket block bc1 Hne)
        as ([[vf bcf] ef] & -> & _).
      cbn [mbind res_bind fst snd]. destruct ef as [err|].
      - eexists _, _, _, _. split; [done|]. done.
      - eexists _, _, _, _. split; [done|]. intros _. split; [done|].
        by exists recs. }
    destruct parent as [p|].
    + destruct (blockOrder block =? 0); cbn [negb].
      * cbn [mbind res_bind fst snd].
        apply (Hsecond _ _ _ []); [by rewrite app_nil_r|done].
      * destruct (fetchInputUtxos_spec view utxoBucket block bc Hne)
          as ([[vf bcf] ef] & -> & _).
        cbn [mbind res_bind fst snd]. destruct ef as [err|].
        -- cbn [mbind res_bind fst snd]. eexists _, _, _, _. split; [done|].
           done.
        -- cbv zeta.
           destruct (connectTxs' vf (blockOrder p) (blockTransactions p) 0
                       (Some J0)) as [[vc jc] ec] eqn:Hc.
           cbn [mbind res_bind fst snd]. destruct ec as [err|].
           ++ eexists _, _, _, _. split; [done|]. done.
           ++ apply connectTxs_journal in Hc as (recs & -> & Hlen).
              by apply (Hsecond _ _ _ recs).
    + cbn [mbind res_bind fst snd].
      apply (Hsecond _ _ _ []); [by rewrite app_nil_r|done].
Qed.

End ChainProperties.

(** The theorem at the sample block and the sample view, which holds
    transaction 7, with an empty store: the call succeeds, and the view has
    a key for transaction 7, from which the second transaction spends. *)
Lemma fetchInputUtxos_loads_the_inputs_witness :
  ∃ view' bc',
    fetchInputUtxos sampleIsUnspendable sampleIsCoinBaseTx sampleDetermineTxType
      sampleDeserialize sampleIsDeserializeErr ascending unit noBadTx addNoBadTx
      liveView ∅ spendingBlock tt = Ok (view', bc', None)
    ∧ dom (entries liveView) ⊆ dom (entries view')
    ∧ 7 ∈ dom (entries view').
Proof.
  destruct (fetchInputUtxos_loads_the_inputs sampleIsUnspendable sampleIsCoinBaseTx
              sampleDetermineTxType sampleDeserialize sampleIsDeserializeErr
              ascending unit noBadTx addNoBadTx ascending_perm liveView ∅
              spendingBlock tt) as [_ Hsome].
  destruct Hsome as (view' & bc' & err & Heq & Hdom & Hno); [discriminate|].
  assert (Herr : err = None).
  { pose proof Heq as Heq'. vm_compute in Heq'. congruence. }
  subst err. exists view', bc'. split; [exact Heq|]. split; [exact Hdom|].
  destruct Hno as [_ Hins]; [reflexivity|].
  apply (Hins eq_refl spendingTx (mkTxInput (mkTxOutPoint 7 0) 50)).
  - cbn. apply list_elem_of_here.
  - cbn. apply list_elem_of_here.
Defined.

(** The theorem at the coinbase-only block 2 with the sample block as its
    parent: the call succeeds, the best hash is the hash of block 2, and the
    single input of the parent is recorded. *)
Lemma connectTransactions_connects_the_parent_witness :
  ∃ view' bc' recs,
    connectTransactions sampleIsUnspendable sampleIsCoinBaseTx
      sampleDetermineTxType sampleDeserialize sampleIsDeserializeErr ascending
      unit noBadTx addNoBadTx liveView ∅ tt blockTwo (Some spendingBlock)
      (Some [])
    = Ok (view', bc', Some ([] ++ recs), None)
    ∧ BestHash view' = blockHash blockTwo
    ∧ length recs = 1%nat.
Proof.
  destruct (connectTransactions_connects_the_parent sampleIsUnspendable
              sampleIsCoinBaseTx sampleDetermineTxType sampleDeserialize
              sampleIsDeserializeErr ascending unit noBadTx addNoBadTx
              ascending_perm liveView ∅ tt blockTwo (Some spendingBlock) [])
    as [_ Hsome].
  destruct Hsome as (view' & bc' & stxos' & err & Heq & Hpost); [discriminate|].
  assert (Herr : err = None).
  { pose proof Heq as Heq'. vm_compute in Heq'. congruence. }
  subst err. destruct (Hpost eq_refl) as (Hbest & recs & -> & Hlen).
  exists view', bc', recs. split; [exact Heq|]. split; [exact Hbest|exact Hlen].
Defined.

(** ** [disconnectTransactions] without a journal *)

(** With an empty journal the lookup finds no record, and the loop over the
    inputs does nothing. *)
Lemma disconnectInputs_no_journal tx txIdx insRev : ∀ view,
  disconnectInputs view tx txIdx insRev [] = (view, None).
Proof. induction insRev as [|[i txIn] rest IH]; intros view; [done|]. apply IH. Qed.

Lemma cleared_setEntry view (h k : N) e :
  sparseOutputs e = ∅ -> modified e = true ->
  cleared (entries view !! k) -> cleared (entries (setEntry h e view) !! k).
Proof.
  intros Hout Hmod Hk. destruct (decide (h = k)) as [->|Hne].
  - rewrite entries_setEntry_eq. by exists e.
  - by rewrite entries_setEntry_ne.
Qed.

(** The loop over the transactions, with an empty journal. *)
Lemma disconnectTxs_no_journal blockOrd txsRev : ∀ view,
  ∃ view',
    disconnectTxs view blockOrd txsRev [] = (view', None)
    ∧ bestHash view' = bestHash view
    ∧ (∀ k, cleared (entries view !! k) -> cleared (entries view' !! k))
    ∧ (∀ itx, itx ∈ txsRev -> cleared (entries view' !! txHash itx.2))
    ∧ (∀ k, k ∉ (λ itx : nat * Tx, txHash itx.2) <$> txsRev ->
            entries view' !! k = entries view !! k).
Proof.
  induction txsRev as [|[i tx] rest IH]; intros view.
  - exists view. split; [done|]. split; [done|]. split; [done|].
    split; [by intros itx ?%elem_of_nil|done].
  - cbn [disconnectTxs]. cbv zeta. rewrite disconnectInputs_no_journal.
    match goal with
    | |- context [setEntry (txHash tx) ?e view] =>
        destruct (IH (setEntry (txHash tx) e view))
          as (view' & Hrun & Hbest & Hkeep & Hall & Hother);
          pose proof (cleared_setEntry view (txHash tx)) as Hset;
          pose proof (entries_setEntry_eq (txHash tx) e view) as Hnew;
          pose proof (λ k, entries_setEntry_ne (txHash tx) k e view) as Hold
    end.
    exists view'. split; [by destruct (i =? 0)%nat|]. split; [done|].
    split; [intros k Hk; by apply Hkeep, Hset|]. split.
    + intros itx [->|Hitx]%elem_of_cons; [|by apply Hall].
      apply Hkeep. cbn [snd]. rewrite Hnew. by eexists.
    + intros k Hk. rewrite fmap_cons, not_elem_of_cons in Hk.
      destruct Hk as [Hne Hk]. rewrite Hother by done. apply Hold. by cbn in Hne.
Qed.

(** X27. With an empty journal [disconnectTransactions] never fails and
    restores nothing: it sets the best hash to the hash of the block, binds
    the hash of every transaction of the block to an entry that has no
    output and is flagged modified, and leaves every other key of the view
    as it was. *)
Theorem disconnectTransactions_without_journal (view : UtxoViewpoint)
    (block : SerializedBlock) :
  ∃ view',
    disconnectTransactions view block [] = (view', None)
    ∧ BestHash view' = blockHash block
    ∧ (∀ tx, tx ∈ blockTransactions block -> cleared (entries view' !! txHash tx))
    ∧ (∀ k, k ∉ txHash <$> blockTransactions block ->
            entries view' !! k = entries view !! k).
Proof.
  unfold disconnectTransactions.
  destruct (disconnectTxs_no_journal (blockOrder block)
              (rev (indexFrom 0 (blockTransactions block))) view)
    as (view1 & -> & _ & _ & Hall & Hother).
  eexists. split; [done|]. split; [done|]. split.
  - intros tx Htx.
    destruct (indexFrom_elem (blockTransactions block) tx 0%nat Htx) as [i Hi].
    apply elem_of_rev in Hi. by apply Hall in Hi.
  - intros k Hk. cbn. apply Hother. intros Hin. apply Hk.
    apply list_elem_of_fmap in Hin as ([i tx] & -> & Hitx).
    apply elem_of_rev in Hitx. cbn.
    assert (Hmem : ∀ (l : list Tx) j, (i, tx) ∈ indexFrom j l -> tx ∈ l).
    { intros l. induction l as [|x l IH]; intros j; cbn;
        [by intros ?%elem_of_nil|].
      intros [[= -> ->]|Hin]%elem_of_cons; [by left|]. right. by eapply IH. }
    apply list_elem_of_fmap. exists tx. split; [done|]. by eapply Hmem.
Qed.
